(** * A shallow embedding of git-from-scratch (pygit)

    The development follows the four stages of the repository:
    the content-addressable object store (stage 1), blobs and trees
    (stage 2), commits (stage 3) and refs (stage 4).

    Python values are modelled as follows.
    - [bytes] is a list of [byte];
    - [str] is a list of Unicode code points (numbers of type [N]);
      [encode] and [decode] are strict UTF-8, as [str.encode()] and
      [bytes.decode()];
    - exceptions are values of type [exn], and a computation that may raise
      returns a [result];
    - a recursion that need not end takes fuel and gives [None] when the
      fuel runs out.

    The file system is modelled by what the program reads and writes.
    - The objects directory is a finite map from the path of an object
      file, its shard and its file name, to the file, which is held as
      zlib reads it; the shard directories are not modelled.
    - The repository directory of the refs is a finite map from relative
      paths to text files and directories.
    - The directory that a tree is built from is a tree of files and
      directories, and the working directory that a tree is restored to is
      the list of the calls made on it.
    - The clock of [create_commit] and the constant [static.GIT_DIR], which
      is not part of the sources at hand, are parameters. *)

From Stdlib Require Import ZArith NArith List Lia Bool Ascii String.
From Stdlib Require Import Strings.Byte.
From Stdlib Require Import Sorting.Permutation.
From stdpp Require Import gmap list.

Local Open Scope N_scope.

(** ** Python values *)

Abbreviation bytes := (list byte).
Abbreviation str := (list N).

(** A string literal of the source, as a [str]. *)
Definition lit (s : string) : str :=
  map (fun a => N_of_ascii a) (list_ascii_of_string s).

Definition byte_of_N (n : N) : byte :=
  match Byte.of_N n with
  | Some b => b
  | None => x00
  end.

(** Exceptions of the Python run time and of the program. *)
Inductive exn : Type :=
| FileNotFoundError (name : str)        (* "Object {sha1_hash} not found" *)
| CorruptedError (sha1_hash : str)      (* ValueError "Object {sha1_hash} corrupted: size mismatch" *)
| NotATreeError (sha1_hash : str)       (* ValueError "Object {tree_hash} is not a tree" *)
| NotACommitError (sha1_hash : str)     (* ValueError "Object {commit_hash} is not a commit" *)
| UnpackError                           (* ValueError of a tuple unpacking *)
| IndexError                            (* list index out of range *)
| NotADirectoryError                    (* a path through what is no directory *)
| IsADirectoryError                     (* reading or writing a directory *)
| FileExistsError                       (* mkdir() of what is a file *)
| IntError                              (* ValueError of int() *)
| FromHexError                          (* ValueError of bytes.fromhex *)
| UnicodeDecodeError
| UnicodeEncodeError
| ZlibError                             (* zlib.error *)
| KeyError.                             (* a key that a dict does not have *)

Inductive result (A : Type) : Type :=
| Ok (a : A)
| Raise (e : exn).
Arguments Ok {A} a.
Arguments Raise {A} e.

Definition bind {A B} (r : result A) (k : A -> result B) : result B :=
  match r with
  | Ok a => k a
  | Raise e => Raise e
  end.

Notation "'let*' x ':=' r 'in' k" := (bind r (fun x => k))
  (at level 10, x name, r at level 100, k at level 200, only parsing).
Notation "'let*' ' p ':=' r 'in' k" :=
  (bind r (fun x => match x with p => k end))
  (at level 10, p pattern, r at level 100, k at level 200, only parsing).

#[global] Instance byte_eq_dec : EqDecision byte := Byte.byte_eq_dec.

(** ** Text: UTF-8, str.split, str.strip, int() and str() *)

(** One code point in UTF-8; lone surrogates and numbers past U+10FFFF have
    no encoding. *)
Definition encode_cp (c : N) : result bytes :=
  if c <? 0x80 then Ok [byte_of_N c]
  else if c <? 0x800 then
    Ok [byte_of_N (0xC0 + c / 64); byte_of_N (0x80 + c mod 64)]
  else if c <? 0x10000 then
    if (0xD800 <=? c) && (c <? 0xE000) then Raise UnicodeEncodeError
    else Ok [byte_of_N (0xE0 + c / 4096);
             byte_of_N (0x80 + (c / 64) mod 64);
             byte_of_N (0x80 + c mod 64)]
  else if c <? 0x110000 then
    Ok [byte_of_N (0xF0 + c / 262144);
        byte_of_N (0x80 + (c / 4096) mod 64);
        byte_of_N (0x80 + (c / 64) mod 64);
        byte_of_N (0x80 + c mod 64)]
  else Raise UnicodeEncodeError.

(** str.encode() *)
Fixpoint encode (s : str) : result bytes :=
  match s with
  | [] => Ok []
  | c :: s' =>
      let* b := encode_cp c in
      let* r := encode s' in
      Ok (b ++ r)
  end.

(** The payload of a continuation byte 10xxxxxx. *)
Definition continuation (b : byte) : option N :=
  let n := Byte.to_N b in
  if (0x80 <=? n) && (n <? 0xC0) then Some (n - 0x80) else None.

(** bytes.decode(): strict UTF-8, which refuses stray and missing
    continuation bytes, overlong forms, surrogates and numbers past
    U+10FFFF. *)
Fixpoint decode (b : bytes) : result str :=
  match b with
  | [] => Ok []
  | b0 :: r0 =>
      let n0 := Byte.to_N b0 in
      if n0 <? 0x80 then
        let* s := decode r0 in Ok (n0 :: s)
      else if n0 <? 0xC0 then Raise UnicodeDecodeError
      else if n0 <? 0xE0 then
        match r0 with
        | b1 :: r1 =>
            match continuation b1 with
            | Some c1 =>
                let c := (n0 - 0xC0) * 64 + c1 in
                if c <? 0x80 then Raise UnicodeDecodeError
                else let* s := decode r1 in Ok (c :: s)
            | None => Raise UnicodeDecodeError
            end
        | _ => Raise UnicodeDecodeError
        end
      else if n0 <? 0xF0 then
        match r0 with
        | b1 :: b2 :: r2 =>
            match continuation b1, continuation b2 with
            | Some c1, Some c2 =>
                let c := (n0 - 0xE0) * 4096 + c1 * 64 + c2 in
                if (c <? 0x800) || ((0xD800 <=? c) && (c <? 0xE000))
                then Raise UnicodeDecodeError
                else let* s := decode r2 in Ok (c :: s)
            | _, _ => Raise UnicodeDecodeError
            end
        | _ => Raise UnicodeDecodeError
        end
      else if n0 <? 0xF8 then
        match r0 with
        | b1 :: b2 :: b3 :: r3 =>
            match continuation b1, continuation b2, continuation b3 with
            | Some c1, Some c2, Some c3 =>
                let c := (n0 - 0xF0) * 262144 + c1 * 4096 + c2 * 64 + c3 in
                if (c <? 0x10000) || (0x110000 <=? c)
                then Raise UnicodeDecodeError
                else let* s := decode r3 in Ok (c :: s)
            | _, _, _ => Raise UnicodeDecodeError
            end
        | _ => Raise UnicodeDecodeError
        end
      else Raise UnicodeDecodeError
  end.

Section Splitting.
Context {A : Type} `{EqDecision A}.

(** The text before and after the first [sep], when there is one. *)
Fixpoint cut (sep : A) (l : list A) : option (list A * list A) :=
  match l with
  | [] => None
  | c :: l' =>
      if decide (c = sep) then Some ([], l')
      else match cut sep l' with
           | Some (a, b) => Some (c :: a, b)
           | None => None
           end
  end.

(** [l.split(sep, 1)] for a separator of one element. *)
Definition split1 (sep : A) (l : list A) : list (list A) :=
  match cut sep l with
  | Some (a, b) => [a; b]
  | None => [l]
  end.

(** [l.split(sep)] for a separator of one element. *)
Fixpoint split (sep : A) (l : list A) : list (list A) :=
  match l with
  | [] => [[]]
  | c :: l' =>
      if decide (c = sep) then [] :: split sep l'
      else match split sep l' with
           | p :: ps => (c :: p) :: ps
           | [] => [[c]]
           end
  end.

Fixpoint starts_with (p l : list A) : bool :=
  match p, l with
  | [], _ => true
  | x :: p', y :: l' => if decide (x = y) then starts_with p' l' else false
  | _ :: _, [] => false
  end.

(** The text before and after the first occurrence of the non-empty
    separator [sep]. *)
Fixpoint cut_sub (sep : list A) (l : list A) : option (list A * list A) :=
  if starts_with sep l then Some ([], skipn (length sep) l)
  else match l with
       | [] => None
       | c :: l' =>
           match cut_sub sep l' with
           | Some (a, b) => Some (c :: a, b)
           | None => None
           end
       end.

(** [l.split(sep, 1)] for a separator of several elements. *)
Definition split1_sub (sep : list A) (l : list A) : list (list A) :=
  match cut_sub sep l with
  | Some (a, b) => [a; b]
  | None => [l]
  end.

(** [a, b = parts]: exactly two parts, or ValueError. *)
Definition unpack2 {B : Type} (parts : list B) : result (B * B) :=
  match parts with
  | [a; b] => Ok (a, b)
  | _ => Raise UnpackError
  end.

(** [l.find(x, offset)]: the first index at or after [offset] that holds
    [x]; [None] is Python's -1. *)
Fixpoint find_from (x : A) (offset : nat) (l : list A) : option nat :=
  match l with
  | [] => None
  | c :: l' =>
      match offset with
      | O => if decide (c = x) then Some O
             else S <$> find_from x O l'
      | S o => S <$> find_from x o l'
      end
  end.

(** The slice [l[i:j]]. *)
Definition slice (i j : nat) (l : list A) : list A :=
  firstn (j - i) (skipn i l).
End Splitting.

(** str.isspace() of one character: the white space that strip()
    skips. *)
Definition is_space (c : N) : bool :=
  ((0x09 <=? c) && (c <=? 0x0D)) || ((0x1C <=? c) && (c <=? 0x20))
  || (c =? 0x85) || (c =? 0xA0) || (c =? 0x1680)
  || ((0x2000 <=? c) && (c <=? 0x200A))
  || (c =? 0x2028) || (c =? 0x2029) || (c =? 0x202F) || (c =? 0x205F)
  || (c =? 0x3000).

Fixpoint lstrip (s : str) : str :=
  match s with
  | c :: s' => if is_space c then lstrip s' else s
  | [] => []
  end.

Definition rstrip (s : str) : str := rev (lstrip (rev s)).

(** str.strip() *)
Definition strip (s : str) : str := rstrip (lstrip s).

(** [s.replace(old, new)] for an [old] of one character. *)
Definition replace (old : N) (new : str) (s : str) : str :=
  flat_map (fun c => if decide (c = old) then new else [c]) s.

Definition is_digit (c : N) : bool := (48 <=? c) && (c <=? 57).

(** The digits of int(): decimal digits, single underscores between them. *)
Fixpoint int_digits (s : str) (acc : N) (after_digit : bool) : option N :=
  match s with
  | [] => if after_digit then Some acc else None
  | c :: s' =>
      if is_digit c then int_digits s' (10 * acc + (c - 48)) true
      else if (c =? 95) && after_digit then int_digits s' acc false
      else None
  end.

(** The white space that int() skips around the digits: within ASCII the
    characters tab to carriage return and the space, past ASCII those of
    str.isspace(). *)
Definition is_int_space (c : N) : bool :=
  if c <? 128 then ((9 <=? c) && (c <=? 13)) || (c =? 32) else is_space c.

Fixpoint int_lstrip (s : str) : str :=
  match s with
  | c :: s' => if is_int_space c then int_lstrip s' else s
  | [] => []
  end.

Definition int_strip (s : str) : str := rev (int_lstrip (rev (int_lstrip s))).

(** int(s) for a str: white space around, an optional sign, then the
    digits. Decimal digits outside ASCII, which int() reads too, and the
    limit on the number of digits are left out: such text is refused
    here. *)
Definition py_int (s : str) : result Z :=
  let t := int_strip s in
  let '(neg, d) :=
    match t with
    | 45 :: r => (true, r)
    | 43 :: r => (false, r)
    | _ => (false, t)
    end in
  match int_digits d 0 false with
  | Some n => Ok (if neg : bool then (- Z.of_N n)%Z else Z.of_N n)
  | None => Raise IntError
  end.

Fixpoint digits_acc (fuel : nat) (n : N) (acc : str) : str :=
  match fuel with
  | O => acc
  | S fuel' =>
      let acc' := (48 + n mod 10) :: acc in
      if n <? 10 then acc' else digits_acc fuel' (n / 10) acc'
  end.

(** str(n) for a natural number: its decimal digits. *)
Definition str_of_N (n : N) : str :=
  digits_acc (S (N.to_nat (N.log2 n))) n [].

(** str(z) for an int. *)
Definition str_of_Z (z : Z) : str :=
  if (z <? 0)%Z then 45 :: str_of_N (Z.to_N (- z)) else str_of_N (Z.to_N z).

(** ** SHA-1 (hashlib.sha1), FIPS 180-4, on 32-bit words held in [Z] *)

Module SHA1.
Local Open Scope Z_scope.

Definition w32 (x : Z) : Z := Z.land x 0xFFFFFFFF.

Definition rotl (n x : Z) : Z :=
  w32 (Z.lor (Z.shiftl x n) (Z.shiftr x (32 - n))).

Definition add32 (x y : Z) : Z := w32 (x + y).

(** Big-endian bytes of a 64-bit and of a 32-bit number. *)
Definition be_bytes (k : nat) (x : Z) : list Z :=
  map (fun i => Z.land (Z.shiftr x (8 * Z.of_nat i)) 0xFF) (rev (seq 0 k)).

Definition pad (msg : list Z) : list Z :=
  let len := Z.of_nat (length msg) in
  let k := Z.to_nat ((55 - len) mod 64) in
  msg ++ 0x80 :: repeat 0 k ++ be_bytes 8 (8 * len).

Fixpoint words (n : nat) (l : list Z) : list Z :=
  match n, l with
  | S n', a :: b :: c :: d :: l' =>
      Z.lor (Z.shiftl a 24) (Z.lor (Z.shiftl b 16) (Z.lor (Z.shiftl c 8) d))
      :: words n' l'
  | _, _ => []
  end.

(** The message schedule, most recent word first. *)
Fixpoint schedule (n : nat) (w : list Z) : list Z :=
  match n with
  | O => w
  | S n' =>
      let x := Z.lxor (Z.lxor (nth 2 w 0) (nth 7 w 0))
                      (Z.lxor (nth 13 w 0) (nth 15 w 0)) in
      schedule n' (rotl 1 x :: w)
  end.

Record state := State { ha : Z; hb : Z; hc : Z; hd : Z; he : Z }.

Definition initial : state :=
  State 0x67452301 0xEFCDAB89 0x98BADCFE 0x10325476 0xC3D2E1F0.

Definition f (t : nat) (b c d : Z) : Z :=
  if (t <? 20)%nat then Z.lor (Z.land b c) (Z.land (Z.lxor b 0xFFFFFFFF) d)
  else if (t <? 40)%nat then Z.lxor (Z.lxor b c) d
  else if (t <? 60)%nat then
    Z.lor (Z.lor (Z.land b c) (Z.land b d)) (Z.land c d)
  else Z.lxor (Z.lxor b c) d.

Definition k (t : nat) : Z :=
  if (t <? 20)%nat then 0x5A827999
  else if (t <? 40)%nat then 0x6ED9EBA1
  else if (t <? 60)%nat then 0x8F1BBCDC
  else 0xCA62C1D6.

Fixpoint rounds (t : nat) (w : list Z) (s : state) : state :=
  match w with
  | [] => s
  | wt :: w' =>
      let temp :=
        add32 (add32 (add32 (add32 (rotl 5 (ha s)) (f t (hb s) (hc s) (hd s)))
                            (he s)) (k t)) wt in
      rounds (S t) w' (State temp (ha s) (rotl 30 (hb s)) (hc s) (hd s))
  end.

Definition compress (s : state) (block : list Z) : state :=
  let w := rev (schedule 64 (rev (words 16 block))) in
  let r := rounds 0 w s in
  State (add32 (ha s) (ha r)) (add32 (hb s) (hb r)) (add32 (hc s) (hc r))
        (add32 (hd s) (hd r)) (add32 (he s) (he r)).

Fixpoint blocks (n : nat) (l : list Z) (s : state) : state :=
  match n with
  | O => s
  | S n' =>
      match l with
      | [] => s
      | _ => blocks n' (skipn 64 l) (compress s (firstn 64 l))
      end
  end.

Definition digest_words (msg : bytes) : state :=
  let m := pad (map (fun b => Z.of_N (Byte.to_N b)) msg) in
  blocks (length m) m initial.

Definition word_bytes (x : Z) : bytes :=
  map (fun z => byte_of_N (Z.to_N z)) (be_bytes 4 x).

(** hashlib.sha1(msg).digest() *)
Definition digest (msg : bytes) : bytes :=
  let s := digest_words msg in
  word_bytes (ha s) ++ word_bytes (hb s) ++ word_bytes (hc s)
  ++ word_bytes (hd s) ++ word_bytes (he s).

End SHA1.

(** ** Hexadecimal text: bytes.hex() and bytes.fromhex() *)

Definition hex_digit (n : N) : N :=
  if n <? 10 then 48 + n else 87 + n.

(** bytes.hex(): two lower-case digits a byte. *)
Definition hex_byte (b : byte) : str :=
  let n := Byte.to_N b in [hex_digit (n / 16); hex_digit (n mod 16)].

Definition hex (b : bytes) : str := flat_map hex_byte b.

(** hashlib.sha1(msg).hexdigest() *)
Definition sha1_hexdigest (msg : bytes) : str := hex (SHA1.digest msg).

Definition ascii_bytes (s : string) : bytes :=
  map byte_of_ascii (list_ascii_of_string s).

(** ** Stage 1: the content-addressable object store *)

(** A file of the objects directory, as zlib sees it: [Deflated raw] is a
    file that zlib.decompress inflates to [raw], [Garbled] one that it
    refuses with zlib.error. *)
Inductive zfile : Type :=
| Deflated (raw : bytes)
| Garbled.

Definition zlib_compress (raw : bytes) : zfile := Deflated raw.

Definition zlib_decompress (f : zfile) : result bytes :=
  match f with
  | Deflated raw => Ok raw
  | Garbled => Raise ZlibError
  end.

(** The path of a file below the objects directory: shard and file name. *)
Abbreviation path := (str * str)%type.

(** The objects directory, with the log of the [write_bytes] calls made on
    it, most recent first. *)
Record store : Type := Store {
  files : gmap (str * str) zfile;
  write_log : list path
}.

Definition exists_ (st : store) (p : path) : bool :=
  bool_decide (is_Some (files st !! p)).

Definition write_bytes (st : store) (p : path) (f : zfile) : store :=
  Store (<[p := f]> (files st)) (p :: write_log st).

Definition len {A} (l : list A) : str := str_of_N (N.of_nat (length l)).

Definition NUL : str := [0].

Definition _object_path (sha1_hash : str) : path :=
  (firstn 2 sha1_hash, skipn 2 sha1_hash).

Definition _hash_content (obj_type : str) (content : bytes) : result str :=
  let* header := encode (obj_type ++ lit " " ++ len content ++ NUL) in
  let full_content := header ++ content in
  Ok (sha1_hexdigest full_content).

Definition store_object (st : store) (obj_type : str) (content : bytes)
  : result (str * store) :=
  let* sha1_hash := _hash_content obj_type content in
  let obj_path := _object_path sha1_hash in
  if negb (exists_ st obj_path) then
    let* header := encode (obj_type ++ lit " " ++ len content ++ NUL) in
    let compressed := zlib_compress (header ++ content) in
    Ok (sha1_hash, write_bytes st obj_path compressed)
  else Ok (sha1_hash, st).

Definition retrieve_object (st : store) (sha1_hash : str)
  : result (str * bytes) :=
  let obj_path := _object_path sha1_hash in
  match files st !! obj_path with
  | None => Raise (FileNotFoundError sha1_hash)
  | Some f =>
      let* raw_data := zlib_decompress f in
      let* '(header, content) := unpack2 (split1 x00 raw_data) in
      let* text := decode header in
      let* '(obj_type, size_str) := unpack2 (split 32 text) in
      let* size := py_int size_str in
      if decide (Z.of_nat (length content) = size) then Ok (obj_type, content)
      else Raise (CorruptedError sha1_hash)
  end.

Definition empty_store : store := Store ∅ [].


(** ** Stage 2: blobs and trees *)

(** [a < b] on str: by code points, a proper prefix first. *)
Fixpoint str_lt (a b : str) : bool :=
  match a, b with
  | _, [] => false
  | [], _ :: _ => true
  | x :: a', y :: b' =>
      if x <? y then true else if y <? x then false else str_lt a' b'
  end.

Section Sorted.
Context {A : Type} (key : A -> str).

Fixpoint insert_sorted (x : A) (l : list A) : list A :=
  match l with
  | [] => [x]
  | y :: l' =>
      if str_lt (key y) (key x) then y :: insert_sorted x l' else x :: l
  end.

(** [sorted(l, key=key)]: the sort is stable, items of equal key keep
    the order they had in [l]. *)
Definition sorted (l : list A) : list A := foldr insert_sorted [] l.
End Sorted.

Definition hex_value (c : N) : option N :=
  if (48 <=? c) && (c <=? 57) then Some (c - 48)
  else if (97 <=? c) && (c <=? 102) then Some (c - 87)
  else if (65 <=? c) && (c <=? 70) then Some (c - 55)
  else None.

Definition is_ascii_space (c : N) : bool :=
  ((9 <=? c) && (c <=? 13)) || (c =? 32).

(** bytes.fromhex(s): two hexadecimal digits a byte, of either case, ASCII
    white space between the pairs skipped. *)
Fixpoint fromhex (s : str) : result bytes :=
  match s with
  | [] => Ok []
  | c :: s' =>
      if is_ascii_space c then fromhex s'
      else match hex_value c, s' with
           | Some top, d :: s'' =>
               match hex_value d with
               | Some bot =>
                   let* r := fromhex s'' in
                   Ok (byte_of_N (16 * top + bot) :: r)
               | None => Raise FromHexError
               end
           | _, _ => Raise FromHexError
           end
  end.

(** A tree entry as the builder holds it: (mode, obj_type, obj_hash, name). *)
Definition entry : Type := str * str * str * str.

Definition entry_name (e : entry) : str := snd e.

Fixpoint append_entries (es : list entry) (content : bytes) : result bytes :=
  match es with
  | [] => Ok content
  | (mode, obj_type, obj_hash, name) :: es' =>
      let* entry := encode (mode ++ lit " " ++ name ++ NUL) in
      let* hash_bytes := fromhex obj_hash in
      append_entries es' (content ++ entry ++ hash_bytes)
  end.

Definition _build_tree_content (entries : list entry) : result bytes :=
  append_entries (sorted entry_name entries) [].

(** What a path of the working directory leads to. *)
#[local] Unset Elimination Schemes.
Inductive node : Type :=
| File (content : bytes) (st_mode : N)      (* is_file() *)
| Dir (children : list (str * node))        (* is_dir(): what iterdir() lists *)
| Other.                                    (* neither of the two *)
#[local] Set Elimination Schemes.

(** Induction over a directory tree, with the property at hand for every
    child of a directory. *)
Section NodeInduction.
Variable P : node -> Prop.
Hypothesis HFile : forall content st_mode, P (File content st_mode).
Hypothesis HDir :
  forall children, Forall (fun c => P (snd c)) children -> P (Dir children).
Hypothesis HOther : P Other.

Fixpoint node_ind' (n : node) : P n :=
  match n with
  | File content st_mode => HFile content st_mode
  | Dir children =>
      HDir children
        ((fix all (l : list (str * node)) : Forall (fun c => P (snd c)) l :=
            match l with
            | [] => List.Forall_nil _
            | c :: l' => List.Forall_cons _ c l' (node_ind' (snd c)) (all l')
            end) children)
  | Other => HOther
  end.
End NodeInduction.

Definition S_IXUSR : N := 64 (* 0o100 *).

Definition _get_file_mode (filepath : node) : str :=
  match filepath with
  | Dir _ => lit "40000"
  | File _ st_mode =>
      if negb (N.land st_mode S_IXUSR =? 0) then lit "100755"
      else lit "100644"
  | Other => lit "100644"
  end.

(** The truth value of [subtree_hash]: neither None nor the empty str. *)
Definition truthy (h : option str) : bool :=
  match h with
  | Some (_ :: _) => true
  | _ => false
  end.

Section Trees.
(** The name of the metadata directory, [static.GIT_DIR]. *)
Variable GIT_DIR : str.

Definition builder : Type := str -> store -> result (option str * store).

(** The loop over the sorted children of a directory; [build] is
    [create_tree_from_directory] of the child. *)
Fixpoint collect_entries (items : list (str * (node * builder)))
    (st : store) (entries : list entry) : result (list entry * store) :=
  match items with
  | [] => Ok (entries, st)
  | (name, (item, build)) :: items' =>
      if starts_with (lit ".") name then collect_entries items' st entries
      else
        match item with
        | File content _ =>
            let* '(blob_hash, st1) := store_object st (lit "blob") content in
            let mode := _get_file_mode item in
            collect_entries items' st1
              (entries ++ [(mode, lit "blob", blob_hash, name)])
        | Dir _ =>
            let* '(subtree_hash, st1) := build name st in
            if truthy subtree_hash then
              collect_entries items' st1
                (entries ++ [(lit "40000", lit "tree",
                              default [] subtree_hash, name)])
            else collect_entries items' st1 entries
        | Other => collect_entries items' st entries
        end
  end.

(** [directory] is what the path leads to and [name] its last
    component. *)
Fixpoint create_tree_from_directory (directory : node) (name : str)
    (st : store) {struct directory} : result (option str * store) :=
  if decide (name = GIT_DIR) then Ok (None, st)
  else
    match directory with
    | Dir children =>
        let items :=
          map (fun c : str * node =>
                 (fst c, (snd c, create_tree_from_directory (snd c))))
              children in
        let* '(entries, st1) := collect_entries (sorted fst items) st [] in
        match entries with
        | [] => Ok (None, st1)
        | _ :: _ =>
            let* tree_content := _build_tree_content entries in
            let* '(tree_hash, st2) :=
              store_object st1 (lit "tree") tree_content in
            Ok (Some tree_hash, st2)
        end
    | _ => Raise NotADirectoryError
    end.
End Trees.

(** What [read_tree_to_directory] does to the working directory. The
    working directory itself is not modelled: the actions are recorded
    and taken to succeed. *)
Inductive action : Type :=
| Mkdir (p : list str)
| WriteBytes (p : list str) (content : bytes)
| Chmod (p : list str) (mode : N).

(** A run that may not end within its fuel ([None]); one that ends gives
    the actions made so far, most recent first, and how it ended. *)
Definition run : Type := option (list action * result unit).

Section ReadTree.
Variable st : store.

(** One entry of a tree: a directory is restored by [recur], which is
    [read_tree_to_directory] itself, a file is written and its mode set. *)
Definition restore_entry (recur : str -> list str -> list action -> run)
    (mode name obj_hash : str) (target_dir : list str)
    (log : list action) : run :=
  let file_path := target_dir ++ [name] in
  if decide (mode = lit "40000") then recur obj_hash file_path log
  else
    match retrieve_object st obj_hash with
    | Raise e => Some (log, Raise e)
    | Ok (_, file_content) =>
        let log := WriteBytes file_path file_content :: log in
        if decide (mode = lit "100755")
        then Some (Chmod file_path 493 (* 0o755 *) :: log, Ok tt)
        else Some (Chmod file_path 420 (* 0o644 *) :: log, Ok tt)
    end.

(** The [while offset < len(content)] loop. *)
Fixpoint parse_entries (recur : str -> list str -> list action -> run)
    (content : bytes) (target_dir : list str)
    (fuel : nat) (offset : nat) (log : list action) : run :=
  if (offset <? length content)%nat then
    match fuel with
    | O => None
    | S fuel' =>
        match find_from x00 offset content with
        | None => Some (log, Ok tt)
        | Some null_pos =>
            match
              (let* mode_name := decode (slice offset null_pos content) in
               unpack2 (split1 32 mode_name))
            with
            | Raise e => Some (log, Raise e)
            | Ok (mode, name) =>
                let hash_bytes :=
                  slice (null_pos + 1) (null_pos + 21) content in
                let obj_hash := hex hash_bytes in
                match restore_entry recur mode name obj_hash target_dir log
                with
                | None => None
                | Some (log', Raise e) => Some (log', Raise e)
                | Some (log', Ok _) =>
                    parse_entries recur content target_dir fuel'
                      (null_pos + 21) log'
                end
            end
        end
    end
  else Some (log, Ok tt).

Fixpoint read_tree_to_directory (fuel : nat) (tree_hash : str)
    (target_dir : list str) (log : list action) : run :=
  match fuel with
  | O => None
  | S fuel' =>
      match retrieve_object st tree_hash with
      | Raise e => Some (log, Raise e)
      | Ok (obj_type, content) =>
          if decide (obj_type <> lit "tree")
          then Some (log, Raise (NotATreeError tree_hash))
          else
            parse_entries (read_tree_to_directory fuel') content target_dir
              fuel' 0 (Mkdir target_dir :: log)
      end
  end.
End ReadTree.

(** What a command prints: a line of text, or the line [Error: {e}] of an
    exception [e] that the command has caught; the text of that line is the
    message of the exception. *)
Inductive printed : Type :=
| Line (text : str)
| ErrorLine (e : exn).

Module PyGitTree.

(** The [while offset < len(content)] loop of [ls_tree]: the lines printed
    so far and how the loop ended. [None]: the loop has not ended within
    [fuel] rounds. *)
Fixpoint ls_entries (content : bytes) (fuel : nat) (offset : nat)
    (out : list printed) : option (list printed * result unit) :=
  if (offset <? length content)%nat then
    match fuel with
    | O => None
    | S fuel' =>
        match find_from x00 offset content with
        | None => Some (out, Ok tt)
        | Some null_pos =>
            match
              (let* mode_name := decode (slice offset null_pos content) in
               unpack2 (split1 32 mode_name))
            with
            | Raise e => Some (out, Raise e)
            | Ok (mode, name) =>
                let hash_bytes :=
                  slice (null_pos + 1) (null_pos + 21) content in
                let obj_hash := hex hash_bytes in
                let obj_type_display :=
                  if decide (mode = lit "40000") then lit "tree"
                  else lit "blob" in
                ls_entries content fuel' (null_pos + 21)
                  (out ++ [Line (mode ++ lit " " ++ obj_type_display
                                 ++ lit " " ++ obj_hash ++ [9] ++ name)])
            end
        end
    end
  else Some (out, Ok tt).

(** [ls_tree], of [PyGitTree] and of [PyGitCommit] alike: what it
    prints. *)
Definition ls_tree (st : store) (fuel : nat) (tree_hash : str)
  : option (list printed) :=
  match retrieve_object st tree_hash with
  | Raise e => Some [ErrorLine e]
  | Ok (obj_type, content) =>
      if decide (obj_type <> lit "tree")
      then Some [Line (lit "Error: Object " ++ tree_hash
                       ++ lit " is not a tree")]
      else
        match ls_entries content fuel 0 [] with
        | None => None
        | Some (out, Ok _) => Some out
        | Some (out, Raise e) => Some (out ++ [ErrorLine e])
        end
  end.

End PyGitTree.

(** ** Stage 3: commits *)

(** ["\n".join(lines)] *)
Fixpoint join (sep : str) (lines : list str) : str :=
  match lines with
  | [] => []
  | [l] => l
  | l :: ls => l ++ sep ++ join sep ls
  end.

(** The format specs [+03d] and [02d]: the sign ([+] too when [plus] is
    set), then the digits, zeros in between up to [width]. *)
Definition format_d (plus : bool) (width : nat) (z : Z) : str :=
  let sign :=
    if (z <? 0)%Z then lit "-" else if plus then lit "+" else [] in
  let digits := str_of_N (Z.abs_N z) in
  sign ++ repeat 48 (width - length sign - length digits) ++ digits.

Definition author_name : str := lit "Peter Norvig".
Definition author_email : str := lit "norvig@google.com".

(** [now.utcoffset().total_seconds()] of a time taken in UTC. *)
Definition utc_offset : Z := 0.

(** [timestamp] is the clock's [int(now.timestamp())]. *)
Definition commit_text (timestamp : Z) (tree_hash : str)
    (parent_hash : option str) (message : str) : str :=
  let offset := utc_offset in
  let tz_str :=
    format_d true 3 (offset / 3600) ++ format_d false 2 (offset mod 3600 / 60) in
  let author :=
    lit "author " ++ author_name ++ lit " <" ++ author_email ++ lit "> "
    ++ str_of_Z timestamp ++ lit " " ++ tz_str in
  let committer :=
    lit "committer " ++ author_name ++ lit " <" ++ author_email ++ lit "> "
    ++ str_of_Z timestamp ++ lit " " ++ tz_str in
  let lines := [lit "tree " ++ tree_hash] in
  let lines :=
    if truthy parent_hash
    then lines ++ [lit "parent " ++ default [] parent_hash]
    else lines in
  let lines := lines ++ [author] in
  let lines := lines ++ [committer] in
  let lines := lines ++ [[]] in
  let lines := lines ++ [message] in
  join [10] lines.

Definition create_commit (st : store) (timestamp : Z) (tree_hash : str)
    (parent_hash : option str) (message : str) : result (str * store) :=
  let* content := encode (commit_text timestamp tree_hash parent_hash message) in
  store_object st (lit "commit") content.

(** The loop over the header lines; a later line of the same key replaces
    an earlier one. *)
Fixpoint parse_headers (lines : list str) (commit_data : gmap (list N) str)
  : result (gmap (list N) str) :=
  match lines with
  | [] => Ok commit_data
  | line :: lines' =>
      let* '(key, value) := unpack2 (split1 32 line) in
      parse_headers lines' (<[key := value]> commit_data)
  end.

Definition parse_commit (st : store) (commit_hash : str)
  : result (gmap (list N) str) :=
  let* '(obj_type, content) := retrieve_object st commit_hash in
  if decide (obj_type <> lit "commit")
  then Raise (NotACommitError commit_hash)
  else
    let* text := decode content in
    let* '(headers, message) := unpack2 (split1_sub [10; 10] text) in
    let commit_data := {[ lit "message" := strip message ]} in
    parse_headers (split 10 headers) commit_data.

Module PyGitCommit.

(** One round of the loop of [log]: the lines of a commit. *)
Definition log_entry (current_hash : str) (commit_data : gmap (list N) str)
    (out : list printed) : list printed * result unit :=
  let out := out ++ [Line (lit "commit " ++ current_hash)] in
  let out :=
    match commit_data !! lit "author" with
    | Some author => out ++ [Line (lit "Author: " ++ author)]
    | None => out
    end in
  match
    match commit_data !! lit "committer" with
    | Some committer =>
        match split 62 committer with
        | _ :: date :: _ => Ok (out ++ [Line (lit "Date:   " ++ strip date)])
        | _ => Raise IndexError
        end
    | None => Ok out
    end
  with
  | Raise e => (out, Raise e)
  | Ok out =>
      match commit_data !! lit "message" with
      | Some message =>
          (out ++ [Line ([10] ++ lit "    "
                         ++ replace 10 ([10] ++ lit "    ") message);
                   Line []],
           Ok tt)
      | None => (out, Raise KeyError)
      end
  end.

(** The [while current_hash] loop of [log], and its [except]: what is
    printed. [None]: the walk has not ended within [fuel] commits. *)
Fixpoint log_loop (st : store) (fuel : nat) (current_hash : option str)
    (out : list printed) : option (list printed) :=
  if truthy current_hash then
    match fuel with
    | O => None
    | S fuel' =>
        let current_hash := default [] current_hash in
        match parse_commit st current_hash with
        | Raise e => Some (out ++ [ErrorLine e])
        | Ok commit_data =>
            match log_entry current_hash commit_data out with
            | (out, Raise e) => Some (out ++ [ErrorLine e])
            | (out, Ok _) =>
                log_loop st fuel' (commit_data !! lit "parent") out
            end
        end
    end
  else Some out.

Definition log (st : store) (fuel : nat) (commit_hash : str)
  : option (list printed) :=
  log_loop st fuel (Some commit_hash) [].

End PyGitCommit.

(** ** Stage 4: refs and branches *)

(** What a path below the repository directory leads to. *)
Inductive ref_node : Type :=
| RefFile (text : str)
| RefDir.

(** The repository directory: the map gives what the relative path [p]
    leads to, for a path in normal form ([HEAD], [refs/heads/main], ...);
    the empty path is the directory itself. *)
Definition node_at (rs : gmap (list N) ref_node) (p : str)
  : option ref_node :=
  match p with
  | [] => Some RefDir
  | _ :: _ => rs !! p
  end.

Definition heads_dir (ref_name : str) : str := lit "refs/heads/" ++ ref_name.
Definition head_file : str := lit "HEAD".

(** Path.exists() *)
Definition ref_exists (rs : gmap (list N) ref_node) (ref_path : str) : bool :=
  bool_decide (is_Some (node_at rs ref_path)).

(** Path.read_text(). The file holds text, the characters that
    [write_text] was given: the translation of carriage returns to line
    breaks that reading does is left out. *)
Definition read_text (rs : gmap (list N) ref_node) (ref_path : str)
  : result str :=
  match node_at rs ref_path with
  | Some (RefFile text) => Ok text
  | Some RefDir => Raise IsADirectoryError
  | None => Raise (FileNotFoundError ref_path)
  end.

(** The directories above a path, the nearest first: [a/b/c] gives [a/b]
    and [a]. *)
Fixpoint parents_from (prefix : str) (components : list str) : list str :=
  match components with
  | c :: (_ :: _) as rest =>
      parents_from (prefix ++ c ++ lit "/") rest ++ [prefix ++ c]
  | _ => []
  end.

Definition parents (p : str) : list str := parents_from [] (split 47 p).

(** Path.mkdir(parents=True, exist_ok=True) of the nearest directory of
    [dirs], which lists a directory and those above it. *)
Fixpoint mkdir_parents (rs : gmap (list N) ref_node) (dirs : list str)
  : result (gmap (list N) ref_node) :=
  match dirs with
  | [] => Ok rs
  | d :: up =>
      match node_at rs d with
      | Some RefDir => Ok rs
      | Some (RefFile _) => Raise FileExistsError
      | None =>
          match up with
          | [] => Ok (<[d := RefDir]> rs)
          | u :: _ =>
              match node_at rs u with
              | Some (RefFile _) => Raise NotADirectoryError
              | _ =>
                  let* rs' := mkdir_parents rs up in
                  Ok (<[d := RefDir]> rs')
              end
          end
      end
  end.

(** Path.write_text(). The file holds the text itself: that UTF-8
    refuses a surrogate is left out. *)
Definition write_text (rs : gmap (list N) ref_node) (p : str) (text : str)
  : result (gmap (list N) ref_node) :=
  match node_at rs p with
  | Some RefDir => Raise IsADirectoryError
  | _ => Ok (<[p := RefFile text]> rs)
  end.



Module GitRefs.

(** The new state of the directory and the line printed. *)
Definition update_ref (rs : gmap (list N) ref_node)
    (ref_name commit_hash : str) (symbolic : bool)
  : result (gmap (list N) ref_node * list str) :=
  let ref_path := ref_name in
  let* rs1 := mkdir_parents rs (parents ref_path) in
  let content :=
    if symbolic then lit "ref: " ++ commit_hash else commit_hash in
  let* rs2 := write_text rs1 ref_path (strip content ++ [10]) in
  Ok (rs2,
      [lit "Updated ref '" ++ ref_name ++ lit "' to point to '"
       ++ strip content ++ lit "'"]).

(** [None]: the recursion has not ended within [fuel] calls. *)
Fixpoint resolve_ref (fuel : nat) (rs : gmap (list N) ref_node)
    (ref_name : str) : option (result (option str)) :=
  match fuel with
  | O => None
  | S fuel' =>
      if bool_decide (ref_name = lit "HEAD") && negb (ref_exists rs head_file)
      then Some (Ok None)
      else
        let ref_path := ref_name in
        let found :=
          if negb (ref_exists rs ref_path) then
            let ref_path := heads_dir ref_name in
            if negb (ref_exists rs ref_path) then None else Some ref_path
          else Some ref_path in
        match found with
        | None => Some (Ok None)
        | Some ref_path =>
            match read_text rs ref_path with
            | Raise e => Some (Raise e)
            | Ok text =>
                let content := strip text in
                if starts_with (lit "ref: ") content then
                  match split1 32 content with
                  | [_; target] => resolve_ref fuel' rs target
                  | _ => Some (Raise IndexError)
                  end
                else Some (Ok (Some content))
            end
        end
  end.

Definition get_head_commit (fuel : nat) (rs : gmap (list N) ref_node)
  : option (result (option str)) :=
  resolve_ref fuel rs (lit "HEAD").


Definition get_current_branch (rs : gmap (list N) ref_node)
  : result (option str) :=
  if negb (ref_exists rs head_file) then Ok None
  else
    let* text := read_text rs head_file in
    let content := strip text in
    if starts_with (lit "ref: refs/heads/") content then
      match last (split 47 content) with
      | Some name => Ok (Some name)
      | None => Raise IndexError
      end
    else Ok None.

End GitRefs.

Module PyGitRef.

Definition update_ref (rs : gmap (list N) ref_node)
    (ref_name commit_hash : str)
  : result (gmap (list N) ref_node * list str) :=
  if negb (length commit_hash =? 40)%nat
     || negb (forallb (fun c => bool_decide (c ∈ lit "0123456789abcdef"))
                      commit_hash)
  then
    Ok (rs, [lit "Error: '" ++ commit_hash
             ++ lit "' is not a valid SHA-1 hash."])
  else GitRefs.update_ref rs ref_name commit_hash false.



(** [log] from a ref: what is printed. *)
Definition log (fuel : nat) (rs : gmap (list N) ref_node) (st : store)
    (start_point : str) : option (result (list printed)) :=
  match GitRefs.resolve_ref fuel rs start_point with
  | None => None
  | Some (Raise e) => Some (Raise e)
  | Some (Ok commit_hash) =>
      if negb (truthy commit_hash) then
        Some (Ok [Line (lit "Error: Cannot resolve '" ++ start_point
                        ++ lit "' to a commit.")])
      else
        match PyGitCommit.log st fuel (default [] commit_hash) with
        | None => None
        | Some out => Some (Ok out)
        end
  end.

(** [init]; the repository directory is there already, made when the
    object store was set up, and [git_dir_absolute] is its absolute
    path. *)
Definition init (git_dir_absolute : str) (rs : gmap (list N) ref_node)
  : result (gmap (list N) ref_node * list str) :=
  let* '(rs', out) :=
    GitRefs.update_ref rs (lit "HEAD") (lit "refs/heads/main") true in
  Ok (rs',
      [lit "Initialized empty Git repository in " ++ git_dir_absolute]
      ++ out ++ [lit "Set HEAD to point to 'main'"]).

End PyGitRef.

(** ** Notions used in the statements *)

Definition lower_hex (c : N) : bool :=
  ((48 <=? c) && (c <=? 57)) || ((97 <=? c) && (c <=? 102)).

(** An address as the repository shows it: 40 lower-case hexadecimal
    digits. *)
Definition address (a : str) : Prop :=
  length a = 40%nat /\ Forall (fun c => lower_hex c = true) a.

(** The framed bytes ["<kind> <byte-length>\0" + content], each character
    of the header as the byte of its ASCII code. *)
Definition framed (kind : str) (content : bytes) : bytes :=
  map byte_of_N (kind ++ [32] ++ str_of_N (N.of_nat (length content)) ++ [0])
  ++ content.

(** A Unicode scalar value: a code point that is no surrogate. *)
Definition scalar (c : N) : Prop :=
  c < 0xD800 \/ (0xE000 <= c /\ c < 0x110000).

(** A text without white space. *)
Definition no_space (s : str) : Prop := Forall (fun c => is_space c = false) s.

(** The value of a digit string, digit by digit. *)
Definition digit_step (v c : N) : N := 10 * v + (c - 48).

(** A sequence of puts; one that raises leaves the store as it was. *)
Fixpoint puts (ops : list (str * bytes)) (st : store) : store :=
  match ops with
  | [] => st
  | (kind, content) :: ops' =>
      match store_object st kind content with
      | Ok (_, st') => puts ops' st'
      | Raise _ => puts ops' st
      end
  end.

(** A directory that leads to no entry at all: each child is hidden, or is
    neither file nor directory, or is a directory that is named [GIT_DIR]
    or is itself such a directory. *)
Fixpoint hollow (GIT_DIR : str) (directory : node) : bool :=
  match directory with
  | Dir children =>
      forallb
        (fun c : str * node =>
           starts_with (lit ".") (fst c)
           || match snd c with
              | File _ _ => false
              | Dir _ => bool_decide (fst c = GIT_DIR) || hollow GIT_DIR (snd c)
              | Other => true
              end)
        children
  | _ => false
  end.

(** A list in the order that [sorted] gives: no item has a key below that
    of an item before it. *)
Fixpoint in_order {A : Type} (key : A -> str) (l : list A) : Prop :=
  match l with
  | [] => True
  | x :: l' =>
      Forall (fun y => str_lt (key y) (key x) = false) l' /\ in_order key l'
  end.

(** A child of a directory that leads to no entry: it is hidden, or is
    neither file nor directory, or is a directory that is named [GIT_DIR]
    or is hollow. *)
Definition leads_nowhere (GIT_DIR : str) (c : str * node) : bool :=
  starts_with (lit ".") (fst c)
  || match snd c with
     | File _ _ => false
     | Dir _ => bool_decide (fst c = GIT_DIR) || hollow GIT_DIR (snd c)
     | Other => true
     end.

(** An item of the loop that adds no entry and leaves the store alone. *)
Definition skipped (i : str * (node * builder)) : Prop :=
  let '(name, (item, build)) := i in
  starts_with (lit ".") name = true
  \/ match item with
     | File _ _ => False
     | Dir _ => forall st : store, build name st = Ok (None, st)
     | Other => True
     end.

(** The items that [create_tree_from_directory] sorts and hands to its
    loop. *)
Definition items_of (GIT_DIR : str) (children : list (str * node))
  : list (str * (node * builder)) :=
  map (fun c : str * node =>
         (fst c, (snd c, create_tree_from_directory GIT_DIR (snd c))))
      children.

(** A record of a tree object: mode, name and the raw bytes of the child
    address. *)
Definition record_bytes (r : str * str * bytes) : result bytes :=
  let '(mode, name, h) := r in
  let* header := encode (mode ++ 32 :: name) in
  Ok (header ++ x00 :: h).

Fixpoint tree_bytes (rs : list (str * str * bytes)) : result bytes :=
  match rs with
  | [] => Ok []
  | r :: rs' =>
      let* b := record_bytes r in
      let* bs := tree_bytes rs' in
      Ok (b ++ bs)
  end.

(** A header that reads back as mode and name. *)
Definition proper_header (mode name : str) : Prop :=
  (32 ∉ mode) /\ (0 ∉ mode) /\ (0 ∉ name).

Definition proper (r : str * str * bytes) : Prop :=
  let '(mode, name, h) := r in
  proper_header mode name /\ length h = 20%nat.

(** Restoring the records one after the other, as long as none raises. *)
Fixpoint restore_all (st : store)
    (recur : str -> list str -> list action -> run)
    (rs : list (str * str * bytes)) (target_dir : list str)
    (fuel : nat) (log : list action) : run :=
  match rs with
  | [] => Some (log, Ok tt)
  | (mode, name, h) :: rs' =>
      match fuel with
      | O => None
      | S fuel' =>
          match restore_entry st recur mode name (hex h) target_dir log with
          | None => None
          | Some (log', Raise e) => Some (log', Raise e)
          | Some (log', Ok _) => restore_all st recur rs' target_dir fuel' log'
          end
      end
  end.

#[global] Instance scalar_dec (c : N) : Decision (scalar c).
Proof. unfold scalar. apply _. Defined.

(** A character that may stand in a header line of a commit: one that
    UTF-8 can encode and that is no line break. *)
Definition in_line (c : N) : Prop := scalar c /\ c <> 10.

#[global] Instance in_line_dec (c : N) : Decision (in_line c).
Proof. unfold in_line. apply _. Defined.

(** The header lines of the text that [create_commit] composes. *)
Definition header_lines (timestamp : Z) (tree_hash : str)
    (parent_hash : option str) : list str :=
  let tz_str :=
    format_d true 3 (utc_offset / 3600)
    ++ format_d false 2 (utc_offset mod 3600 / 60) in
  [lit "tree " ++ tree_hash]
  ++ (if truthy parent_hash
      then [lit "parent " ++ default [] parent_hash] else [])
  ++ [lit "author " ++ author_name ++ lit " <" ++ author_email ++ lit "> "
      ++ str_of_Z timestamp ++ lit " " ++ tz_str;
      lit "committer " ++ author_name ++ lit " <" ++ author_email ++ lit "> "
      ++ str_of_Z timestamp ++ lit " " ++ tz_str].

(** What the lookup of [resolve_ref] finds for a name: nothing for [HEAD]
    when there is no [HEAD] file, else what the name leads to, or, when it
    leads nowhere, what it leads to below [refs/heads]. *)
Definition located (rs : gmap (list N) ref_node) (ref_name : str)
  : option ref_node :=
  if bool_decide (ref_name = lit "HEAD") && negb (ref_exists rs head_file)
  then None
  else
    match node_at rs ref_name with
    | Some n => Some n
    | None => node_at rs (heads_dir ref_name)
    end.

(** The resolution as the specification words it: the name is looked up
    directly and then below [refs/heads], whatever the name; a symbolic
    record is resolved recursively, a direct one gives its digest, and no
    record gives none. *)
Fixpoint resolve_as_specified (fuel : nat) (rs : gmap (list N) ref_node)
    (ref_name : str) : option (result (option str)) :=
  match fuel with
  | O => None
  | S fuel' =>
      let found :=
        match node_at rs ref_name with
        | Some n => Some n
        | None => node_at rs (heads_dir ref_name)
        end in
      match found with
      | None => Some (Ok None)
      | Some RefDir => Some (Raise IsADirectoryError)
      | Some (RefFile text) =>
          let content := strip text in
          if starts_with (lit "ref: ") content
          then resolve_as_specified fuel' rs (skipn 5 content)
          else Some (Ok (Some content))
      end
  end.

(** A text that is not empty and has no white space at either end. *)
Definition trimmed (s : str) : Prop :=
  (exists c m, s = c :: m /\ is_space c = false)
  /\ (exists d m, rev s = d :: m /\ is_space d = false).

(** The kinds of object that the program stores. *)
Definition kinds : list str := [lit "blob"; lit "tree"; lit "commit"].

(** The address of an object: the digest of its framed bytes. *)
Definition address_of (o : str * bytes) : str :=
  sha1_hexdigest (framed (fst o) (snd o)).

(** An object file as [store_object] writes it for one of these kinds: the
    deflated framed bytes, at the path of their digest. *)
Definition object_file (p : path) (f : zfile) : Prop :=
  exists kind content,
    kind ∈ kinds /\ f = zlib_compress (framed kind content)
    /\ p = _object_path (address_of (kind, content)).

(** A store all of whose files are such object files. *)
Definition sound (st : store) : Prop :=
  forall p f, files st !! p = Some f -> object_file p f.

(** The store gives back the object at its address. *)
Definition holds (st : store) (o : str * bytes) : Prop :=
  retrieve_object st (address_of o) = Ok o.

Section TreeOf.
Variable GIT_DIR : str.

(** A build without a store: the address of the tree, if there is one,
    and the objects put on the way, in the order of the puts. *)
Definition plan : Type := result (option str * list (str * bytes)).

(** The loop of [create_tree_from_directory] without a store: the entries
    and the objects put. *)
Fixpoint gather (items : list (str * (node * (str -> plan))))
    (entries : list entry) (objs : list (str * bytes))
  : result (list entry * list (str * bytes)) :=
  match items with
  | [] => Ok (entries, objs)
  | (name, (item, build)) :: items' =>
      if starts_with (lit ".") name then gather items' entries objs
      else
        match item with
        | File content _ =>
            let* blob_hash := _hash_content (lit "blob") content in
            gather items'
              (entries ++ [(_get_file_mode item, lit "blob", blob_hash, name)])
              (objs ++ [(lit "blob", content)])
        | Dir _ =>
            let* '(subtree_hash, sub) := build name in
            if truthy subtree_hash then
              gather items'
                (entries ++ [(lit "40000", lit "tree",
                              default [] subtree_hash, name)])
                (objs ++ sub)
            else gather items' entries (objs ++ sub)
        | Other => gather items' entries objs
        end
  end.

(** [create_tree_from_directory] without a store. *)
Fixpoint tree_of (directory : node) (name : str) {struct directory} : plan :=
  if decide (name = GIT_DIR) then Ok (None, [])
  else
    match directory with
    | Dir children =>
        let items :=
          map (fun c : str * node => (fst c, (snd c, tree_of (snd c))))
              children in
        let* '(entries, objs) := gather (sorted fst items) [] [] in
        match entries with
        | [] => Ok (None, objs)
        | _ :: _ =>
            let* tree_content := _build_tree_content entries in
            let* tree_hash := _hash_content (lit "tree") tree_content in
            Ok (Some tree_hash, objs ++ [(lit "tree", tree_content)])
        end
    | _ => Raise NotADirectoryError
    end.

(** What restoring one child of a directory does, in the order of the
    calls: a file is written and its mode set, a directory is restored by
    [restore]; hidden names, directories without an entry and what is
    neither file nor directory are left out. *)
Definition restored_entry (target_dir : list str)
    (i : str * (node * (list str -> list action))) : list action :=
  let '(name, (item, restore)) := i in
  let file_path := target_dir ++ [name] in
  if starts_with (lit ".") name then []
  else
    match item with
    | File content _ =>
        [WriteBytes file_path content;
         Chmod file_path
           (if decide (_get_file_mode item = lit "100755")
            then 493 else 420)]
    | Dir _ =>
        if bool_decide (name = GIT_DIR) || hollow GIT_DIR item
        then [] else restore file_path
    | Other => []
    end.

(** What restoring the tree of a directory does to the working directory,
    in the order of the calls: the directory is made, then its children
    follow by name. *)
Fixpoint restored (directory : node) (target_dir : list str)
    {struct directory} : list action :=
  match directory with
  | Dir children =>
      let items :=
        map (fun c : str * node => (fst c, (snd c, restored (snd c))))
            children in
      Mkdir target_dir
      :: flat_map (restored_entry target_dir) (sorted fst items)
  | _ => []
  end.
End TreeOf.

(** The directories and files below a path, the path itself included. *)
Fixpoint weight (directory : node) : nat :=
  match directory with
  | Dir children => S (list_sum (map (fun c => weight (snd c)) children))
  | _ => 1
  end.

(** No name below the directory holds a NUL character. *)
Fixpoint nul_free (directory : node) : Prop :=
  match directory with
  | Dir children =>
      Forall (fun c : str * node => (0 ∉ fst c)) children
      /\ foldr (fun c acc => nul_free (snd c) /\ acc) True children
  | _ => True
  end.

(** The line that [ls_tree] prints for an entry. *)
Definition ls_line (e : entry) : printed :=
  let '(mode, _, obj_hash, name) := e in
  Line (mode ++ lit " "
        ++ (if decide (mode = lit "40000") then lit "tree" else lit "blob")
        ++ lit " " ++ obj_hash ++ [9] ++ name).

(** An entry that reads back from a tree as it went in. *)
Definition proper_entry (e : entry) : Prop :=
  let '(mode, _, obj_hash, name) := e in
  proper_header mode name /\ address obj_hash.

(** The record of a tree that an entry makes. *)
Definition is_record (e : entry) (r : str * str * bytes) : Prop :=
  let '(mode, _, obj_hash, name) := e in
  let '(mode', name', h) := r in
  mode' = mode /\ name' = name /\ obj_hash = hex h.

(** The author and committer that [create_commit] writes. *)
Definition signature (timestamp : Z) : str :=
  author_name ++ lit " <" ++ author_email ++ lit "> "
  ++ str_of_Z timestamp ++ lit " " ++ lit "+0000".

(** The record that [parse_commit] gives for a commit that
    [create_commit] has made: the message stripped, the tree, the parent
    if there is one and it is not empty, author and committer. *)
Definition commit_record (timestamp : Z) (tree_hash : str)
    (parent_hash : option str) (message : str) : gmap (list N) str :=
  let d := <[lit "tree" := tree_hash]> {[ lit "message" := strip message ]} in
  let d :=
    if truthy parent_hash then <[lit "parent" := default [] parent_hash]> d
    else d in
  <[lit "committer" := signature timestamp]>
    (<[lit "author" := signature timestamp]> d).

(** The lines that [log] prints for such a commit. *)
Definition log_lines (c : str * Z * str * str) : list printed :=
  let '(commit_hash, timestamp, _, message) := c in
  [Line (lit "commit " ++ commit_hash);
   Line (lit "Author: " ++ signature timestamp);
   Line (lit "Date:   " ++ str_of_Z timestamp ++ lit " +0000");
   Line ([10] ++ lit "    " ++ replace 10 ([10] ++ lit "    ") (strip message));
   Line []].

(** The address of the first commit of a list. *)
Definition first_commit (cs : list (str * Z * str * str)) : option str :=
  match cs with
  | [] => None
  | (commit_hash, _, _, _) :: _ => Some commit_hash
  end.

(** A history in the store, the newest commit first: each commit, with
    its address, time, tree and message, parses as a commit made with the
    next one as its parent, the last one as a commit without parent. *)
Fixpoint history (st : store) (cs : list (str * Z * str * str)) : Prop :=
  match cs with
  | [] => True
  | (commit_hash, timestamp, tree_hash, message) :: older =>
      commit_hash <> []
      /\ parse_commit st commit_hash
         = Ok (commit_record timestamp tree_hash (first_commit older) message)
      /\ history st older
  end.

(** * Properties *)

Ltac Zify.zify_post_hook ::= Z.to_euclidean_division_equations.

(** A closed decidable proposition, settled by evaluation. *)
Ltac decide_vm :=
  match goal with
  | |- ?P => apply (bool_decide_unpack P); vm_compute; exact I
  end.

(** A closed equation, settled by evaluation of both sides. *)
Ltac by_vm :=
  match goal with
  | |- _ = ?r => vm_cast_no_check (@eq_refl _ r)
  end.

(** ** Known digests: the test vectors of SHA-1 and addresses that git
    gives *)

Example sha1_abc :
  sha1_hexdigest (ascii_bytes "abc")
  = lit "a9993e364706816aba3e25717850c26c9cd0d89d".
Proof. by_vm. Qed.

Example sha1_empty :
  sha1_hexdigest [] = lit "da39a3ee5e6b4b0d3255bfef95601890afd80709".
Proof. by_vm. Qed.

Example sha1_two_blocks :
  sha1_hexdigest
    (ascii_bytes "abcdbcdecdefdefgefghfghighijhijkijkljklmklmnlmnomnopnopq")
  = lit "84983e441c3bd26ebaae4aa1f95129e5e54670f1".
Proof. by_vm. Qed.

Example hello_blob :
  _hash_content (lit "blob") (ascii_bytes "hello" ++ [x0a])
  = Ok (lit "ce013625030ba8dba906f756967f9e9ca394464a").
Proof. by_vm. Qed.

Example empty_blob :
  _hash_content (lit "blob") []
  = Ok (lit "e69de29bb2d1d6434b8b29ae775ad8c2e48c5391").
Proof. by_vm. Qed.

Example empty_tree :
  _hash_content (lit "tree") []
  = Ok (lit "4b825dc642cb6eb9a060e54bf8d69288fbee4904").
Proof. by_vm. Qed.

Example hello_tree :
  bind (create_tree_from_directory (lit ".git")
          (Dir [(lit "hello.txt", File (ascii_bytes "hello" ++ [x0a]) 420)])
          (lit "work") empty_store)
       (fun r => Ok (fst r))
  = Ok (Some (lit "aaa96ced2d9a1c8e72c56b253a0e2fe78393feb7")).
Proof. by_vm. Qed.

Example hello_roundtrip :
  bind (store_object empty_store (lit "blob") (ascii_bytes "hi"))
       (fun r => retrieve_object (snd r) (fst r))
  = Ok (lit "blob", ascii_bytes "hi").
Proof. by_vm. Qed.

(** ** Bytes and UTF-8 *)

Lemma to_N_byte_of_N (n : N) : n < 256 -> Byte.to_N (byte_of_N n) = n.
Proof.
  intros Hn. unfold byte_of_N.
  destruct (Byte.of_N n) as [b|] eqn:E.
  - now apply Byte.to_of_N in E.
  - apply Byte.of_N_None_iff in E. lia.
Qed.

Lemma byte_of_N_to_N (b : byte) : byte_of_N (Byte.to_N b) = b.
Proof. unfold byte_of_N. now rewrite Byte.of_to_N. Qed.

Lemma bind_Ok {A B} (r : result A) (k : A -> result B) (b : B) :
  bind r k = Ok b -> exists a, r = Ok a /\ k a = Ok b.
Proof. destruct r as [a|e]; simpl; [eauto | discriminate]. Qed.

Lemma div64_facts (c : N) :
  c = 64 * (c / 64) + c mod 64 /\ c mod 64 < 64.
Proof.
  split; [apply N.div_mod'|apply N.mod_lt]; lia.
Qed.

Ltac split64 c :=
  let q := fresh "q" in
  let m := fresh "m" in
  destruct (div64_facts c) as [? ?];
  set (q := c / 64) in *; set (m := c mod 64) in *;
  clearbody q m.

(** Settle the test at the head of the goal by linear arithmetic. *)
Ltac head_test :=
  match goal with
  | |- (if ?a <? ?b then _ else _) = _ =>
      destruct (N.ltb_spec a b); [try (exfalso; lia)|try (exfalso; lia)]
  end.

Lemma continuation_byte (m : N) :
  m < 64 -> continuation (byte_of_N (0x80 + m)) = Some m.
Proof.
  intros Hm. unfold continuation. rewrite to_N_byte_of_N by lia.
  replace (0x80 <=? 0x80 + m) with true by (symmetry; apply N.leb_le; lia).
  replace (0x80 + m <? 0xC0) with true by (symmetry; apply N.ltb_lt; lia).
  simpl. f_equal. lia.
Qed.

Lemma decode_cons (b0 : byte) (r0 : bytes) :
  decode (b0 :: r0) =
      let n0 := Byte.to_N b0 in
      if n0 <? 0x80 then
        bind (decode r0) (fun s => Ok (n0 :: s))
      else if n0 <? 0xC0 then Raise UnicodeDecodeError
      else if n0 <? 0xE0 then
        match r0 with
        | b1 :: r1 =>
            match continuation b1 with
            | Some c1 =>
                let c := (n0 - 0xC0) * 64 + c1 in
                if c <? 0x80 then Raise UnicodeDecodeError
                else bind (decode r1) (fun s => Ok (c :: s))
            | None => Raise UnicodeDecodeError
            end
        | _ => Raise UnicodeDecodeError
        end
      else if n0 <? 0xF0 then
        match r0 with
        | b1 :: b2 :: r2 =>
            match continuation b1, continuation b2 with
            | Some c1, Some c2 =>
                let c := (n0 - 0xE0) * 4096 + c1 * 64 + c2 in
                if (c <? 0x800) || ((0xD800 <=? c) && (c <? 0xE000))
                then Raise UnicodeDecodeError
                else bind (decode r2) (fun s => Ok (c :: s))
            | _, _ => Raise UnicodeDecodeError
            end
        | _ => Raise UnicodeDecodeError
        end
      else if n0 <? 0xF8 then
        match r0 with
        | b1 :: b2 :: b3 :: r3 =>
            match continuation b1, continuation b2, continuation b3 with
            | Some c1, Some c2, Some c3 =>
                let c := (n0 - 0xF0) * 262144 + c1 * 4096 + c2 * 64 + c3 in
                if (c <? 0x10000) || (0x110000 <=? c)
                then Raise UnicodeDecodeError
                else bind (decode r3) (fun s => Ok (c :: s))
            | _, _, _ => Raise UnicodeDecodeError
            end
        | _ => Raise UnicodeDecodeError
        end
      else Raise UnicodeDecodeError.
Proof. reflexivity. Qed.

Lemma decode_encode_cp (c : N) (b r : bytes) :
  encode_cp c = Ok b ->
  decode (b ++ r) = bind (decode r) (fun s => Ok (c :: s)).
Proof.
  unfold encode_cp.
  destruct (N.ltb_spec c 0x80) as [H1|H1].
  { intros [= <-]. cbn [app]; rewrite decode_cons; cbv zeta. rewrite to_N_byte_of_N by lia.
    head_test. reflexivity. }
  destruct (N.ltb_spec c 0x800) as [H2|H2].
  { intros [= <-]. split64 c. cbn [app]; rewrite decode_cons; cbv zeta.
    rewrite to_N_byte_of_N by lia.
    rewrite continuation_byte by lia.
    repeat head_test.
    replace ((192 + q - 192) * 64 + m) with c by lia. reflexivity. }
  destruct (N.ltb_spec c 0x10000) as [H3|H3].
  { destruct (N.leb_spec 0xD800 c) as [H4|H4];
      [destruct (N.ltb_spec c 0xE000) as [H5|H5]|]; simpl; try discriminate.
    all: intros [= <-].
    all: assert (Hd : c / 4096 = c / 64 / 64) by (rewrite N.Div0.div_div; reflexivity).
    all: rewrite Hd; split64 c; split64 q; cbn [app]; rewrite decode_cons; cbv zeta.
    all: rewrite to_N_byte_of_N by lia.
    all: rewrite !continuation_byte by lia.
    all: repeat head_test.
    all: replace ((224 + q0 - 224) * 4096 + m0 * 64 + m) with c by lia.
    all: replace (c <? 0x800) with false by (symmetry; apply N.ltb_ge; lia).
    - replace (c <? 0xE000) with false by (symmetry; apply N.ltb_ge; lia).
      rewrite andb_false_r. reflexivity.
    - replace (0xD800 <=? c) with false by (symmetry; apply N.leb_gt; lia).
      reflexivity. }
  destruct (N.ltb_spec c 0x110000) as [H4|H4]; [|discriminate].
  intros [= <-].
  assert (Hd : c / 4096 = c / 64 / 64) by (rewrite N.Div0.div_div; reflexivity).
  assert (Hd' : c / 262144 = c / 64 / 64 / 64)
    by (rewrite !N.Div0.div_div; reflexivity).
  rewrite Hd', Hd. split64 c. split64 q. split64 q0. cbn [app]; rewrite decode_cons; cbv zeta.
  rewrite to_N_byte_of_N by lia.
  rewrite !continuation_byte by lia.
  repeat head_test.
  replace ((240 + q1 - 240) * 262144 + m1 * 4096 + m0 * 64 + m) with c by lia.
  replace (c <? 0x10000) with false by (symmetry; apply N.ltb_ge; lia).
  replace (0x110000 <=? c) with false by (symmetry; apply N.leb_gt; lia).
  reflexivity.
Qed.

(** bytes.decode() undoes str.encode(). *)
Lemma decode_encode (s : str) (b : bytes) : encode s = Ok b -> decode b = Ok s.
Proof.
  revert b. induction s as [|c s IH]; intros b; simpl.
  - now intros [= <-].
  - intros H. apply bind_Ok in H as (bc & Hc & H).
    apply bind_Ok in H as (bs & Hs & [= <-]).
    rewrite (decode_encode_cp _ _ _ Hc), (IH _ Hs). reflexivity.
Qed.

Lemma encode_app (a b : str) :
  encode (a ++ b)
  = bind (encode a) (fun x => bind (encode b) (fun y => Ok (x ++ y))).
Proof.
  induction a as [|c a IH]; simpl.
  - destruct (encode b); reflexivity.
  - destruct (encode_cp c) as [bc|]; simpl; [|reflexivity].
    rewrite IH. destruct (encode a) as [ba|]; simpl; [|reflexivity].
    destruct (encode b); simpl; [|reflexivity].
    now rewrite app_assoc.
Qed.

Lemma encode_cp_scalar (c : N) : scalar c -> exists b, encode_cp c = Ok b.
Proof.
  unfold scalar, encode_cp. intros Hc.
  destruct (N.ltb_spec c 0x80); [eauto|].
  destruct (N.ltb_spec c 0x800); [eauto|].
  destruct (N.ltb_spec c 0x10000).
  - destruct (N.leb_spec 0xD800 c); [|simpl; eauto].
    destruct (N.ltb_spec c 0xE000); [exfalso; lia|simpl; eauto].
  - destruct (N.ltb_spec c 0x110000); [eauto|exfalso; lia].
Qed.

Lemma encode_scalars (s : str) : Forall scalar s -> exists b, encode s = Ok b.
Proof.
  induction 1 as [|c s Hc _ [bs IH]]; simpl; [eauto|].
  destruct (encode_cp_scalar c Hc) as [bc ->]. rewrite IH. simpl. eauto.
Qed.

Lemma encode_ascii (s : str) :
  Forall (fun c => c < 128) s -> encode s = Ok (map byte_of_N s).
Proof.
  induction 1 as [|c s Hc _ IH]; simpl; [reflexivity|].
  unfold encode_cp. destruct (N.ltb_spec c 0x80); [|lia].
  simpl. now rewrite IH.
Qed.

Lemma encode_cp_no_nul (c : N) (b : bytes) :
  encode_cp c = Ok b -> c <> 0 -> x00 ∉ b.
Proof.
  unfold encode_cp. intros H Hc Hin.
  assert (Hz : forall n, n < 256 -> n <> 0 -> x00 <> byte_of_N n).
  { intros n Hn Hn0 E. apply (f_equal Byte.to_N) in E.
    rewrite to_N_byte_of_N in E by assumption. simpl in E. lia. }
  assert (Hd : c / 4096 = c / 64 / 64) by (rewrite N.Div0.div_div; reflexivity).
  assert (Hd' : c / 262144 = c / 64 / 64 / 64)
    by (rewrite !N.Div0.div_div; reflexivity).
  rewrite Hd', Hd in H. split64 c. split64 q. split64 q0.
  repeat match type of H with
         | context [?a <? ?b] => destruct (N.ltb_spec a b)
         | context [?a <=? ?b] => destruct (N.leb_spec a b)
         end; simpl in H; try discriminate; injection H as <-.
  all: repeat (apply elem_of_cons in Hin as [Hin|Hin];
               [revert Hin; apply Hz; lia|]).
  all: now apply elem_of_nil in Hin.
Qed.

Lemma encode_no_nul (s : str) (b : bytes) :
  encode s = Ok b -> 0 ∉ s -> x00 ∉ b.
Proof.
  revert b. induction s as [|c s IH]; intros b; simpl.
  - intros [= <-] _. apply not_elem_of_nil.
  - intros H Hs. apply bind_Ok in H as (bc & Hc & H).
    apply bind_Ok in H as (bs & Hbs & [= <-]).
    apply not_elem_of_cons in Hs as [Hc0 Hs].
    rewrite elem_of_app. intros [Hin|Hin].
    + revert Hin. eapply encode_cp_no_nul; eauto.
    + revert Hin. now apply IH.
Qed.

(** ** Splitting and stripping *)

Section SplittingFacts.
Context {A : Type} `{EqDecision A}.
Implicit Types (sep : A) (a b l : list A).

Lemma cut_app sep a b : sep ∉ a -> cut sep (a ++ sep :: b) = Some (a, b).
Proof.
  induction a as [|c a IH]; simpl; intros Ha.
  - now rewrite decide_True.
  - apply not_elem_of_cons in Ha as [Hc Ha].
    rewrite decide_False by congruence. now rewrite IH.
Qed.

Lemma cut_None sep a : sep ∉ a -> cut sep a = None.
Proof.
  induction a as [|c a IH]; simpl; intros Ha; [reflexivity|].
  apply not_elem_of_cons in Ha as [Hc Ha].
  rewrite decide_False by congruence. now rewrite IH.
Qed.

Lemma cut_Some sep l a b :
  cut sep l = Some (a, b) -> l = a ++ sep :: b /\ sep ∉ a.
Proof.
  revert a. induction l as [|c l IH]; simpl; intros a; [discriminate|].
  destruct (decide (c = sep)) as [->|Hc].
  - intros [= <- <-]. split; [reflexivity|apply not_elem_of_nil].
  - destruct (cut sep l) as [[a' b']|]; [|discriminate].
    intros [= <- <-]. destruct (IH a' eq_refl) as [-> Ha].
    split; [reflexivity|]. apply not_elem_of_cons. split; congruence.
Qed.

Lemma split1_app sep a b : sep ∉ a -> split1 sep (a ++ sep :: b) = [a; b].
Proof. intros Ha. unfold split1. now rewrite cut_app. Qed.

Lemma split_no_sep sep a : sep ∉ a -> split sep a = [a].
Proof.
  induction a as [|c a IH]; simpl; intros Ha; [reflexivity|].
  apply not_elem_of_cons in Ha as [Hc Ha].
  rewrite decide_False by congruence. now rewrite IH.
Qed.

Lemma split_app sep a b :
  sep ∉ a -> split sep (a ++ sep :: b) = a :: split sep b.
Proof.
  induction a as [|c a IH]; simpl; intros Ha.
  - now rewrite decide_True.
  - apply not_elem_of_cons in Ha as [Hc Ha].
    rewrite decide_False by congruence. now rewrite IH.
Qed.

Lemma split_not_nil sep l : split sep l <> [].
Proof.
  destruct l as [|c l]; simpl; [discriminate|].
  destruct (decide (c = sep)); [discriminate|].
  destruct (split sep l); discriminate.
Qed.

Lemma split_one sep l b : split sep l = [b] -> l = b /\ sep ∉ b.
Proof.
  revert b. induction l as [|c l IH]; intros b; simpl.
  - intros [= <-]. split; [reflexivity|apply not_elem_of_nil].
  - destruct (decide (c = sep)) as [->|Hc].
    + intros [= <- Hl]. now apply split_not_nil in Hl.
    + destruct (split sep l) as [|p ps] eqn:E; [now apply split_not_nil in E|].
      intros [= <- ->]. destruct (IH p eq_refl) as [-> Hp].
      split; [reflexivity|]. apply not_elem_of_cons. split; congruence.
Qed.

Lemma split_two sep l a b :
  split sep l = [a; b] -> l = a ++ sep :: b /\ (sep ∉ a) /\ (sep ∉ b).
Proof.
  revert a. induction l as [|c l IH]; intros a; simpl; [discriminate|].
  destruct (decide (c = sep)) as [->|Hc].
  - intros [= <- Hl]. apply split_one in Hl as [-> Hb].
    repeat split; [apply not_elem_of_nil|assumption].
  - destruct (split sep l) as [|p ps] eqn:E; [now apply split_not_nil in E|].
    intros [= <- ->]. destruct (IH p eq_refl) as (-> & Hp & Hb).
    repeat split; [|assumption].
    apply not_elem_of_cons. split; congruence.
Qed.

Lemma starts_with_app p l : starts_with p (p ++ l) = true.
Proof.
  induction p as [|x p IH]; simpl; [reflexivity|]. now rewrite decide_True.
Qed.

End SplittingFacts.

Lemma lstrip_id (s : str) : no_space s -> lstrip s = s.
Proof. destruct 1 as [|c s Hc _]; simpl; [reflexivity|now rewrite Hc]. Qed.

(** strip() leaves a text alone that has no white space at either end. *)
Lemma strip_id (s : str) : no_space s -> strip s = s.
Proof.
  intros Hs. unfold strip, rstrip. rewrite (lstrip_id s Hs).
  rewrite lstrip_id; [apply rev_involutive|].
  unfold no_space. now apply Forall_rev.
Qed.

(** ** Decimal numbers: int(str(n)) = n *)

Lemma digit_not_space (c : N) : is_digit c = true -> is_space c = false.
Proof.
  unfold is_digit, is_space. intros H.
  apply andb_true_iff in H as [H1 H2].
  apply N.leb_le in H1. apply N.leb_le in H2.
  repeat match goal with
         | |- context [?a <=? ?b] => destruct (N.leb_spec a b); try lia
         | |- context [?a =? ?b] => destruct (N.eqb_spec a b); try lia
         end; reflexivity.
Qed.

Lemma digits_acc_digits (fuel : nat) (n : N) (acc : str) :
  Forall (fun c => is_digit c = true) acc ->
  Forall (fun c => is_digit c = true) (digits_acc fuel n acc).
Proof.
  revert n acc. induction fuel as [|fuel IH]; intros n acc Hacc; simpl.
  - assumption.
  - assert (Hd : is_digit (48 + n mod 10) = true).
    { unfold is_digit. assert (n mod 10 < 10) by (apply N.mod_lt; lia).
      apply andb_true_iff. split; apply N.leb_le; lia. }
    destruct (n <? 10); [|apply IH]; now constructor.
Qed.

Lemma digits_acc_value (fuel : nat) (n : N) (acc : str) :
  n < 2 ^ N.of_nat fuel ->
  fold_left digit_step (digits_acc fuel n acc) 0 = fold_left digit_step acc n.
Proof.
  revert n acc. induction fuel as [|fuel IH]; intros n acc Hn.
  - simpl in *. assert (n = 0) as -> by lia. reflexivity.
  - cbn [digits_acc].
    assert (Hm : n mod 10 < 10) by (apply N.mod_lt; lia).
    assert (Hdm : n = 10 * (n / 10) + n mod 10) by (apply N.div_mod'; lia).
    destruct (N.ltb_spec n 10) as [Hlt|Hge].
    + rewrite N.mod_small by assumption. simpl. unfold digit_step at 2.
      f_equal. lia.
    + rewrite IH.
      * simpl. unfold digit_step at 2. f_equal. lia.
      * rewrite Nat2N.inj_succ, N.pow_succ_r' in Hn. lia.
Qed.

Lemma digits_acc_nonempty (fuel : nat) (n : N) (acc : str) :
  digits_acc (S fuel) n acc <> [].
Proof.
  revert n acc. induction fuel as [|fuel IH]; intros n acc.
  - simpl. destruct (n <? 10); discriminate.
  - change (digits_acc (S (S fuel)) n acc)
      with (let acc' := (48 + n mod 10) :: acc in
            if n <? 10 then acc' else digits_acc (S fuel) (n / 10) acc').
    cbv zeta. destruct (n <? 10); [discriminate|apply IH].
Qed.

Lemma str_of_N_digits (n : N) :
  Forall (fun c => is_digit c = true) (str_of_N n).
Proof. apply digits_acc_digits. constructor. Qed.

Lemma str_of_N_nonempty (n : N) : str_of_N n <> [].
Proof. apply digits_acc_nonempty. Qed.

Lemma str_of_N_value (n : N) : fold_left digit_step (str_of_N n) 0 = n.
Proof.
  unfold str_of_N. rewrite digits_acc_value; [reflexivity|].
  rewrite Nat2N.inj_succ, N2Nat.id.
  destruct (N.eq_dec n 0) as [->|Hn]; [reflexivity|].
  apply N.log2_spec. lia.
Qed.

Lemma int_digits_digits (d : str) (acc : N) (after_digit : bool) :
  Forall (fun c => is_digit c = true) d ->
  d <> [] \/ after_digit = true ->
  int_digits d acc after_digit = Some (fold_left digit_step d acc).
Proof.
  intros Hd. revert acc after_digit.
  induction Hd as [|c d Hc _ IH]; intros acc after_digit Hne; simpl.
  - destruct Hne as [Hne| ->]; [congruence|reflexivity].
  - rewrite Hc. apply IH. now right.
Qed.

Lemma digit_not_int_space (c : N) :
  is_digit c = true -> is_int_space c = false.
Proof.
  unfold is_digit, is_int_space. intros H.
  apply andb_true_iff in H as [H1 H2].
  apply N.leb_le in H1. apply N.leb_le in H2.
  destruct (N.ltb_spec c 128); [|lia].
  repeat match goal with
         | |- context [?a <=? ?b] => destruct (N.leb_spec a b); try lia
         | |- context [?a =? ?b] => destruct (N.eqb_spec a b); try lia
         end; reflexivity.
Qed.

(** int() leaves digits alone when it looks for white space around
    them. *)
Lemma int_strip_digits (s : str) :
  Forall (fun c => is_digit c = true) s -> int_strip s = s.
Proof.
  intros Hs.
  assert (Hl : forall t, Forall (fun c => is_digit c = true) t ->
                         int_lstrip t = t).
  { intros t Ht. destruct Ht as [|c t Hc _]; [reflexivity|].
    cbn [int_lstrip]. now rewrite (digit_not_int_space c Hc). }
  unfold int_strip. rewrite (Hl s Hs), Hl by now apply Forall_rev.
  apply rev_involutive.
Qed.

(** int() reads back what str() prints. *)
Lemma py_int_str_of_N (n : N) : py_int (str_of_N n) = Ok (Z.of_N n).
Proof.
  unfold py_int.
  pose proof (str_of_N_digits n) as Hd.
  pose proof (str_of_N_nonempty n) as Hne.
  pose proof (str_of_N_value n) as Hv.
  rewrite int_strip_digits by exact Hd.
  destruct (str_of_N n) as [|c d] eqn:E; [congruence|].
  assert (Hc : is_digit c = true) by (now inversion Hd).
  assert (c <> 45 /\ c <> 43) as [H45 H43].
  { unfold is_digit in Hc. apply andb_true_iff in Hc as [H1 H2].
    apply N.leb_le in H1. lia. }
  assert (Hint : int_digits (c :: d) 0 false = Some n).
  { rewrite int_digits_digits; [now rewrite Hv|assumption|now left]. }
  destruct c as [|p]; [now rewrite Hint|].
  repeat (destruct p as [p|p|]; try congruence; try now rewrite Hint).
Qed.

Lemma str_of_N_no (n c : N) : is_digit c = false -> c ∉ str_of_N n.
Proof.
  intros Hc Hin. pose proof (str_of_N_digits n) as Hd.
  rewrite Forall_forall in Hd. apply Hd in Hin. congruence.
Qed.

Lemma str_of_N_ascii (n : N) : Forall (fun c => c < 128) (str_of_N n).
Proof.
  eapply Forall_impl; [apply str_of_N_digits|].
  intros c Hc. unfold is_digit in Hc. apply andb_true_iff in Hc as [_ H2].
  apply N.leb_le in H2. lia.
Qed.

(** ** Addresses *)

Lemma length_hex (b : bytes) : length (hex b) = (2 * length b)%nat.
Proof. induction b as [|x b IH]; simpl; [reflexivity|]. rewrite IH. lia. Qed.

Lemma hex_digit_lower (n : N) : n < 16 -> lower_hex (hex_digit n) = true.
Proof.
  intros Hn. unfold hex_digit, lower_hex.
  destruct (N.ltb_spec n 10).
  - apply orb_true_iff. left. apply andb_true_iff. split; apply N.leb_le; lia.
  - apply orb_true_iff. right. apply andb_true_iff. split; apply N.leb_le; lia.
Qed.

Lemma hex_lower (b : bytes) : Forall (fun c => lower_hex c = true) (hex b).
Proof.
  induction b as [|x b IH]; simpl; [constructor|].
  pose proof (Byte.to_N_bounded x).
  constructor; [apply hex_digit_lower; lia|].
  constructor; [apply hex_digit_lower; lia|exact IH].
Qed.

Lemma length_digest (msg : bytes) : length (SHA1.digest msg) = 20%nat.
Proof.
  unfold SHA1.digest, SHA1.word_bytes, SHA1.be_bytes.
  rewrite !length_app, !length_map. reflexivity.
Qed.

(** hexdigest() is an address: 40 lower-case hexadecimal digits. *)
Lemma sha1_hexdigest_address (msg : bytes) : address (sha1_hexdigest msg).
Proof.
  split; [|apply hex_lower].
  unfold sha1_hexdigest. now rewrite length_hex, length_digest.
Qed.

(** ** The object store *)

Lemma encode_header (obj_type : str) (content kb : bytes) :
  encode obj_type = Ok kb ->
  encode (obj_type ++ lit " " ++ len content ++ NUL)
  = Ok (kb ++ [x20] ++ map byte_of_N (len content) ++ [x00]).
Proof.
  intros Hk. rewrite encode_app, Hk. cbn [bind].
  rewrite encode_app. change (encode (lit " ")) with (Ok [x20]). cbn [bind].
  rewrite encode_app, (encode_ascii (len content)) by apply str_of_N_ascii.
  reflexivity.
Qed.

Lemma store_object_eq (st : store) (obj_type : str) (content hb : bytes) :
  encode (obj_type ++ lit " " ++ len content ++ NUL) = Ok hb ->
  store_object st obj_type content =
  let a := sha1_hexdigest (hb ++ content) in
  Ok (a, if exists_ st (_object_path a) then st
         else write_bytes st (_object_path a) (Deflated (hb ++ content))).
Proof.
  intros Hh. unfold store_object, _hash_content. rewrite Hh. cbn [bind].
  destruct (exists_ st _); reflexivity.
Qed.

Lemma exists_true (st : store) (p : path) :
  exists_ st p = true <-> is_Some (files st !! p).
Proof. unfold exists_. apply bool_decide_eq_true. Qed.

Lemma exists_false (st : store) (p : path) :
  exists_ st p = false <-> files st !! p = None.
Proof.
  unfold exists_. rewrite bool_decide_eq_false. split.
  - intros H. destruct (files st !! p) eqn:E; [|reflexivity].
    exfalso. apply H. eauto.
  - intros -> [? ?]. discriminate.
Qed.

(** What [retrieve_object] makes of a file that holds a header of two
    fields, a NUL byte and a payload. *)
Lemma retrieve_object_frame (st : store) (a kind size_str : str)
    (hb content : bytes) :
  files st !! _object_path a = Some (Deflated (hb ++ x00 :: content)) ->
  encode (kind ++ 32 :: size_str) = Ok hb ->
  32 ∉ kind -> 32 ∉ size_str -> 0 ∉ kind -> 0 ∉ size_str ->
  retrieve_object st a =
  bind (py_int size_str)
       (fun size => if decide (Z.of_nat (length content) = size)
                    then Ok (kind, content)
                    else Raise (CorruptedError a)).
Proof.
  intros Hf He Hk32 Hs32 Hk0 Hs0. unfold retrieve_object. rewrite Hf.
  cbn [zlib_decompress bind].
  assert (Hnul : x00 ∉ hb).
  { eapply encode_no_nul; [exact He|].
    rewrite elem_of_app, elem_of_cons. intros [?|[?|?]]; [tauto|lia|tauto]. }
  rewrite split1_app by assumption. cbn [unpack2 bind].
  rewrite (decode_encode _ _ He). cbn [bind].
  rewrite split_app, split_no_sep by assumption. reflexivity.
Qed.

Lemma unpack2_Ok {B : Type} (parts : list B) (a b : B) :
  unpack2 parts = Ok (a, b) -> parts = [a; b].
Proof.
  destruct parts as [|x [|y [|z parts]]]; simpl; try discriminate.
  now intros [= <- <-].
Qed.

Lemma store_object_cases (st : store) (obj_type : str) (content : bytes)
    (a : str) (st1 : store) :
  store_object st obj_type content = Ok (a, st1) ->
  (is_Some (files st !! _object_path a) /\ st1 = st)
  \/ (files st !! _object_path a = None
      /\ exists f, st1 = write_bytes st (_object_path a) f).
Proof.
  intros H. unfold store_object in H.
  apply bind_Ok in H as (h & Hh & H).
  destruct (exists_ st (_object_path h)) eqn:E; simpl in H.
  - injection H as <- <-. left. split; [now apply exists_true|reflexivity].
  - apply bind_Ok in H as (hb & _ & [= <- <-]). right.
    split; [now apply exists_false|eauto].
Qed.

Lemma puts_write_log (ops : list (str * bytes)) (st : store) :
  exists new,
    write_log (puts ops st) = new ++ write_log st
    /\ NoDup new
    /\ forall p, p ∈ new -> files st !! p = None.
Proof.
  revert st. induction ops as [|[kind content] ops IH]; intros st; simpl.
  - exists []. repeat split; [constructor|]. intros p Hp.
    now apply elem_of_nil in Hp.
  - destruct (store_object st kind content) as [[a st1]|e] eqn:E; [|apply IH].
    apply store_object_cases in E as [[_ ->]|[Hfree [f ->]]]; [apply IH|].
    destruct (IH (write_bytes st (_object_path a) f)) as (new & Hlog & Hnd & Hnew).
    simpl in Hlog, Hnew.
    exists (new ++ [_object_path a]). split; [|split].
    + rewrite Hlog, <- app_assoc. reflexivity.
    + apply NoDup_app. split; [assumption|]. split; [|apply NoDup_singleton].
      intros p Hp Hp'. apply list_elem_of_singleton in Hp' as ->.
      apply Hnew in Hp. now rewrite lookup_insert_eq in Hp.
    + intros p Hp. apply elem_of_app in Hp as [Hp|Hp].
      * apply Hnew in Hp.
        destruct (decide (_object_path a = p)) as [<-|Hne].
        -- now rewrite lookup_insert_eq in Hp.
        -- now rewrite lookup_insert_ne in Hp.
      * now apply list_elem_of_singleton in Hp as ->.
Qed.

(** ** Main theorems on the object store *)

(** C1. For each of the kinds blob, tree and commit and for every content,
    [store_object] returns, whatever the store holds, the SHA-1 digest of
    the framed bytes ["<kind> <byte-length>\0" + content], written as 40
    lower-case hexadecimal digits; so two calls with the same kind and
    content return the same address from any two stores. *)
Theorem store_object_address (kind : str) (content : bytes) :
  In kind [lit "blob"; lit "tree"; lit "commit"] ->
  let a := sha1_hexdigest (framed kind content) in
  address a
  /\ forall st : store, exists st', store_object st kind content = Ok (a, st').
Proof.
  intros Hk a. split; [apply sha1_hexdigest_address|]. intros st.
  assert (Hascii : Forall (fun c => c < 128) kind).
  { simpl in Hk. destruct Hk as [<-|[<-|[<-|[]]]];
      repeat constructor; reflexivity. }
  pose proof (encode_header kind content _ (encode_ascii kind Hascii)) as Hh.
  rewrite (store_object_eq _ _ _ _ Hh). cbv zeta.
  assert (Hf : (map byte_of_N kind ++ [x20] ++ map byte_of_N (len content)
                ++ [x00]) ++ content = framed kind content).
  { unfold framed, len. now rewrite !map_app. }
  rewrite Hf. fold a. eauto.
Qed.

Lemma store_object_address_witness :
  address (sha1_hexdigest (framed (lit "blob") (ascii_bytes "hello")))
  /\ forall st : store, exists st',
      store_object st (lit "blob") (ascii_bytes "hello")
      = Ok (sha1_hexdigest (framed (lit "blob") (ascii_bytes "hello")), st').
Proof.
  apply (store_object_address (lit "blob") (ascii_bytes "hello")).
  simpl. left. reflexivity.
Defined.

(** C3. [store_object] returns the digest whether or not the object is
    there already; a second put of the same kind and content returns the
    same address and changes nothing, the write log included; an object
    present at its address is never rewritten, nor any other file; and over
    any run of puts no path is written twice, nor one that held a file
    before the run. *)
Theorem store_object_write_once (st : store) (obj_type : str)
    (content : bytes) (a : str) (st1 : store) :
  store_object st obj_type content = Ok (a, st1) ->
  store_object st1 obj_type content = Ok (a, st1)
  /\ (is_Some (files st !! _object_path a) -> st1 = st)
  /\ (forall p f, files st !! p = Some f -> files st1 !! p = Some f)
  /\ (forall ops : list (str * bytes), exists new,
        write_log (puts ops st) = new ++ write_log st
        /\ NoDup new
        /\ forall p, p ∈ new -> files st !! p = None).
Proof.
  intros H. pose proof (store_object_cases _ _ _ _ _ H) as Hc.
  assert (Hpresent : is_Some (files st1 !! _object_path a)).
  { destruct Hc as [[Hs ->]|[_ [f ->]]]; [assumption|].
    simpl. rewrite lookup_insert_eq. eauto. }
  split; [|split; [|split]].
  - unfold store_object in *.
    apply bind_Ok in H as (h & Hh & H). rewrite Hh. cbn [bind].
    assert (h = a) as ->.
    { destruct (negb (exists_ st (_object_path h))); simpl in H.
      - now apply bind_Ok in H as (? & _ & [= <- _]).
      - now injection H as <- _. }
    apply exists_true in Hpresent. now rewrite Hpresent.
  - intros [f Hf]. destruct Hc as [[_ ->]|[Hnone _]]; [reflexivity|congruence].
  - intros p f Hf. destruct Hc as [[_ ->]|[Hnone [f' ->]]]; [assumption|].
    simpl. rewrite lookup_insert_ne; [assumption|].
    intros <-. congruence.
  - intros ops. apply puts_write_log.
Qed.

Lemma store_object_write_once_witness :
  let a := lit "32f95c0d1244a78b2be1bab8de17906fabb2c4a8" in
  let st1 :=
    write_bytes empty_store (_object_path a)
      (zlib_compress (framed (lit "blob") (ascii_bytes "hi"))) in
  store_object empty_store (lit "blob") (ascii_bytes "hi") = Ok (a, st1)
  /\ store_object st1 (lit "blob") (ascii_bytes "hi") = Ok (a, st1).
Proof.
  intros a st1.
  assert (E : store_object empty_store (lit "blob") (ascii_bytes "hi")
              = Ok (a, st1)) by by_vm.
  split; [exact E|].
  exact (proj1 (store_object_write_once _ _ _ _ _ E)).
Defined.

(** C4. [retrieve_object] raises FileNotFoundError for an address, a
    digest of 40 hexadecimal digits, at which no file is stored, and the
    size-mismatch ValueError for a stored object whose header declares a
    length other than that of the payload; when it returns at all, it
    returns the whole payload after the first NUL byte, and the header
    declares exactly that payload's length. *)
Theorem retrieve_object_failures (st : store) (a : str) :
  (address a -> files st !! _object_path a = None ->
   retrieve_object st a = Raise (FileNotFoundError a))
  /\ (forall (kind size_str : str) (hb payload : bytes) (size : Z),
        files st !! _object_path a
        = Some (zlib_compress (hb ++ x00 :: payload)) ->
        x00 ∉ hb -> decode hb = Ok (kind ++ 32 :: size_str) ->
        32 ∉ kind -> 32 ∉ size_str ->
        py_int size_str = Ok size -> size <> Z.of_nat (length payload) ->
        retrieve_object st a = Raise (CorruptedError a))
  /\ (forall (kind : str) (content : bytes),
        retrieve_object st a = Ok (kind, content) ->
        exists (hb : bytes) (size_str : str),
          files st !! _object_path a
          = Some (zlib_compress (hb ++ x00 :: content))
          /\ (x00 ∉ hb)
          /\ decode hb = Ok (kind ++ 32 :: size_str)
          /\ py_int size_str = Ok (Z.of_nat (length content))).
Proof.
  split; [|split].
  - intros _ H. unfold retrieve_object. now rewrite H.
  - intros kind size_str hb payload size Hf Hnul Hd Hk Hs Hint Hne.
    unfold retrieve_object. rewrite Hf. cbn [zlib_compress zlib_decompress bind].
    rewrite split1_app by assumption. cbn [unpack2 bind]. rewrite Hd.
    cbn [bind]. rewrite split_app, split_no_sep by assumption.
    cbn [unpack2 bind]. rewrite Hint. cbn [bind].
    rewrite decide_False by congruence. reflexivity.
  - intros kind content H. unfold retrieve_object in H.
    destruct (files st !! _object_path a) as [[raw|]|] eqn:Hf;
      try discriminate. cbn [zlib_decompress bind] in H.
    apply bind_Ok in H as ([header payload] & Hsplit & H).
    apply unpack2_Ok in Hsplit. unfold split1 in Hsplit.
    destruct (cut x00 raw) as [[h p]|] eqn:Hcut; [|discriminate].
    injection Hsplit as -> ->. apply cut_Some in Hcut as [-> Hnul].
    apply bind_Ok in H as (text & Hd & H).
    apply bind_Ok in H as ([obj_type size_str] & Hparts & H).
    apply unpack2_Ok in Hparts. apply split_two in Hparts as (-> & _ & _).
    apply bind_Ok in H as (size & Hint & H).
    destruct (decide (Z.of_nat (length payload) = size)) as [<-|];
      [|discriminate].
    injection H as <- <-. exists header, size_str. auto.
Qed.

Lemma retrieve_object_failures_witness :
  let a := lit "32f95c0d1244a78b2be1bab8de17906fabb2c4a8" in
  let b := lit "e69de29bb2d1d6434b8b29ae775ad8c2e48c5391" in
  let st :=
    Store {[ _object_path a :=
               zlib_compress (ascii_bytes "blob 5" ++ x00 :: ascii_bytes "hi") ]}
          [] in
  retrieve_object st b = Raise (FileNotFoundError b)
  /\ retrieve_object st a = Raise (CorruptedError a).
Proof.
  intros a b st. split.
  - apply (proj1 (retrieve_object_failures st b)); [decide_vm|reflexivity].
  - apply (proj1 (proj2 (retrieve_object_failures st a))
             (lit "blob") (lit "5") (ascii_bytes "blob 5") (ascii_bytes "hi")
             5%Z).
    + reflexivity.
    + decide_vm.
    + reflexivity.
    + decide_vm.
    + decide_vm.
    + reflexivity.
    + discriminate.
Defined.

Lemma encode_fields (kind : str) (n : N) (kb : bytes) :
  encode kind = Ok kb ->
  encode (kind ++ 32 :: str_of_N n)
  = Ok (kb ++ x20 :: map byte_of_N (str_of_N n)).
Proof.
  intros Hk. rewrite encode_app, Hk. cbn [bind].
  change (32 :: str_of_N n) with ([32] ++ str_of_N n).
  rewrite encode_app. change (encode [32]) with (Ok [x20]). cbn [bind].
  now rewrite (encode_ascii (str_of_N n)) by apply str_of_N_ascii.
Qed.

(** [retrieve_object] on a file that [store_object] has written. *)
Lemma retrieve_object_written (st : store) (a kind : str)
    (kb content : bytes) :
  encode kind = Ok kb -> 32 ∉ kind -> 0 ∉ kind ->
  files st !! _object_path a
  = Some (Deflated ((kb ++ [x20] ++ map byte_of_N (len content) ++ [x00])
                    ++ content)) ->
  retrieve_object st a = Ok (kind, content).
Proof.
  intros Hk H32 H0 Hf.
  rewrite (retrieve_object_frame st a kind (len content)
             (kb ++ x20 :: map byte_of_N (len content)) content).
  - unfold len. rewrite py_int_str_of_N. cbn [bind].
    rewrite decide_True by lia. reflexivity.
  - rewrite Hf. f_equal. f_equal. rewrite <- !app_assoc. reflexivity.
  - now apply encode_fields.
  - assumption.
  - now apply str_of_N_no.
  - assumption.
  - now apply str_of_N_no.
Qed.

(** A put raises only when the kind has no encoding. *)
Lemma store_object_Ok (st : store) (kind : str) (content : bytes) :
  Forall scalar kind ->
  exists (a : str) (st' : store), store_object st kind content = Ok (a, st').
Proof.
  intros Hsc. destruct (encode_scalars kind Hsc) as [kb Hk].
  rewrite (store_object_eq _ _ _ _ (encode_header kind content kb Hk)).
  cbv zeta. eauto.
Qed.

(** What a put leaves at its address, when the address was free. *)
Lemma retrieve_stored (st st' : store) (kind a : str) (content : bytes) :
  Forall scalar kind -> 32 ∉ kind -> 0 ∉ kind ->
  store_object st kind content = Ok (a, st') ->
  files st !! _object_path a = None ->
  retrieve_object st' a = Ok (kind, content).
Proof.
  intros Hsc H32 H0 Hs Hfree.
  destruct (encode_scalars kind Hsc) as [kb Hk].
  rewrite (store_object_eq _ _ _ _ (encode_header kind content kb Hk)) in Hs.
  cbv zeta in Hs. injection Hs as <- <-.
  rewrite (proj2 (exists_false _ _) Hfree).
  eapply retrieve_object_written; eauto.
  simpl. apply lookup_insert_eq.
Qed.

(** C2, as the code has it. For a kind that UTF-8 can encode and that holds
    no space and no NUL, [store_object] returns an address, and
    [retrieve_object] at that address then returns exactly the kind and the
    content, provided the address was free before the put or already held
    that object. A file that is already at the address is not rewritten
    by the put: the store is then left exactly as it was. *)
Theorem retrieve_after_store (st : store) (kind : str) (content : bytes) :
  Forall scalar kind -> 32 ∉ kind -> 0 ∉ kind ->
  exists (a : str) (st' : store),
    store_object st kind content = Ok (a, st')
    /\ (files st !! _object_path a = None
        \/ retrieve_object st a = Ok (kind, content) ->
        retrieve_object st' a = Ok (kind, content))
    /\ (is_Some (files st !! _object_path a) -> st' = st).
Proof.
  intros Hsc H32 H0.
  destruct (store_object_Ok st kind content Hsc) as (a & st' & Hs).
  exists a, st'. split; [exact Hs|]. split.
  - intros [Hfree|Hheld].
    + now apply (retrieve_stored st st' kind a content).
    + destruct (store_object_cases _ _ _ _ _ Hs) as [[_ ->]|[Hfree _]].
      * exact Hheld.
      * now apply (retrieve_stored st st' kind a content).
  - intros [f Hf].
    destruct (store_object_cases _ _ _ _ _ Hs) as [[_ ->]|[Hfree _]];
      [reflexivity|congruence].
Qed.

Lemma retrieve_after_store_witness :
  exists (a : str) (st' : store),
    store_object empty_store (lit "blob") (ascii_bytes "hi") = Ok (a, st')
    /\ retrieve_object st' a = Ok (lit "blob", ascii_bytes "hi").
Proof.
  destruct (retrieve_after_store empty_store (lit "blob") (ascii_bytes "hi"))
    as (a & st' & Hs & Hr & _).
  - repeat constructor; left; reflexivity.
  - decide_vm.
  - decide_vm.
  - exists a, st'. split; [exact Hs|]. apply Hr. left. apply lookup_empty.
Defined.

(** C2 as stated fails: a file that is already at the address of the blob
    "hi" is not rewritten, so that get after put raises zlib.error when
    that file is no zlib stream; and a kind made of a lone surrogate, which
    holds neither a space nor a NUL, makes the put itself raise. *)
Lemma retrieve_after_store_counterexample :
  let a := lit "32f95c0d1244a78b2be1bab8de17906fabb2c4a8" in
  let st := Store {[ _object_path a := Garbled ]} [] in
  ((32 ∉ lit "blob") /\ (0 ∉ lit "blob")
   /\ store_object st (lit "blob") (ascii_bytes "hi") = Ok (a, st)
   /\ retrieve_object st a = Raise ZlibError)
  /\ ((32 ∉ [0xD800]) /\ (0 ∉ [0xD800])
      /\ store_object empty_store [0xD800] (ascii_bytes "hi")
         = Raise UnicodeEncodeError).
Proof.
  intros a st. repeat split; try decide_vm; by_vm.
Qed.

(** ** Sorting by name *)

Lemma str_lt_irrefl (a : str) : str_lt a a = false.
Proof.
  induction a as [|x a IH]; simpl; [reflexivity|].
  now rewrite N.ltb_irrefl.
Qed.

Lemma str_lt_trans (a b c : str) :
  str_lt a b = true -> str_lt b c = true -> str_lt a c = true.
Proof.
  revert b c. induction a as [|x a IH]; intros [|y b] [|z c]; simpl;
    try congruence.
  destruct (N.ltb_spec x y), (N.ltb_spec y x), (N.ltb_spec y z),
    (N.ltb_spec z y), (N.ltb_spec x z), (N.ltb_spec z x);
    try congruence; try lia.
  apply IH.
Qed.

Lemma str_lt_total (a b : str) :
  str_lt a b = false -> str_lt b a = false -> a = b.
Proof.
  revert b. induction a as [|x a IH]; intros [|y b]; simpl;
    try congruence.
  destruct (N.ltb_spec x y), (N.ltb_spec y x); try congruence; try lia.
  intros Hab Hba. f_equal; [lia|now apply IH].
Qed.

Lemma str_lt_asym (a b : str) : str_lt a b = true -> str_lt b a = false.
Proof.
  intros Hab. destruct (str_lt b a) eqn:Hba; [|reflexivity].
  pose proof (str_lt_trans _ _ _ Hab Hba) as H.
  now rewrite str_lt_irrefl in H.
Qed.

Lemma str_le_lt_trans (a b c : str) :
  str_lt b a = false -> str_lt b c = true -> str_lt a c = true.
Proof.
  intros Hba Hbc. destruct (str_lt a b) eqn:Hab.
  - eapply str_lt_trans; eauto.
  - now rewrite (str_lt_total _ _ Hab Hba).
Qed.

Section SortedFacts.
Context {A : Type} (key : A -> str).

Lemma insert_sorted_comm (x y : A) (l : list A) :
  key x <> key y ->
  insert_sorted key x (insert_sorted key y l)
  = insert_sorted key y (insert_sorted key x l).
Proof.
  intros Hne.
  assert (Hxy : str_lt (key x) (key y) = negb (str_lt (key y) (key x))).
  { destruct (str_lt (key x) (key y)) eqn:E1.
    - now rewrite (str_lt_asym _ _ E1).
    - destruct (str_lt (key y) (key x)) eqn:E2; [reflexivity|].
      exfalso. apply Hne. now apply str_lt_total. }
  induction l as [|z l IH]; simpl.
  - rewrite Hxy. now destruct (str_lt (key y) (key x)).
  - destruct (str_lt (key z) (key y)) eqn:Ezy,
      (str_lt (key z) (key x)) eqn:Ezx; simpl; rewrite ?Ezy, ?Ezx.
    + now rewrite IH.
    + now rewrite (str_le_lt_trans _ _ _ Ezx Ezy).
    + now rewrite (str_le_lt_trans _ _ _ Ezy Ezx).
    + rewrite Hxy. now destruct (str_lt (key y) (key x)).
Qed.

(** Sorting forgets the order in which items of distinct keys come. *)
Lemma sorted_Permutation (l l' : list A) :
  Permutation l l' -> NoDup (map key l) -> sorted key l = sorted key l'.
Proof.
  induction 1 as [|x l l' Hp IH|x y l|l l' l'' Hp1 IH1 Hp2 IH2];
    intros Hnd; simpl.
  - reflexivity.
  - simpl in Hnd. apply NoDup_cons in Hnd as [_ Hnd]. now rewrite IH.
  - simpl in Hnd. apply NoDup_cons in Hnd as [Hne _].
    apply insert_sorted_comm. intros E. apply Hne. rewrite E. left.
  - rewrite IH1 by assumption. apply IH2.
    now rewrite <- (Permutation_map key Hp1).
Qed.
End SortedFacts.

(** ** Main theorems on trees *)

(** C5, as the code has it. The entries are sorted by name before they are
    concatenated, by a stable sort; so for every entry list whose names are
    pairwise distinct and for every permutation of it the tree content is
    the same, byte for byte, and with it the tree address. *)
Theorem build_tree_content_permutation (entries entries' : list entry) :
  Permutation entries entries' ->
  NoDup (map entry_name entries) ->
  _build_tree_content entries' = _build_tree_content entries
  /\ bind (_build_tree_content entries') (_hash_content (lit "tree"))
     = bind (_build_tree_content entries) (_hash_content (lit "tree")).
Proof.
  intros Hp Hnd.
  assert (H : _build_tree_content entries' = _build_tree_content entries).
  { unfold _build_tree_content.
    now rewrite (sorted_Permutation entry_name _ _ Hp Hnd). }
  split; [exact H|now rewrite H].
Qed.

Lemma build_tree_content_permutation_witness :
  let e1 : entry :=
    (lit "100644", lit "blob", lit "ce013625030ba8dba906f756967f9e9ca394464a",
     lit "a") in
  let e2 : entry :=
    (lit "100644", lit "blob", lit "e69de29bb2d1d6434b8b29ae775ad8c2e48c5391",
     lit "b") in
  _build_tree_content [e2; e1] = _build_tree_content [e1; e2]
  /\ bind (_build_tree_content [e2; e1]) (_hash_content (lit "tree"))
     = bind (_build_tree_content [e1; e2]) (_hash_content (lit "tree")).
Proof.
  intros e1 e2. apply (build_tree_content_permutation [e1; e2] [e2; e1]).
  - apply perm_swap.
  - decide_vm.
Defined.

(** C5 as stated fails for an entry list that holds a name twice: the sort
    is stable, the two entries stay in the order given, and the two orders
    give different contents and different addresses. *)
Lemma build_tree_content_permutation_counterexample :
  let e1 : entry :=
    (lit "100644", lit "blob", lit "ce013625030ba8dba906f756967f9e9ca394464a",
     lit "a") in
  let e2 : entry :=
    (lit "100644", lit "blob", lit "e69de29bb2d1d6434b8b29ae775ad8c2e48c5391",
     lit "a") in
  Permutation [e1; e2] [e2; e1]
  /\ _build_tree_content [e2; e1] <> _build_tree_content [e1; e2]
  /\ bind (_build_tree_content [e1; e2]) (_hash_content (lit "tree"))
     = Ok (lit "83ddb7a01eee1f54dbf3239c1eff6555ee97870b")
  /\ bind (_build_tree_content [e2; e1]) (_hash_content (lit "tree"))
     = Ok (lit "532388e0f0b9459520c6e7f95810532c9e8fe14f").
Proof.
  intros e1 e2. split; [apply perm_swap|]. split; [|split; by_vm].
  intros H. vm_compute in H. discriminate H.
Qed.

(** *** Building a tree from a directory *)

Lemma Forall_insert_sorted {A : Type} (key : A -> str) (P : A -> Prop)
    (x : A) (l : list A) :
  P x -> Forall P l -> Forall P (insert_sorted key x l).
Proof.
  intros Hx. induction 1 as [|y l Hy Hl IH]; simpl.
  - now constructor.
  - destruct (str_lt (key y) (key x)); repeat constructor; assumption.
Qed.

Lemma Forall_sorted {A : Type} (key : A -> str) (P : A -> Prop) (l : list A) :
  Forall P l -> Forall P (sorted key l).
Proof.
  induction 1 as [|x l Hx Hl IH]; simpl; [constructor|].
  now apply Forall_insert_sorted.
Qed.

Lemma collect_entries_skipped (items : list (str * (node * builder)))
    (st : store) (entries : list entry) :
  Forall skipped items -> collect_entries items st entries = Ok (entries, st).
Proof.
  induction 1 as [|[name [item build]] items Hi _ IH];
    cbn [collect_entries]; [reflexivity|].
  destruct (starts_with (lit ".") name) eqn:Hdot; [exact IH|].
  destruct Hi as [Hi|Hi]; [congruence|].
  destruct item as [content st_mode|children|].
  - contradiction.
  - rewrite Hi. exact IH.
  - exact IH.
Qed.

Lemma create_tree_Dir (GIT_DIR : str) (children : list (str * node))
    (name : str) (st : store) :
  create_tree_from_directory GIT_DIR (Dir children) name st =
  if decide (name = GIT_DIR) then Ok (None, st)
  else
    bind (collect_entries (sorted fst (items_of GIT_DIR children)) st [])
      (fun r =>
         match fst r with
         | [] => Ok (None, snd r)
         | _ :: _ =>
             bind (_build_tree_content (fst r))
               (fun tree_content =>
                  bind (store_object (snd r) (lit "tree") tree_content)
                    (fun s => Ok (Some (fst s), snd s)))
         end).
Proof.
  cbn [create_tree_from_directory]. unfold items_of.
  destruct (decide (name = GIT_DIR)); [reflexivity|].
  destruct (collect_entries _ st []) as [[entries st1]|]; [|reflexivity].
  cbn [bind fst snd]. destruct entries; [reflexivity|].
  destruct (_build_tree_content _); [|reflexivity]. cbn [bind].
  destruct (store_object _ _ _) as [[? ?]|]; reflexivity.
Qed.

Lemma create_tree_hollow (GIT_DIR : str) (directory : node) :
  hollow GIT_DIR directory = true ->
  forall (name : str) (st : store),
    create_tree_from_directory GIT_DIR directory name st = Ok (None, st).
Proof.
  induction directory as [content st_mode|children IH|] using node_ind';
    try discriminate.
  intros Hh name st. cbn [create_tree_from_directory].
  destruct (decide (name = GIT_DIR)); [reflexivity|].
  rewrite collect_entries_skipped; [reflexivity|].
  apply Forall_sorted. apply Forall_map.
  cbn [hollow] in Hh. rewrite forallb_forall in Hh.
  apply Forall_forall. intros [cname item] Hin.
  rewrite Forall_forall in IH. specialize (IH _ Hin).
  apply list_elem_of_In, Hh in Hin. cbn [fst snd] in *.
  apply orb_true_iff in Hin as [Hdot|Hin]; [now left|]. right.
  destruct item as [content st_mode|children'|]; [discriminate| |exact I].
  intros st'. apply orb_true_iff in Hin as [Hname|Hh'].
  - apply bool_decide_eq_true in Hname.
    destruct children'; cbn [create_tree_from_directory];
      now rewrite decide_True.
  - now apply IH.
Qed.

Lemma encode_length (s : str) (b : bytes) :
  encode s = Ok b -> (length s <= length b)%nat.
Proof.
  revert b. induction s as [|c s IH]; intros b; simpl.
  - intros [= <-]. reflexivity.
  - intros H. apply bind_Ok in H as (bc & Hc & H).
    apply bind_Ok in H as (bs & Hs & [= <-]).
    specialize (IH _ Hs). rewrite length_app.
    assert (1 <= length bc)%nat; [|lia].
    unfold encode_cp in Hc.
    repeat match type of Hc with
           | context [if ?t then _ else _] => destruct t
           end; try discriminate; injection Hc as <-; simpl; lia.
Qed.

Lemma append_entries_length (es : list entry) (content result : bytes) :
  append_entries es content = Ok result ->
  (length content + length es <= length result)%nat.
Proof.
  revert content. induction es as [|[[[mode obj_type] obj_hash] name] es IH];
    intros content; cbn [append_entries].
  - intros [= <-]. simpl. lia.
  - intros H. apply bind_Ok in H as (e & He & H).
    apply bind_Ok in H as (hb & _ & H).
    apply IH in H. apply encode_length in He.
    rewrite !length_app in H. rewrite !length_app in He.
    change (length NUL) with 1%nat in He. cbn [length]. lia.
Qed.

Lemma length_insert_sorted {A : Type} (key : A -> str) (x : A) (l : list A) :
  length (insert_sorted key x l) = S (length l).
Proof.
  induction l as [|y l IH]; simpl; [reflexivity|].
  destruct (str_lt (key y) (key x)); simpl; [now rewrite IH|reflexivity].
Qed.

Lemma length_sorted {A : Type} (key : A -> str) (l : list A) :
  length (sorted key l) = length l.
Proof.
  induction l as [|x l IH]; simpl; [reflexivity|].
  now rewrite length_insert_sorted, IH.
Qed.

(** A tree that is stored has content. *)
Lemma create_tree_stored (GIT_DIR : str) (directory : node) (name : str)
    (st st' : store) (tree_hash : str) :
  create_tree_from_directory GIT_DIR directory name st
  = Ok (Some tree_hash, st') ->
  exists tree_content : bytes,
    tree_content <> []
    /\ _hash_content (lit "tree") tree_content = Ok tree_hash
    /\ is_Some (files st' !! _object_path tree_hash).
Proof.
  destruct directory as [content st_mode|children|];
    [cbn [create_tree_from_directory]| |cbn [create_tree_from_directory]];
    try (destruct (decide (name = GIT_DIR)); discriminate).
  rewrite create_tree_Dir.
  destruct (decide (name = GIT_DIR)); [discriminate|].
  intros H. apply bind_Ok in H as ([entries st1] & _ & H). cbn [fst snd] in H.
  destruct entries as [|e entries]; [discriminate|].
  apply bind_Ok in H as (tree_content & Hb & H).
  apply bind_Ok in H as ([h st2] & Hs & [= <- <-]).
  exists tree_content. split; [|split].
  - unfold _build_tree_content in Hb. apply append_entries_length in Hb.
    rewrite length_sorted in Hb. cbn [length] in Hb.
    intros ->. simpl in Hb. lia.
  - unfold store_object in Hs. apply bind_Ok in Hs as (h' & Hh & Hs).
    rewrite Hh. f_equal.
    destruct (negb (exists_ st1 (_object_path h'))); simpl in Hs.
    + now apply bind_Ok in Hs as (? & _ & [= <- _]).
    + now injection Hs as <- _.
  - destruct (store_object_cases _ _ _ _ _ Hs) as [[Hp ->]|[_ [f ->]]];
      [exact Hp|].
    simpl. rewrite lookup_insert_eq. eauto.
Qed.

(** C6. [create_tree_from_directory] returns None, and stores no tree
    object after its loop, whenever the loop ends with an empty entry list;
    a tree that it does store has content. A subdirectory whose own build
    returns None adds no entry to the list of its parent. So a directory
    that leads only to hidden names, to what is neither file nor directory
    and to directories of that same kind gives None and leaves the store
    exactly as it was. *)
Theorem create_tree_elides_empty (GIT_DIR : str) :
  (forall (children : list (str * node)) (name : str) (st st1 : store),
      name <> GIT_DIR ->
      collect_entries (sorted fst (items_of GIT_DIR children)) st []
      = Ok ([], st1) ->
      create_tree_from_directory GIT_DIR (Dir children) name st
      = Ok (None, st1))
  /\ (forall (directory : node) (name : str) (st st' : store)
        (tree_hash : str),
        create_tree_from_directory GIT_DIR directory name st
        = Ok (Some tree_hash, st') ->
        exists tree_content : bytes,
          tree_content <> []
          /\ _hash_content (lit "tree") tree_content = Ok tree_hash
          /\ is_Some (files st' !! _object_path tree_hash))
  /\ (forall (name : str) (children : list (str * node)) (build : builder)
        (items : list (str * (node * builder))) (st st1 : store)
        (entries : list entry),
        starts_with (lit ".") name = false ->
        build name st = Ok (None, st1) ->
        collect_entries ((name, (Dir children, build)) :: items) st entries
        = collect_entries items st1 entries)
  /\ (forall (directory : node) (name : str) (st : store),
        hollow GIT_DIR directory = true ->
        create_tree_from_directory GIT_DIR directory name st = Ok (None, st)).
Proof.
  split; [|split; [|split]].
  - intros children name st st1 Hname Hc. rewrite create_tree_Dir.
    rewrite decide_False by assumption. now rewrite Hc.
  - intros directory name st st' tree_hash. apply create_tree_stored.
  - intros name children build items st st1 entries Hdot Hb.
    cbn [collect_entries]. now rewrite Hdot, Hb.
  - intros directory name st Hh. now apply create_tree_hollow.
Qed.

Lemma create_tree_elides_empty_witness :
  let d :=
    Dir [(lit "docs", Dir [(lit "empty", Dir [])]);
         (lit ".cache", Dir [(lit "x", File (ascii_bytes "x") 420)]);
         (lit "socket", Other)] in
  create_tree_from_directory (lit ".git") d (lit "work") empty_store
  = Ok (None, empty_store).
Proof.
  intros d.
  apply (proj2 (proj2 (proj2 (create_tree_elides_empty (lit ".git"))))).
  reflexivity.
Defined.

(** *** Reading a tree *)

Section FindFacts.
Context {A : Type} `{EqDecision A}.
Implicit Types (x : A) (l pre : list A).

Lemma find_from_shift x pre l (o : nat) :
  find_from x (length pre + o) (pre ++ l)
  = (fun p => (length pre + p)%nat) <$> find_from x o l.
Proof.
  induction pre as [|c pre IH]; simpl.
  - destruct (find_from x o l); reflexivity.
  - rewrite IH. destruct (find_from x o l); reflexivity.
Qed.

Lemma find_from_None x l (o : nat) : x ∉ l -> find_from x o l = None.
Proof.
  revert o. induction l as [|c l IH]; intros o Hx; [reflexivity|].
  apply not_elem_of_cons in Hx as [Hc Hx]. simpl.
  destruct o as [|o]; [rewrite decide_False by congruence|];
    now rewrite IH.
Qed.

Lemma find_from_app x pre l :
  x ∉ pre -> find_from x 0 (pre ++ x :: l) = Some (length pre).
Proof.
  induction pre as [|c pre IH]; intros Hx; simpl.
  - now rewrite decide_True.
  - apply not_elem_of_cons in Hx as [Hc Hx].
    rewrite decide_False by congruence. now rewrite IH.
Qed.

Lemma find_from_Some x l (o p : nat) :
  find_from x o l = Some p -> (o <= p < length l)%nat.
Proof.
  revert o p. induction l as [|c l IH]; intros o p; simpl; [discriminate|].
  destruct o as [|o].
  - destruct (decide (c = x)); [intros [= <-]; lia|].
    destruct (find_from x 0 l) as [q|] eqn:E; [|discriminate].
    intros [= <-]. apply IH in E. lia.
  - destruct (find_from x o l) as [q|] eqn:E; [|discriminate].
    intros [= <-]. apply IH in E. lia.
Qed.

Lemma slice_prefix pre l : slice 0 (length pre) (pre ++ l) = pre.
Proof.
  unfold slice. rewrite Nat.sub_0_r, skipn_O.
  rewrite firstn_app, Nat.sub_diag, firstn_all, firstn_O.
  apply app_nil_r.
Qed.

Lemma slice_shift pre l (i j : nat) :
  slice (length pre + i) (length pre + j) (pre ++ l) = slice i j l.
Proof.
  unfold slice. rewrite skipn_app, skipn_all2 by lia.
  replace (length pre + i - length pre)%nat with i by lia.
  replace (length pre + j - (length pre + i))%nat with (j - i)%nat by lia.
  reflexivity.
Qed.
End FindFacts.

Section ParseFacts.
Variable st : store.
Variable recur : str -> list str -> list action -> run.
Variable target_dir : list str.

(** The loop looks only at the bytes from its offset on. *)
Lemma parse_entries_shift (pre rest : bytes) (fuel o : nat)
    (log : list action) :
  parse_entries st recur (pre ++ rest) target_dir fuel (length pre + o) log
  = parse_entries st recur rest target_dir fuel o log.
Proof.
  revert o log. induction fuel as [|fuel IH]; intros o log.
  - simpl. rewrite length_app.
    destruct (Nat.ltb_spec (length pre + o) (length pre + length rest)),
      (Nat.ltb_spec o (length rest)); try reflexivity; lia.
  - cbn [parse_entries]. rewrite length_app.
    destruct (Nat.ltb_spec (length pre + o) (length pre + length rest)),
      (Nat.ltb_spec o (length rest)); try reflexivity; try lia.
    rewrite find_from_shift.
    destruct (find_from x00 o rest) as [p|]; [|reflexivity]. cbn [fmap option_fmap option_map].
    rewrite slice_shift.
    destruct (bind (decode (slice o p rest)) _) as [[mode name]|];
      [|reflexivity].
    replace (length pre + p + 1)%nat with (length pre + (p + 1))%nat by lia.
    replace (length pre + p + 21)%nat with (length pre + (p + 21))%nat by lia.
    rewrite slice_shift.
    destruct (restore_entry _ _ _ _ _ _ _) as [[log' [u|e]]|];
      try reflexivity.
    apply IH.
Qed.

Lemma parse_entries_junk (tail : bytes) (fuel : nat) (log : list action) :
  x00 ∉ tail ->
  parse_entries st recur tail target_dir (S fuel) 0 log = Some (log, Ok tt).
Proof.
  intros Ht. cbn [parse_entries]. rewrite find_from_None by assumption.
  now destruct (0 <? length tail)%nat.
Qed.

(** One record at the head of the buffer. *)
Lemma parse_entries_record (mode name : str) (h header rest : bytes)
    (fuel : nat) (log : list action) :
  encode (mode ++ 32 :: name) = Ok header ->
  proper_header mode name ->
  length h = 20%nat \/ ((length h < 20)%nat /\ rest = []) ->
  parse_entries st recur (header ++ x00 :: h ++ rest) target_dir
    (S fuel) 0 log
  = match restore_entry st recur mode name (hex h) target_dir log with
    | None => None
    | Some (log', Raise e) => Some (log', Raise e)
    | Some (log', Ok _) =>
        parse_entries st recur rest target_dir fuel 0 log'
    end.
Proof.
  intros He (H32 & Hm0 & Hn0) Hh. cbn [parse_entries].
  assert (Hnul : x00 ∉ header).
  { eapply encode_no_nul; [exact He|].
    rewrite elem_of_app, elem_of_cons. intros [?|[?|?]]; [tauto|lia|tauto]. }
  rewrite length_app. cbn [length].
  destruct (Nat.ltb_spec 0 (length header + S (length (h ++ rest))));
    [|lia].
  rewrite find_from_app by assumption.
  rewrite slice_prefix, (decode_encode _ _ He). cbn [bind].
  rewrite split1_app by assumption. cbn [unpack2].
  assert (Hs : slice (length header + 1) (length header + 21)
                 (header ++ x00 :: h ++ rest) = h).
  { rewrite slice_shift. unfold slice. cbn [skipn]. rewrite ?skipn_O.
    replace (21 - 1)%nat with 20%nat by reflexivity.
    destruct Hh as [Hh|[Hh ->]].
    - now rewrite firstn_app, Hh, Nat.sub_diag, firstn_O, app_nil_r,
        <- Hh, firstn_all.
    - rewrite app_nil_r. apply firstn_all2. lia. }
  rewrite Hs.
  destruct (restore_entry _ _ _ _ _ _ _) as [[log' [u|e]]|]; try reflexivity.
  destruct Hh as [Hh|[Hh ->]].
  - replace (header ++ x00 :: h ++ rest)
      with ((header ++ x00 :: h) ++ rest)
      by (rewrite <- app_assoc; reflexivity).
    replace (length header + 21)%nat
      with (length (header ++ x00 :: h) + 0)%nat
      by (rewrite length_app; cbn [length]; lia).
    apply parse_entries_shift.
  - rewrite app_nil_r.
    assert (Hlen : (length (header ++ x00 :: h) <= length header + 21)%nat)
      by (rewrite length_app; cbn [length]; lia).
    destruct fuel; cbn [parse_entries];
      destruct (Nat.ltb_spec (length header + 21)
                  (length (header ++ x00 :: h))); try lia; reflexivity.
Qed.

(** The loop restores the records at the head of a buffer one after the
    other, each with the 20 bytes after its NUL as address, and goes on
    with the rest of the buffer. *)
Lemma parse_entries_records (rs rs2 : list (str * str * bytes))
    (content rest : bytes) :
  tree_bytes rs = Ok content -> Forall proper rs ->
  (forall fuel log r,
      restore_all st recur rs2 target_dir fuel log = Some r ->
      parse_entries st recur rest target_dir (S fuel) 0 log = Some r) ->
  forall fuel log r,
    restore_all st recur (rs ++ rs2) target_dir fuel log = Some r ->
    parse_entries st recur (content ++ rest) target_dir (S fuel) 0 log
    = Some r.
Proof.
  intros Hb Hp Hrest. revert content Hb.
  induction Hp as [|[[mode name] h] rs [Hhd Hlen] _ IH];
    intros content Hb fuel log r Hr.
  - injection Hb as <-. now apply Hrest.
  - cbn [tree_bytes record_bytes] in Hb.
    apply bind_Ok in Hb as (b & Hb1 & Hb).
    apply bind_Ok in Hb1 as (header & He & [= <-]).
    apply bind_Ok in Hb as (bs & Hbs & [= <-]).
    cbn [app restore_all] in Hr. destruct fuel as [|fuel]; [discriminate|].
    replace (((header ++ x00 :: h) ++ bs) ++ rest)
      with (header ++ x00 :: h ++ (bs ++ rest))
      by (rewrite <- !app_assoc; reflexivity).
    rewrite (parse_entries_record mode name h header _ _ _ He Hhd)
      by now left.
    destruct (restore_entry _ _ _ _ _ _ _) as [[log' [u|e]]|];
      try assumption.
    now apply IH.
Qed.

Lemma parse_entries_short (mode name : str) (h header : bytes)
    (fuel : nat) (log : list action) (r : list action * result unit) :
  encode (mode ++ 32 :: name) = Ok header ->
  proper_header mode name -> (length h < 20)%nat ->
  restore_all st recur [(mode, name, h)] target_dir fuel log = Some r ->
  parse_entries st recur (header ++ x00 :: h) target_dir (S fuel) 0 log
  = Some r.
Proof.
  intros He Hhd Hlen Hr. cbn [restore_all] in Hr.
  destruct fuel as [|fuel]; [discriminate|].
  replace (header ++ x00 :: h) with (header ++ x00 :: h ++ [])
    by now rewrite app_nil_r.
  rewrite (parse_entries_record mode name h header _ _ _ He Hhd)
    by (right; split; [lia|reflexivity]).
  destruct (restore_entry _ _ _ _ _ _ _) as [[log' [u|e]]|];
    assumption.
Qed.
End ParseFacts.

(** C7, as the code has it. The loop looks for the NUL byte that ends each
    header ["<mode> <name>"] and takes the next 20 bytes, or the fewer that
    are left, as the child address. A buffer of well-formed records is
    restored record by record, also when bytes without a NUL byte follow
    the last record, which are skipped without error, and also when fewer
    than 20 bytes follow the NUL of the last record, which are then taken
    as the address. A header that is not UTF-8 or has no space raises and
    so ends the walk. *)
Theorem parse_entries_lenient (st : store)
    (recur : str -> list str -> list action -> run) (target_dir : list str) :
  (forall (rs : list (str * str * bytes)) (content tail : bytes)
      (fuel : nat) (log : list action) (r : list action * result unit),
      tree_bytes rs = Ok content -> Forall proper rs -> x00 ∉ tail ->
      restore_all st recur rs target_dir fuel log = Some r ->
      parse_entries st recur (content ++ tail) target_dir (S fuel) 0 log
      = Some r)
  /\ (forall (rs : list (str * str * bytes)) (content : bytes)
        (mode name : str) (h header : bytes)
        (fuel : nat) (log : list action) (r : list action * result unit),
        tree_bytes rs = Ok content -> Forall proper rs ->
        encode (mode ++ 32 :: name) = Ok header ->
        proper_header mode name -> (length h < 20)%nat ->
        restore_all st recur (rs ++ [(mode, name, h)]) target_dir fuel log
        = Some r ->
        parse_entries st recur (content ++ header ++ x00 :: h) target_dir
          (S fuel) 0 log
        = Some r)
  /\ (forall (content : bytes) (fuel offset null_pos : nat)
        (log : list action),
        find_from x00 offset content = Some null_pos ->
        (forall e, decode (slice offset null_pos content) = Raise e ->
                   parse_entries st recur content target_dir (S fuel) offset log
                   = Some (log, Raise e))
        /\ (forall text, decode (slice offset null_pos content) = Ok text ->
                        32 ∉ text ->
                        parse_entries st recur content target_dir (S fuel)
                          offset log
                        = Some (log, Raise UnpackError))).
Proof.
  split; [|split].
  - intros rs content tail fuel log r Hb Hp Ht Hr.
    apply (parse_entries_records st recur target_dir rs [] content tail Hb Hp).
    + intros fuel' log' r' [= <-]. now apply parse_entries_junk.
    + now rewrite app_nil_r.
  - intros rs content mode name h header fuel log r Hb Hp He Hhd Hlen Hr.
    apply (parse_entries_records st recur target_dir rs [(mode, name, h)]
             content _ Hb Hp); [|assumption].
    intros fuel' log' r'. now apply parse_entries_short.
  - intros content fuel offset null_pos log Hf.
    pose proof (find_from_Some _ _ _ _ Hf) as Hlt.
    assert (Hoff : (offset <? length content)%nat = true)
      by (apply Nat.ltb_lt; lia).
    split.
    + intros e Hd. cbn [parse_entries]. now rewrite Hoff, Hf, Hd.
    + intros text Hd Hsp. cbn [parse_entries]. rewrite Hoff, Hf, Hd.
      cbn [bind]. unfold split1. now rewrite cut_None.
Qed.

Lemma parse_entries_lenient_witness :
  let st := puts [(lit "blob", ascii_bytes "hi")] empty_store in
  let recur : str -> list str -> list action -> run := fun _ _ _ => None in
  let h := SHA1.digest (framed (lit "blob") (ascii_bytes "hi")) in
  parse_entries st recur
    ((ascii_bytes "100644 a" ++ x00 :: h) ++ ascii_bytes "100644 b")
    [lit "out"] 2 0 []
  = Some ([Chmod [lit "out"; lit "a"] 420;
           WriteBytes [lit "out"; lit "a"] (ascii_bytes "hi")], Ok tt).
Proof.
  intros st recur h.
  apply (proj1 (parse_entries_lenient st recur [lit "out"])
           [(lit "100644", lit "a", h)]).
  - by_vm.
  - constructor; [|constructor].
    split; [repeat split; decide_vm|apply length_digest].
  - decide_vm.
  - by_vm.
Defined.

(** C7 as stated fails: a tree whose buffer ends in a record without a NUL
    byte is restored without error; the record before it is written to the
    working directory and the bytes after it are skipped. *)
Lemma parse_entries_lenient_counterexample :
  let content :=
    ascii_bytes "100644 a"
    ++ x00 :: SHA1.digest (framed (lit "blob") (ascii_bytes "hi"))
    ++ ascii_bytes "100644 b" in
  let st :=
    puts [(lit "blob", ascii_bytes "hi"); (lit "tree", content)] empty_store in
  let tree_hash := lit "c2733863aacbb3c917222a707865a7c8e9c9d49b" in
  (x00 ∉ ascii_bytes "100644 b")
  /\ retrieve_object st tree_hash = Ok (lit "tree", content)
  /\ read_tree_to_directory st 5 tree_hash [lit "out"] []
     = Some ([Chmod [lit "out"; lit "a"] 420;
              WriteBytes [lit "out"; lit "a"] (ascii_bytes "hi");
              Mkdir [lit "out"]], Ok tt).
Proof.
  intros content st tree_hash. split; [decide_vm|]. split; by_vm.
Qed.

(** ** Commits *)

Lemma cut_sub_cons (sep : str) (c : N) (l : str) :
  cut_sub sep (c :: l)
  = if starts_with sep (c :: l)
    then Some ([], skipn (length sep) (c :: l))
    else match cut_sub sep l with
         | Some (a, b) => Some (c :: a, b)
         | None => None
         end.
Proof. reflexivity. Qed.

Lemma starts_with_blank_line (c d : N) (l : str) :
  starts_with [10; 10] (c :: d :: l) = bool_decide (c = 10 /\ d = 10).
Proof.
  cbn [starts_with].
  destruct (decide (10 = c)) as [<-|Hc], (decide (10 = d)) as [<-|Hd];
    symmetry; (apply bool_decide_eq_true; tauto)
    || (apply bool_decide_eq_false; intros [? ?]; congruence).
Qed.

Lemma cut_sub_blank_line (l m : str) :
  10 ∉ l -> cut_sub [10; 10] (l ++ 10 :: 10 :: m) = Some (l, m).
Proof.
  induction l as [|c l IH]; intros Hl.
  - reflexivity.
  - apply not_elem_of_cons in Hl as [Hc Hl].
    cbn [app]. rewrite cut_sub_cons, IH by assumption.
    destruct (l ++ 10 :: 10 :: m) as [|d t] eqn:E;
      [now destruct l|].
    rewrite starts_with_blank_line, bool_decide_eq_false_2; [reflexivity|].
    intros [? _]. congruence.
Qed.

Lemma cut_sub_next_line (l rest : str) (c : N) :
  10 ∉ l -> c <> 10 ->
  cut_sub [10; 10] (l ++ 10 :: c :: rest)
  = match cut_sub [10; 10] (c :: rest) with
    | Some (a, b) => Some (l ++ 10 :: a, b)
    | None => None
    end.
Proof.
  intros Hl Hc. induction l as [|x l IH].
  - cbn [app]. rewrite (cut_sub_cons _ 10).
    rewrite starts_with_blank_line, bool_decide_eq_false_2; [reflexivity|].
    intros [_ ?]. congruence.
  - apply not_elem_of_cons in Hl as [Hx Hl].
    cbn [app]. rewrite cut_sub_cons, (IH Hl).
    destruct (l ++ 10 :: c :: rest) as [|d t] eqn:E; [now destruct l|].
    rewrite starts_with_blank_line, bool_decide_eq_false_2
      by (intros [? _]; congruence).
    now destruct (cut_sub [10; 10] (c :: rest)) as [[a b]|].
Qed.

(** The first blank line of a text that starts with lines, none of them
    empty, is the one after these lines. *)
Lemma cut_sub_lines (ls : list str) (m : str) :
  ls <> [] -> Forall (fun l => l <> [] /\ (10 ∉ l)) ls ->
  cut_sub [10; 10] (join [10] ls ++ 10 :: 10 :: m) = Some (join [10] ls, m).
Proof.
  intros Hne Hls. induction Hls as [|l ls [Hl Hnl] Hls IH]; [congruence|].
  destruct ls as [|l2 ls].
  - cbn [join]. now apply cut_sub_blank_line.
  - change (join [10] (l :: l2 :: ls)) with (l ++ [10] ++ join [10] (l2 :: ls)).
    rewrite <- !app_assoc. cbn [app].
    assert (Hl2 : exists c t, join [10] (l2 :: ls) = c :: t /\ c <> 10).
    { inversion Hls as [|? ? [Hne2 Hnl2] _]; subst.
      destruct l2 as [|c t]; [congruence|].
      exists c. apply not_elem_of_cons in Hnl2 as [Hc _].
      destruct ls; cbn [join app]; eauto. }
    destruct Hl2 as (c & t & Hj & Hc).
    specialize (IH ltac:(discriminate)). rewrite Hj in IH |- *. cbn [app] in *.
    rewrite cut_sub_next_line by assumption. now rewrite IH.
Qed.

Lemma split_join (ls : list str) :
  ls <> [] -> Forall (fun l => 10 ∉ l) ls -> split 10 (join [10] ls) = ls.
Proof.
  intros Hne Hls. induction Hls as [|l ls Hl Hls IH]; [congruence|].
  destruct ls as [|l2 ls].
  - cbn [join]. now apply split_no_sep.
  - change (join [10] (l :: l2 :: ls)) with (l ++ 10 :: join [10] (l2 :: ls)).
    rewrite split_app by assumption. now rewrite IH.
Qed.

Lemma commit_text_eq (timestamp : Z) (tree_hash : str)
    (parent_hash : option str) (message : str) :
  commit_text timestamp tree_hash parent_hash message
  = join [10] (header_lines timestamp tree_hash parent_hash)
    ++ 10 :: 10 :: message.
Proof.
  unfold commit_text, header_lines.
  destruct (truthy parent_hash); cbn [app join];
    repeat first [rewrite <- app_assoc | rewrite <- app_comm_cons];
    reflexivity.
Qed.

Lemma in_line_digit (c : N) : is_digit c = true -> in_line c.
Proof.
  unfold is_digit, in_line, scalar. intros H.
  apply andb_true_iff in H as [H1 H2].
  apply N.leb_le in H1. apply N.leb_le in H2. lia.
Qed.

Lemma str_of_Z_in_line (z : Z) : Forall in_line (str_of_Z z).
Proof.
  assert (Hn : forall n, Forall in_line (str_of_N n)).
  { intros n. eapply Forall_impl; [apply str_of_N_digits|].
    intros c Hc. now apply in_line_digit. }
  unfold str_of_Z. destruct (z <? 0)%Z; [constructor|]; try apply Hn.
  unfold in_line, scalar. lia.
Qed.

Lemma in_line_intro (s : str) : Forall scalar s -> 10 ∉ s -> Forall in_line s.
Proof.
  intros Hs Hn. apply Forall_forall. intros c Hc.
  rewrite Forall_forall in Hs. split; [now apply Hs|]. intros ->. tauto.
Qed.

Lemma in_line_elim (s : str) : Forall in_line s -> Forall scalar s /\ (10 ∉ s).
Proof.
  intros Hs. split.
  - eapply Forall_impl; [exact Hs|]. now intros c [? ?].
  - intros Hin. rewrite Forall_forall in Hs. now destruct (Hs _ Hin).
Qed.

Lemma header_lines_in_line (timestamp : Z) (tree_hash : str)
    (parent_hash : option str) :
  Forall in_line tree_hash ->
  (forall p, parent_hash = Some p -> Forall in_line p) ->
  Forall (fun l => l <> [] /\ Forall in_line l)
         (header_lines timestamp tree_hash parent_hash).
Proof.
  intros Ht Hp.
  assert (Hperson : forall key : str,
             Forall in_line key ->
             Forall in_line
               (key ++ author_name ++ lit " <" ++ author_email ++ lit "> "
                ++ str_of_Z timestamp ++ lit " "
                ++ format_d true 3 (utc_offset / 3600)
                ++ format_d false 2 (utc_offset mod 3600 / 60))).
  { intros key Hkey. repeat (apply Forall_app; split);
      try apply str_of_Z_in_line; try assumption; decide_vm. }
  unfold header_lines. repeat (apply Forall_app; split).
  - constructor; [|constructor]. split; [discriminate|].
    apply Forall_app. split; [decide_vm|assumption].
  - destruct parent_hash as [[|c p]|]; cbn [truthy]; constructor;
      [|constructor].
    split; [discriminate|]. apply Forall_app. split; [decide_vm|].
    now apply Hp.
  - constructor; [|constructor; [|constructor]].
    + split; [discriminate|]. apply Hperson. decide_vm.
    + split; [discriminate|]. apply Hperson. decide_vm.
Qed.

Lemma scalar_join (ls : list str) :
  Forall (Forall in_line) ls -> Forall scalar (join [10] ls).
Proof.
  induction 1 as [|l ls Hl Hls IH]; [constructor|].
  destruct ls as [|l2 ls].
  - now apply in_line_elim.
  - change (join [10] (l :: l2 :: ls)) with (l ++ 10 :: join [10] (l2 :: ls)).
    apply Forall_app. split; [now apply in_line_elim|].
    constructor; [unfold scalar; lia|exact IH].
Qed.

Lemma parse_headers_line (key value : str) (lines : list str)
    (commit_data : gmap (list N) str) :
  32 ∉ key ->
  parse_headers ((key ++ 32 :: value) :: lines) commit_data
  = parse_headers lines (<[key := value]> commit_data).
Proof.
  intros Hk. cbn [parse_headers]. now rewrite split1_app.
Qed.

Lemma parse_headers_header_lines (timestamp : Z) (tree_hash : str)
    (parent_hash : option str) (message : str) :
  (forall p, parent_hash = Some p -> p <> []) ->
  exists d : gmap (list N) str,
    parse_headers (header_lines timestamp tree_hash parent_hash)
      {[ lit "message" := message ]} = Ok d
    /\ d !! lit "tree" = Some tree_hash
    /\ d !! lit "parent" = parent_hash
    /\ d !! lit "message" = Some message.
Proof.
  intros Hp. unfold header_lines. cbv zeta.
  change (lit "tree " ++ tree_hash) with (lit "tree" ++ 32 :: tree_hash).
  change (lit "parent " ++ default [] parent_hash)
    with (lit "parent" ++ 32 :: default [] parent_hash).
  change (lit "author " ++ ?x) with (lit "author" ++ 32 :: x).
  change (lit "committer " ++ ?x) with (lit "committer" ++ 32 :: x).
  destruct parent_hash as [[|c p]|]; cbn [truthy app default];
    [now destruct (Hp [] eq_refl)| |].
  all: rewrite !parse_headers_line by decide_vm; cbn [parse_headers].
  all: eexists; split; [reflexivity|].
  all: repeat split.
  all: repeat (rewrite lookup_insert_ne by decide_vm).
  all: rewrite ?lookup_insert_eq, ?lookup_singleton_eq; try reflexivity.
Qed.

(** C8, as the code has it. For a tree address and an optional parent
    address that are free of line breaks (the parent not empty), a message,
    all of them text that UTF-8 can encode, and a store in which the
    address of the new commit is free or holds that commit already,
    [parse_commit] of the commit that [create_commit] has stored gives a
    record with the tree address under [tree], the parent address under
    [parent] exactly when one was given, and under [message] the message
    with the white space at both of its ends stripped. *)
Theorem parse_created_commit (st : store) (timestamp : Z) (tree_hash : str)
    (parent_hash : option str) (message : str) :
  Forall scalar tree_hash -> 10 ∉ tree_hash ->
  (forall p, parent_hash = Some p ->
             p <> [] /\ Forall scalar p /\ (10 ∉ p)) ->
  Forall scalar message ->
  exists (content : bytes) (a : str) (st' : store),
    encode (commit_text timestamp tree_hash parent_hash message) = Ok content
    /\ create_commit st timestamp tree_hash parent_hash message = Ok (a, st')
    /\ (files st !! _object_path a = None
        \/ retrieve_object st a = Ok (lit "commit", content) ->
        exists d : gmap (list N) str,
          parse_commit st' a = Ok d
          /\ d !! lit "tree" = Some tree_hash
          /\ d !! lit "parent" = parent_hash
          /\ d !! lit "message" = Some (strip message)).
Proof.
  intros Ht Htn Hp Hm.
  assert (Hhl := header_lines_in_line timestamp tree_hash parent_hash
                   (in_line_intro _ Ht Htn)
                   (fun p E => in_line_intro _ (proj1 (proj2 (Hp p E)))
                                 (proj2 (proj2 (Hp p E))))).
  assert (Hne : header_lines timestamp tree_hash parent_hash <> [])
    by (unfold header_lines; discriminate).
  assert (Hsc : Forall scalar
                  (commit_text timestamp tree_hash parent_hash message)).
  { rewrite commit_text_eq. apply Forall_app. split.
    - apply scalar_join. eapply Forall_impl; [exact Hhl|]. now intros l [_ ?].
    - repeat constructor; try (unfold scalar; lia). exact Hm. }
  destruct (encode_scalars _ Hsc) as [content Henc].
  assert (Hkind : Forall scalar (lit "commit")) by decide_vm.
  destruct (store_object_Ok st (lit "commit") content Hkind)
    as (a & st' & Hstore).
  exists content, a, st'. split; [exact Henc|]. split.
  - unfold create_commit. now rewrite Henc.
  - intros Hfree.
    assert (Hretr : retrieve_object st' a = Ok (lit "commit", content)).
    { destruct (store_object_cases _ _ _ _ _ Hstore)
        as [[Hpresent ->]|[Hnone _]].
      - destruct Hfree as [Hnone|Hheld]; [|exact Hheld].
        destruct Hpresent as [f Hf]. congruence.
      - apply (retrieve_stored st st' (lit "commit") a content);
          try assumption; decide_vm. }
    destruct (parse_headers_header_lines timestamp tree_hash parent_hash
                (strip message) (fun p E => proj1 (Hp p E)))
      as (d & Hd & Htree & Hparent & Hmsg).
    exists d. split; [|auto].
    unfold parse_commit. rewrite Hretr. cbn [bind].
    rewrite decide_False by (intros H; now apply H).
    rewrite (decode_encode _ _ Henc). cbn [bind].
    rewrite commit_text_eq. unfold split1_sub.
    rewrite cut_sub_lines.
    + cbn [unpack2 bind]. rewrite split_join; [exact Hd|exact Hne|].
      eapply Forall_impl; [exact Hhl|]. intros l [_ Hl].
      now apply in_line_elim.
    + exact Hne.
    + eapply Forall_impl; [exact Hhl|]. intros l [Hl0 Hl].
      split; [exact Hl0|now apply in_line_elim].
Qed.

Lemma parse_created_commit_witness :
  let tree_hash := lit "4b825dc642cb6eb9a060e54bf8d69288fbee4904" in
  let parent := lit "32f95c0d1244a78b2be1bab8de17906fabb2c4a8" in
  let message := lit "  first commit " in
  exists (content : bytes) (a : str) (st' : store),
    encode (commit_text 1700000000 tree_hash (Some parent) message)
    = Ok content
    /\ create_commit empty_store 1700000000 tree_hash (Some parent) message
       = Ok (a, st')
    /\ (files empty_store !! _object_path a = None
        \/ retrieve_object empty_store a = Ok (lit "commit", content) ->
        exists d : gmap (list N) str,
          parse_commit st' a = Ok d
          /\ d !! lit "tree" = Some tree_hash
          /\ d !! lit "parent" = Some parent
          /\ d !! lit "message" = Some (strip message)).
Proof.
  intros tree_hash parent message.
  apply (parse_created_commit empty_store 1700000000 tree_hash (Some parent)
           message).
  - decide_vm.
  - decide_vm.
  - intros p [= <-]. split; [discriminate|]. split; decide_vm.
  - decide_vm.
Defined.

(** C8 as stated fails for a message that starts with white space:
    [parse_commit] strips both ends of the message, where the specification
    has the message verbatim but for the white space at its end. *)
Lemma parse_created_commit_counterexample :
  let tree_hash := lit "4b825dc642cb6eb9a060e54bf8d69288fbee4904" in
  let message := lit "  indented" in
  match create_commit empty_store 1700000000 tree_hash None message with
  | Ok (a, st') =>
      match parse_commit st' a with
      | Ok d => d !! lit "message"
      | Raise _ => None
      end
  | Raise _ => None
  end = Some (lit "indented")
  /\ rstrip message = lit "  indented"
  /\ lit "indented" <> rstrip message.
Proof.
  intros tree_hash message. split; [by_vm|]. split; [by_vm|]. decide_vm.
Qed.

(** ** Refs *)

Lemma strip_trimmed (s : str) : trimmed s -> strip s = s.
Proof.
  intros [(c & m & -> & Hc) (d & m' & Hr & Hd)]. unfold strip, rstrip.
  cbn [lstrip]. rewrite Hc, Hr. cbn [lstrip]. rewrite Hd, <- Hr.
  apply rev_involutive.
Qed.

Lemma strip_trimmed_newline (s : str) : trimmed s -> strip (s ++ [10]) = s.
Proof.
  intros [(c & m & -> & Hc) (d & m' & Hr & Hd)]. unfold strip, rstrip.
  cbn [app lstrip]. rewrite Hc.
  change (c :: m ++ [10]) with ((c :: m) ++ [10]).
  rewrite rev_app_distr, Hr. cbn [rev app lstrip].
  change (is_space 10) with true. cbv iota. rewrite Hd, <- Hr.
  apply rev_involutive.
Qed.

Lemma no_space_trimmed (s : str) : s <> [] -> no_space s -> trimmed s.
Proof.
  intros Hne Hs. split.
  - destruct Hs as [|c m Hc _]; [congruence|eauto].
  - apply Forall_rev in Hs. destruct (rev s) as [|d m] eqn:E.
    + exfalso. apply Hne. now rewrite <- (rev_involutive s), E.
    + inversion Hs; eauto.
Qed.

Lemma symbolic_trimmed (target : str) :
  target <> [] -> no_space target -> trimmed (lit "ref: " ++ target).
Proof.
  intros Hne Hs. split.
  - eexists _, _. split; reflexivity.
  - rewrite rev_app_distr.
    destruct (no_space_trimmed target Hne Hs) as [_ (d & m & -> & Hd)].
    cbn [app]. eauto.
Qed.

Lemma lower_hex_not_space (c : N) : lower_hex c = true -> is_space c = false.
Proof.
  unfold lower_hex, is_space. intros H.
  apply orb_true_iff in H as [H|H]; apply andb_true_iff in H as [H1 H2];
    apply N.leb_le in H1; apply N.leb_le in H2;
    repeat match goal with
           | |- context [?a <=? ?b] => destruct (N.leb_spec a b); try lia
           | |- context [?a =? ?b] => destruct (N.eqb_spec a b); try lia
           end; reflexivity.
Qed.

Lemma address_trimmed (a : str) : address a -> trimmed a.
Proof.
  intros [Hlen Hhex]. apply no_space_trimmed.
  - intros ->. discriminate.
  - eapply Forall_impl; [exact Hhex|]. apply lower_hex_not_space.
Qed.

Lemma address_not_symbolic (a : str) :
  address a -> starts_with (lit "ref: ") a = false.
Proof.
  intros [Hlen Hhex]. destruct Hhex as [|c a Hc _]; [discriminate|].
  change (lit "ref: ") with (114 :: lit "ef: "). cbn [starts_with].
  rewrite decide_False; [reflexivity|].
  intros E. rewrite <- E in Hc. discriminate.
Qed.

Lemma symbolic_target (target : str) :
  split1 32 (lit "ref: " ++ target) = [lit "ref:"; target].
Proof.
  change (lit "ref: " ++ target) with (lit "ref:" ++ 32 :: target).
  apply split1_app. decide_vm.
Qed.

Lemma ref_exists_true (rs : gmap (list N) ref_node) (p : str) :
  ref_exists rs p = true <-> is_Some (node_at rs p).
Proof. unfold ref_exists. apply bool_decide_eq_true. Qed.

Lemma ref_exists_false (rs : gmap (list N) ref_node) (p : str) :
  ref_exists rs p = false <-> node_at rs p = None.
Proof.
  unfold ref_exists. rewrite bool_decide_eq_false. split.
  - intros H. destruct (node_at rs p) eqn:E; [|reflexivity].
    exfalso. apply H. eauto.
  - intros -> [? ?]. discriminate.
Qed.

(** One call of [resolve_ref], by what its lookup finds. *)
Lemma resolve_ref_step (fuel : nat) (rs : gmap (list N) ref_node)
    (ref_name : str) :
  GitRefs.resolve_ref (S fuel) rs ref_name =
  match located rs ref_name with
  | None => Some (Ok None)
  | Some RefDir => Some (Raise IsADirectoryError)
  | Some (RefFile text) =>
      if starts_with (lit "ref: ") (strip text) then
        match split1 32 (strip text) with
        | [_; target] => GitRefs.resolve_ref fuel rs target
        | _ => Some (Raise IndexError)
        end
      else Some (Ok (Some (strip text)))
  end.
Proof.
  cbn [GitRefs.resolve_ref]. unfold located.
  destruct (bool_decide (ref_name = lit "HEAD") && negb (ref_exists rs head_file));
    [reflexivity|].
  unfold read_text.
  destruct (ref_exists rs ref_name) eqn:E1; cbn [negb].
  - apply ref_exists_true in E1 as [n Hn]. rewrite Hn.
    destruct n; reflexivity.
  - apply ref_exists_false in E1. rewrite E1.
    destruct (ref_exists rs (heads_dir ref_name)) eqn:E2; cbn [negb].
    + apply ref_exists_true in E2 as [n Hn]. rewrite Hn.
      destruct n; reflexivity.
    + apply ref_exists_false in E2. now rewrite E2.
Qed.

Lemma node_at_insert_ne (rs : gmap (list N) ref_node) (d k : str)
    (x : ref_node) :
  k <> d -> node_at (<[d := x]> rs) k = node_at rs k.
Proof.
  intros Hne. destruct k; [reflexivity|]. cbn [node_at].
  now rewrite lookup_insert_ne.
Qed.

Lemma node_at_insert_eq (rs : gmap (list N) ref_node) (d : str)
    (x : ref_node) :
  d <> [] -> node_at (<[d := x]> rs) d = Some x.
Proof.
  intros Hne. destruct d; [congruence|]. cbn [node_at].
  apply lookup_insert_eq.
Qed.

(** mkdir leaves alone what exists. *)
Lemma mkdir_parents_keeps (dirs : list str) (rs rs' : gmap (list N) ref_node) :
  mkdir_parents rs dirs = Ok rs' ->
  forall k v, node_at rs k = Some v -> node_at rs' k = Some v.
Proof.
  revert rs'. induction dirs as [|d up IH]; intros rs' H k v Hk.
  - injection H as <-. exact Hk.
  - cbn [mkdir_parents] in H.
    destruct (node_at rs d) as [[t|]|] eqn:Ed; try discriminate.
    + injection H as <-. exact Hk.
    + assert (Hne : k <> d) by (intros ->; congruence).
      destruct up as [|u up'].
      * injection H as <-. now rewrite node_at_insert_ne.
      * destruct (node_at rs u) as [[t|]|]; try discriminate.
        all: apply bind_Ok in H as (rs'' & Hup & [= <-]).
        all: rewrite node_at_insert_ne by assumption.
        all: now apply (IH rs'').
Qed.

Lemma write_text_spec (rs rs' : gmap (list N) ref_node) (p text : str) :
  write_text rs p text = Ok rs' ->
  node_at rs' p = Some (RefFile text)
  /\ forall k, k <> p -> node_at rs' k = node_at rs k.
Proof.
  unfold write_text. intros H.
  assert (Hp : p <> []).
  { intros ->. cbn [node_at] in H. discriminate. }
  assert (rs' = <[p := RefFile text]> rs) as ->.
  { destruct (node_at rs p) as [[t|]|]; congruence. }
  split; [now apply node_at_insert_eq|].
  intros k Hk. now apply node_at_insert_ne.
Qed.

Lemma update_ref_spec (rs rs' : gmap (list N) ref_node)
    (ref_name commit_hash : str) (symbolic : bool) (out : list str) :
  GitRefs.update_ref rs ref_name commit_hash symbolic = Ok (rs', out) ->
  node_at rs' ref_name
  = Some (RefFile (strip (if symbolic then lit "ref: " ++ commit_hash
                          else commit_hash) ++ [10]))
  /\ forall k v, k <> ref_name -> node_at rs k = Some v ->
                 node_at rs' k = Some v.
Proof.
  unfold GitRefs.update_ref. intros H.
  apply bind_Ok in H as (rs1 & Hmk & H).
  apply bind_Ok in H as (rs2 & Hw & [= <- _]).
  apply write_text_spec in Hw as [Hp Hother]. split; [exact Hp|].
  intros k v Hk Hv. rewrite Hother by assumption.
  now apply (mkdir_parents_keeps _ _ _ Hmk).
Qed.

Lemma located_present (rs : gmap (list N) ref_node) (ref_name : str)
    (n : ref_node) :
  node_at rs ref_name = Some n -> located rs ref_name = Some n.
Proof.
  intros Hn. unfold located.
  destruct (bool_decide (ref_name = lit "HEAD")) eqn:E; cbn [andb].
  - apply bool_decide_eq_true in E. subst ref_name.
    assert (Hex : ref_exists rs head_file = true)
      by (apply ref_exists_true; unfold head_file; rewrite Hn; eauto).
    rewrite Hex. cbn [negb]. now rewrite Hn.
  - now rewrite Hn.
Qed.

Lemma resolve_ref_direct (fuel : nat) (rs : gmap (list N) ref_node)
    (ref_name commit_hash : str) :
  address commit_hash ->
  node_at rs ref_name = Some (RefFile (strip commit_hash ++ [10])) ->
  GitRefs.resolve_ref (S fuel) rs ref_name = Some (Ok (Some commit_hash)).
Proof.
  intros Ha Hn. rewrite resolve_ref_step, (located_present _ _ _ Hn).
  rewrite (strip_trimmed commit_hash) by now apply address_trimmed.
  rewrite strip_trimmed_newline by now apply address_trimmed.
  now rewrite address_not_symbolic.
Qed.

Lemma lower_hex_elem (c : N) :
  lower_hex c = true <-> c ∈ lit "0123456789abcdef".
Proof.
  let l := eval vm_compute in (lit "0123456789abcdef") in
  change (lit "0123456789abcdef") with l.
  rewrite !elem_of_cons, elem_of_nil. unfold lower_hex.
  rewrite orb_true_iff, !andb_true_iff, !N.leb_le. lia.
Qed.

(** ** Main theorems on refs *)

(** C9, as the code has it. [resolve_ref] gives none for the name HEAD when
    there is no HEAD file, without a look below [refs/heads]; otherwise it
    looks the name up directly and then below [refs/heads]. When nothing is
    at either path the result is none, and nothing is raised. A direct
    record gives its text, stripped of the white space around it; a
    symbolic record is resolved by resolving the name it holds. So once
    [update_ref] has made A symbolic to B and B direct to the address C,
    A resolves to C. *)
Theorem resolve_ref_follows (rs : gmap (list N) ref_node) :
  (node_at rs head_file = None ->
   forall fuel, GitRefs.resolve_ref (S fuel) rs (lit "HEAD") = Some (Ok None))
  /\ (forall (ref_name : str) (fuel : nat),
        node_at rs ref_name = None ->
        node_at rs (heads_dir ref_name) = None ->
        GitRefs.resolve_ref (S fuel) rs ref_name = Some (Ok None))
  /\ (forall (ref_name text : str) (fuel : nat),
        located rs ref_name = Some (RefFile text) ->
        starts_with (lit "ref: ") (strip text) = false ->
        GitRefs.resolve_ref (S fuel) rs ref_name
        = Some (Ok (Some (strip text))))
  /\ (forall (ref_name text target : str) (fuel : nat),
        located rs ref_name = Some (RefFile text) ->
        strip text = lit "ref: " ++ target ->
        GitRefs.resolve_ref (S fuel) rs ref_name
        = GitRefs.resolve_ref fuel rs target)
  /\ (forall (A B C : str) (rs1 rs2 : gmap (list N) ref_node)
        (out1 out2 : list str) (fuel : nat),
        B <> [] -> no_space B -> address C ->
        GitRefs.update_ref rs A B true = Ok (rs1, out1) ->
        GitRefs.update_ref rs1 B C false = Ok (rs2, out2) ->
        GitRefs.resolve_ref (S (S fuel)) rs2 A = Some (Ok (Some C))).
Proof.
  repeat split.
  - intros Hhead fuel. rewrite resolve_ref_step. unfold located.
    rewrite bool_decide_eq_true_2 by reflexivity.
    now rewrite (proj2 (ref_exists_false rs head_file) Hhead).
  - intros ref_name fuel H1 H2. rewrite resolve_ref_step. unfold located.
    rewrite H1, H2. now destruct (_ && _).
  - intros ref_name text fuel Hl Hd. now rewrite resolve_ref_step, Hl, Hd.
  - intros ref_name text target fuel Hl Hs.
    rewrite resolve_ref_step, Hl, Hs, starts_with_app.
    now rewrite symbolic_target.
  - intros A B C rs1 rs2 out1 out2 fuel HB HBs HC H1 H2.
    apply update_ref_spec in H1 as [HA1 _].
    apply update_ref_spec in H2 as [HB2 Hkeep].
    destruct (decide (A = B)) as [->|Hne].
    + now apply resolve_ref_direct.
    + apply Hkeep in HA1; [|assumption].
      rewrite resolve_ref_step, (located_present _ _ _ HA1).
      rewrite (strip_trimmed (lit "ref: " ++ B))
        by now apply symbolic_trimmed.
      rewrite strip_trimmed_newline by now apply symbolic_trimmed.
      rewrite starts_with_app, symbolic_target.
      now apply resolve_ref_direct.
Qed.

Lemma resolve_ref_follows_witness :
  let C := lit "32f95c0d1244a78b2be1bab8de17906fabb2c4a8" in
  let B := lit "refs/heads/main" in
  let rs1 : gmap (list N) ref_node :=
    {[ lit "HEAD" := RefFile (lit "ref: refs/heads/main" ++ [10]) ]} in
  let rs2 : gmap (list N) ref_node :=
    <[B := RefFile (C ++ [10])]>
      (<[lit "refs/heads" := RefDir]> (<[lit "refs" := RefDir]> rs1)) in
  GitRefs.update_ref ∅ (lit "HEAD") B true
  = Ok (rs1, [lit "Updated ref 'HEAD' to point to 'ref: refs/heads/main'"])
  /\ GitRefs.update_ref rs1 B C false
     = Ok (rs2, [lit "Updated ref 'refs/heads/main' to point to '" ++ C
                 ++ lit "'"])
  /\ GitRefs.resolve_ref 2 rs2 (lit "HEAD") = Some (Ok (Some C)).
Proof.
  intros C B rs1 rs2.
  assert (E1 : GitRefs.update_ref ∅ (lit "HEAD") B true
               = Ok (rs1, [lit "Updated ref 'HEAD' to point to 'ref: refs/heads/main'"]))
    by by_vm.
  assert (E2 : GitRefs.update_ref rs1 B C false
               = Ok (rs2, [lit "Updated ref 'refs/heads/main' to point to '"
                           ++ C ++ lit "'"]))
    by by_vm.
  split; [exact E1|]. split; [exact E2|].
  refine (proj2 (proj2 (proj2 (proj2 (resolve_ref_follows ∅))))
            (lit "HEAD") B C rs1 rs2 _ _ 0%nat _ _ _ E1 E2).
  - discriminate.
  - decide_vm.
  - decide_vm.
Defined.

(** C9 as stated fails for the name HEAD: with no HEAD file and a branch
    that is itself named HEAD, the lookup below [refs/heads] would find a
    direct record, and the resolution as specified gives its digest, but
    [resolve_ref] gives none. *)
Lemma resolve_ref_follows_counterexample :
  let C := lit "32f95c0d1244a78b2be1bab8de17906fabb2c4a8" in
  let rs : gmap (list N) ref_node :=
    {[ lit "refs" := RefDir; lit "refs/heads" := RefDir;
       lit "refs/heads/HEAD" := RefFile (C ++ [10]) ]} in
  bind (GitRefs.update_ref ∅ (lit "refs/heads/HEAD") C false)
       (fun r => Ok (fst r)) = Ok rs
  /\ node_at rs (lit "HEAD") = None
  /\ node_at rs (heads_dir (lit "HEAD")) = Some (RefFile (C ++ [10]))
  /\ resolve_as_specified 2 rs (lit "HEAD") = Some (Ok (Some C))
  /\ GitRefs.resolve_ref 2 rs (lit "HEAD") = Some (Ok None).
Proof.
  intros C rs. repeat split; by_vm.
Qed.

(** C10. [PyGitRef.update_ref] tests the value it is given before anything
    is stored: a value that is not 40 characters long, or that holds a
    character that is no lower-case hexadecimal digit, is refused with an
    error line, and the directory stays as it was; only an address goes on
    to [GitRefs.update_ref], as a direct target. *)
Theorem update_ref_validates (rs : gmap (list N) ref_node)
    (ref_name commit_hash : str) :
  (length commit_hash <> 40%nat
   \/ (exists c, c ∈ commit_hash /\ c ∉ lit "0123456789abcdef") ->
   PyGitRef.update_ref rs ref_name commit_hash
   = Ok (rs, [lit "Error: '" ++ commit_hash
              ++ lit "' is not a valid SHA-1 hash."]))
  /\ (address commit_hash ->
      PyGitRef.update_ref rs ref_name commit_hash
      = GitRefs.update_ref rs ref_name commit_hash false).
Proof.
  unfold PyGitRef.update_ref. split.
  - intros [Hlen|(c & Hin & Hc)].
    + apply Nat.eqb_neq in Hlen. now rewrite Hlen.
    + assert (Hall : forallb
                       (fun c => bool_decide (c ∈ lit "0123456789abcdef"))
                       commit_hash = false).
      { apply not_true_is_false. intros Hall.
        rewrite forallb_forall in Hall.
        apply list_elem_of_In, Hall, bool_decide_eq_true in Hin. tauto. }
      rewrite Hall. now rewrite orb_true_r.
  - intros [Hlen Hhex]. apply Nat.eqb_eq in Hlen. rewrite Hlen.
    assert (Hall : forallb
                     (fun c => bool_decide (c ∈ lit "0123456789abcdef"))
                     commit_hash = true).
    { apply forallb_forall. intros c Hin. apply bool_decide_eq_true.
      apply lower_hex_elem. rewrite Forall_forall in Hhex.
      now apply Hhex, list_elem_of_In. }
    now rewrite Hall.
Qed.

Lemma update_ref_validates_witness :
  let rs : gmap (list N) ref_node := {[ lit "HEAD" := RefFile (lit "x") ]} in
  let short := lit "32f95c0d1244a78b2be1bab8de17906fabb2c4" in
  let loud := lit "32F95C0D1244A78B2BE1BAB8DE17906FABB2C4A8" in
  PyGitRef.update_ref rs (lit "refs/heads/main") short
  = Ok (rs, [lit "Error: '" ++ short ++ lit "' is not a valid SHA-1 hash."])
  /\ PyGitRef.update_ref rs (lit "refs/heads/main") loud
     = Ok (rs, [lit "Error: '" ++ loud ++ lit "' is not a valid SHA-1 hash."]).
Proof.
  intros rs short loud. split.
  - apply (proj1 (update_ref_validates rs (lit "refs/heads/main") short)).
    left. discriminate.
  - apply (proj1 (update_ref_validates rs (lit "refs/heads/main") loud)).
    right. exists 70. split; decide_vm.
Defined.

(** * Further properties *)

(** ** Refs: what [update_ref] changes *)

Lemma join_cons (sep x : str) (l : list str) :
  l <> [] -> join sep (x :: l) = x ++ sep ++ join sep l.
Proof. destruct l; [congruence|reflexivity]. Qed.

Lemma join_head (sep : str) (c : N) (p : str) (ps : list str) :
  join sep ((c :: p) :: ps) = c :: join sep (p :: ps).
Proof. destruct ps; reflexivity. Qed.

Lemma join_split (sep : N) (s : str) : join [sep] (split sep s) = s.
Proof.
  induction s as [|c s IH]; [reflexivity|]. cbn [split].
  pose proof (split_not_nil sep s) as Hne.
  destruct (decide (c = sep)) as [->|Hc].
  - rewrite join_cons by assumption. now rewrite IH.
  - destruct (split sep s) as [|p ps]; [congruence|].
    rewrite join_head. now rewrite IH.
Qed.

(** A directory above a path has a shorter name than the path. *)
Lemma parents_from_shorter (components : list str) (prefix k : str) :
  k ∈ parents_from prefix components ->
  (length k < length (prefix ++ join [47%N] components))%nat.
Proof.
  revert prefix. induction components as [|c rest IH]; intros prefix Hk.
  - cbn in Hk. now apply elem_of_nil in Hk.
  - destruct rest as [|c' rest'].
    + cbn in Hk. now apply elem_of_nil in Hk.
    + change (parents_from prefix (c :: c' :: rest'))
        with (parents_from (prefix ++ c ++ lit "/") (c' :: rest')
              ++ [prefix ++ c]) in Hk.
      change (join [47] (c :: c' :: rest'))
        with (c ++ [47] ++ join [47] (c' :: rest')).
      apply elem_of_app in Hk as [Hk|Hk].
      * apply IH in Hk. revert Hk. rewrite !length_app. cbn. lia.
      * apply list_elem_of_singleton in Hk as ->.
        rewrite !length_app. cbn. lia.
Qed.

Lemma parents_shorter (p k : str) :
  k ∈ parents p -> (length k < length p)%nat.
Proof.
  intros Hk. apply parents_from_shorter in Hk.
  now rewrite join_split in Hk.
Qed.

(** mkdir makes directories, and only where the path led nowhere. *)
Lemma mkdir_parents_changes (dirs : list str)
    (rs rs' : gmap (list N) ref_node) :
  mkdir_parents rs dirs = Ok rs' ->
  forall k,
    node_at rs' k = node_at rs k
    \/ (node_at rs k = None /\ k ∈ dirs /\ node_at rs' k = Some RefDir).
Proof.
  revert rs'. induction dirs as [|d up IH]; intros rs' H k.
  - injection H as <-. now left.
  - cbn [mkdir_parents] in H.
    destruct (node_at rs d) as [[t|]|] eqn:Ed; try discriminate.
    + injection H as <-. now left.
    + assert (Hd : d <> []) by (intros ->; discriminate).
      destruct up as [|u up'].
      * injection H as <-. destruct (decide (k = d)) as [->|Hk].
        -- right. rewrite node_at_insert_eq by assumption.
           split; [assumption|]. split; [apply list_elem_of_here|reflexivity].
        -- left. now apply node_at_insert_ne.
      * assert (Hup : exists rs'', mkdir_parents rs (u :: up') = Ok rs''
                                   /\ rs' = <[d := RefDir]> rs'').
        { destruct (node_at rs u) as [[t|]|]; try discriminate.
          all: apply bind_Ok in H as (rs'' & Hup & [= <-]); eauto. }
        destruct Hup as (rs'' & Hup & ->).
        destruct (decide (k = d)) as [->|Hk].
        -- right. rewrite node_at_insert_eq by assumption.
           split; [assumption|]. split; [apply list_elem_of_here|reflexivity].
        -- rewrite node_at_insert_ne by assumption.
           destruct (IH _ Hup k) as [Hsame|(Hnone & Hin & Hdir)];
             [now left|right].
           split; [assumption|]. split; [now apply list_elem_of_further|].
           assumption.
Qed.

(** mkdir raises only when it meets a file. *)
Lemma mkdir_parents_Ok (dirs : list str) (rs : gmap (list N) ref_node) :
  (forall d t, d ∈ dirs -> node_at rs d <> Some (RefFile t)) ->
  exists rs', mkdir_parents rs dirs = Ok rs'.
Proof.
  induction dirs as [|d up IH]; intros Hfiles; [now exists rs|].
  cbn [mkdir_parents].
  destruct (node_at rs d) as [[t|]|] eqn:Ed.
  - destruct (Hfiles d t); [apply list_elem_of_here|assumption].
  - now exists rs.
  - destruct up as [|u up']; [eauto|].
    destruct IH as [rs'' Hup].
    { intros d' t Hd'. apply Hfiles. now apply list_elem_of_further. }
    destruct (node_at rs u) as [[t|]|] eqn:Eu.
    + destruct (Hfiles u t);
        [apply list_elem_of_further, list_elem_of_here|assumption].
    + rewrite Hup. cbn. eauto.
    + rewrite Hup. cbn. eauto.
Qed.

Lemma update_ref_Ok (rs : gmap (list N) ref_node)
    (ref_name commit_hash : str) (symbolic : bool) :
  (forall d t, d ∈ parents ref_name -> node_at rs d <> Some (RefFile t)) ->
  node_at rs ref_name <> Some RefDir ->
  exists rs',
    GitRefs.update_ref rs ref_name commit_hash symbolic
    = Ok (rs',
          [lit "Updated ref '" ++ ref_name ++ lit "' to point to '"
           ++ strip (if symbolic then lit "ref: " ++ commit_hash
                     else commit_hash) ++ lit "'"]).
Proof.
  intros Hfiles Hdir. unfold GitRefs.update_ref.
  destruct (mkdir_parents_Ok _ _ Hfiles) as [rs1 Hmk]. rewrite Hmk.
  cbn [bind]. unfold write_text.
  assert (Hdir1 : node_at rs1 ref_name <> Some RefDir).
  { destruct (mkdir_parents_changes _ _ _ Hmk ref_name)
      as [->|(_ & Hin & _)]; [assumption|].
    apply parents_shorter in Hin. lia. }
  destruct (node_at rs1 ref_name) as [[t|]|]; cbn [bind]; eauto.
  congruence.
Qed.

Lemma update_ref_frame (rs rs' : gmap (list N) ref_node)
    (ref_name commit_hash : str) (symbolic : bool) (out : list str) :
  GitRefs.update_ref rs ref_name commit_hash symbolic = Ok (rs', out) ->
  forall k, k <> ref_name ->
    node_at rs' k = node_at rs k
    \/ (node_at rs k = None /\ k ∈ parents ref_name
        /\ node_at rs' k = Some RefDir).
Proof.
  unfold GitRefs.update_ref. intros H k Hk.
  apply bind_Ok in H as (rs1 & Hmk & H).
  apply bind_Ok in H as (rs2 & Hw & [= <- _]).
  apply write_text_spec in Hw as [_ Hother]. rewrite Hother by assumption.
  apply (mkdir_parents_changes _ _ _ Hmk).
Qed.



(** ** Refs: stripping *)

Lemma lstrip_head (s : str) (c : N) (m : str) :
  lstrip s = c :: m -> is_space c = false.
Proof.
  induction s as [|x s IH]; [discriminate|]. cbn [lstrip].
  destruct (is_space x) eqn:E; [exact IH|]. now intros [= <- _].
Qed.

Lemma lstrip_suffix (s : str) : exists pre, s = pre ++ lstrip s.
Proof.
  induction s as [|x s [pre IH]]; [now exists []|]. cbn [lstrip].
  destruct (is_space x); [|now exists []].
  exists (x :: pre). cbn [app]. now rewrite <- IH.
Qed.

(** What strip() gives is empty or has no white space at either end. *)
Lemma strip_cases (s : str) : strip s = [] \/ trimmed (strip s).
Proof.
  unfold strip, rstrip.
  destruct (lstrip (rev (lstrip s))) as [|c m] eqn:Et; [now left|right].
  pose proof (lstrip_head _ _ _ Et) as Hc.
  destruct (lstrip_suffix (rev (lstrip s))) as [pre Hpre].
  rewrite Et in Hpre. split.
  - assert (Hu : lstrip s = rev (c :: m) ++ rev pre).
    { rewrite <- rev_app_distr, <- Hpre. symmetry. apply rev_involutive. }
    destruct (rev (c :: m)) as [|d u] eqn:Er.
    + apply (f_equal (@length N)) in Er. rewrite length_rev in Er.
      discriminate.
    + exists d, u. split; [reflexivity|].
      apply (lstrip_head s d (u ++ rev pre)). exact Hu.
  - exists c, m. split; [apply rev_involutive|exact Hc].
Qed.


(** What [update_ref] has written reads back stripped. *)
Lemma strip_written (s : str) : strip (strip s ++ [10]) = strip s.
Proof.
  destruct (strip_cases s) as [->|H]; [reflexivity|].
  now apply strip_trimmed_newline.
Qed.



(** A symbolic record: a file that names another ref. *)
Lemma resolve_ref_symbolic (fuel : nat) (rs : gmap (list N) ref_node)
    (ref_name target : str) :
  target <> [] -> no_space target ->
  node_at rs ref_name = Some (RefFile (lit "ref: " ++ target ++ [10])) ->
  GitRefs.resolve_ref (S fuel) rs ref_name
  = GitRefs.resolve_ref fuel rs target.
Proof.
  intros Hne Hs Hn. rewrite resolve_ref_step, (located_present _ _ _ Hn).
  change (lit "ref: " ++ target ++ [10])
    with ((lit "ref: " ++ target) ++ [10]).
  rewrite strip_trimmed_newline by now apply symbolic_trimmed.
  rewrite starts_with_app. now rewrite symbolic_target.
Qed.

Lemma parents_HEAD : parents (lit "HEAD") = [].
Proof. reflexivity. Qed.

(** Writing HEAD changes HEAD alone. *)
Lemma update_HEAD (rs rs' : gmap (list N) ref_node) (target : str)
    (symbolic : bool) (out : list str) :
  GitRefs.update_ref rs (lit "HEAD") target symbolic = Ok (rs', out) ->
  forall k, k <> lit "HEAD" -> node_at rs' k = node_at rs k.
Proof.
  intros H k Hk.
  destruct (update_ref_frame _ _ _ _ _ _ H k Hk) as [E|(_ & Hin & _)];
    [exact E|].
  rewrite parents_HEAD in Hin. now apply elem_of_nil in Hin.
Qed.

Lemma no_space_heads (branch_name : str) :
  no_space branch_name -> no_space (lit "refs/heads/" ++ branch_name).
Proof.
  intros H. apply Forall_app. split; [|exact H].
  decide_vm.
Qed.

Lemma split_heads (prefix branch_name : str) :
  47 ∉ prefix ->
  split 47 (prefix ++ lit "/heads/" ++ branch_name)
  = prefix :: lit "heads" :: split 47 branch_name.
Proof.
  intros Hp.
  change (prefix ++ lit "/heads/" ++ branch_name)
    with (prefix ++ 47 :: (lit "heads" ++ 47 :: branch_name)).
  rewrite split_app by assumption. rewrite split_app; [reflexivity|].
  decide_vm.
Qed.

(** HEAD as [checkout] and [init] leave it names the branch by its last
    component. *)
Lemma get_current_branch_symbolic (rs : gmap (list N) ref_node)
    (branch_name : str) :
  no_space branch_name ->
  node_at rs head_file
  = Some (RefFile (lit "ref: " ++ (lit "refs/heads/" ++ branch_name) ++ [10])) ->
  GitRefs.get_current_branch rs = Ok (last (split 47 branch_name)).
Proof.
  intros Hs Hn. unfold GitRefs.get_current_branch.
  assert (Hex : ref_exists rs head_file = true)
    by (apply ref_exists_true; rewrite Hn; eauto).
  rewrite Hex. cbn [negb]. unfold read_text. rewrite Hn. cbn [bind].
  change (lit "ref: " ++ (lit "refs/heads/" ++ branch_name) ++ [10])
    with ((lit "ref: " ++ (lit "refs/heads/" ++ branch_name)) ++ [10]).
  rewrite strip_trimmed_newline.
  2:{ apply symbolic_trimmed; [discriminate|now apply no_space_heads]. }
  change (lit "ref: " ++ lit "refs/heads/" ++ branch_name)
    with (lit "ref: refs/heads/" ++ branch_name).
  rewrite starts_with_app.
  change (lit "ref: refs/heads/" ++ branch_name)
    with (lit "ref: refs" ++ lit "/heads/" ++ branch_name).
  rewrite split_heads by decide_vm.
  pose proof (split_not_nil 47 branch_name) as Hne.
  destruct (split 47 branch_name) as [|p ps] eqn:E; [congruence|].
  change (lit "ref: refs" :: lit "heads" :: p :: ps)
    with ([lit "ref: refs"; lit "heads"] ++ p :: ps).
  rewrite last_app. destruct (last (p :: ps)) eqn:El; [reflexivity|].
  apply last_None in El. discriminate.
Qed.

(** ** Refs: branches *)

Lemma truthy_Some (s : str) : s <> [] -> truthy (Some s) = true.
Proof. destruct s; [congruence|reflexivity]. Qed.









(** X4. [init] writes HEAD as a symbolic record of the branch main,
    whatever HEAD held before, and changes nothing else: the current
    branch is then main, HEAD resolves to what [refs/heads/main] resolves
    to, and to nothing as long as that branch has no file. *)
Theorem init_points_to_main (git_dir_absolute : str)
    (rs : gmap (list N) ref_node) :
  node_at rs head_file <> Some RefDir ->
  exists rs',
    PyGitRef.init git_dir_absolute rs
    = Ok (rs',
          [lit "Initialized empty Git repository in " ++ git_dir_absolute;
           lit "Updated ref 'HEAD' to point to 'ref: refs/heads/main'";
           lit "Set HEAD to point to 'main'"])
    /\ GitRefs.get_current_branch rs' = Ok (Some (lit "main"))
    /\ (forall k, k <> head_file -> node_at rs' k = node_at rs k)
    /\ (forall fuel,
          GitRefs.get_head_commit (S fuel) rs'
          = GitRefs.resolve_ref fuel rs' (lit "refs/heads/main"))
    /\ (node_at rs (lit "refs/heads/main") = None ->
        node_at rs (heads_dir (lit "refs/heads/main")) = None ->
        forall fuel,
          GitRefs.get_head_commit (S (S fuel)) rs' = Some (Ok None)).
Proof.
  intros Hhead. unfold PyGitRef.init.
  destruct (update_ref_Ok rs (lit "HEAD") (lit "refs/heads/main") true)
    as [rs' Hup]; [|exact Hhead|].
  { intros d t Hd. rewrite parents_HEAD in Hd. now apply elem_of_nil in Hd. }
  exists rs'. rewrite Hup. cbn [bind].
  destruct (update_ref_spec _ _ _ _ _ _ Hup) as [Hfile _].
  pose proof (update_HEAD _ _ _ _ _ Hup) as Hframe.
  assert (Hstep : forall fuel,
             GitRefs.get_head_commit (S fuel) rs'
             = GitRefs.resolve_ref fuel rs' (lit "refs/heads/main")).
  { intros fuel. unfold GitRefs.get_head_commit.
    apply resolve_ref_symbolic; [discriminate|decide_vm|exact Hfile]. }
  split; [reflexivity|]. split; [|split; [exact Hframe|split]].
  - rewrite (get_current_branch_symbolic rs' (lit "main"));
      [reflexivity|decide_vm|exact Hfile].
  - exact Hstep.
  - intros Hn Hn' fuel. rewrite Hstep, resolve_ref_step. unfold located.
    rewrite bool_decide_eq_false_2 by discriminate. cbn [andb].
    rewrite !Hframe by discriminate. now rewrite Hn, Hn'.
Qed.

Lemma init_points_to_main_witness :
  exists rs',
    PyGitRef.init (lit "/repo/.git") ∅
    = Ok (rs',
          [lit "Initialized empty Git repository in /repo/.git";
           lit "Updated ref 'HEAD' to point to 'ref: refs/heads/main'";
           lit "Set HEAD to point to 'main'"])
    /\ GitRefs.get_current_branch rs' = Ok (Some (lit "main"))
    /\ GitRefs.get_head_commit 2 rs' = Some (Ok None).
Proof.
  destruct (init_points_to_main (lit "/repo/.git") ∅)
    as (rs' & Hout & Hcur & _ & _ & Hunborn).
  - cbn. rewrite lookup_empty. discriminate.
  - exists rs'. split; [exact Hout|]. split; [exact Hcur|].
    apply Hunborn; apply lookup_empty.
Defined.

(** ** Refs: the list of branches *)









(** ** Refs: cycles and a detached HEAD *)

(** X6. Among refs that are symbolic records of one another, so that each
    names another of them, [resolve_ref] never comes to a result, whatever
    number of nested calls it is given; a ref that [update_ref] has made
    symbolic to itself is the least such cycle. *)
Theorem resolve_ref_cycle (rs : gmap (list N) ref_node)
    (cyclic : str -> Prop) :
  (forall r, cyclic r ->
     exists target,
       cyclic target /\ target <> [] /\ no_space target
       /\ node_at rs r = Some (RefFile (lit "ref: " ++ target ++ [10]))) ->
  forall fuel r, cyclic r -> GitRefs.resolve_ref fuel rs r = None.
Proof.
  intros Hcycle. induction fuel as [|fuel IH]; intros r Hr; [reflexivity|].
  destruct (Hcycle r Hr) as (target & Ht & Hne & Hs & Hn).
  rewrite (resolve_ref_symbolic _ _ _ _ Hne Hs Hn). now apply IH.
Qed.

Lemma resolve_ref_cycle_witness :
  let rs : gmap (list N) ref_node :=
    {[ lit "HEAD" := RefFile (lit "ref: HEAD" ++ [10]) ]} in
  bind (GitRefs.update_ref ∅ (lit "HEAD") (lit "HEAD") true)
       (fun r => Ok (fst r)) = Ok rs
  /\ GitRefs.resolve_ref 1000 rs (lit "HEAD") = None.
Proof.
  intros rs. split; [by_vm|].
  apply (resolve_ref_cycle rs (fun r => r = lit "HEAD")); [|reflexivity].
  intros r ->. exists (lit "HEAD").
  split; [reflexivity|]. split; [discriminate|]. split; [decide_vm|].
  by_vm.
Defined.

Lemma update_ref_address (rs : gmap (list N) ref_node)
    (ref_name commit_hash : str) :
  address commit_hash ->
  PyGitRef.update_ref rs ref_name commit_hash
  = GitRefs.update_ref rs ref_name commit_hash false.
Proof.
  unfold PyGitRef.update_ref. intros [Hlen Hhex].
  apply Nat.eqb_eq in Hlen. rewrite Hlen.
  assert (Hall : forallb
                   (fun c => bool_decide (c ∈ lit "0123456789abcdef"))
                   commit_hash = true).
  { apply forallb_forall. intros c Hin. apply bool_decide_eq_true.
    apply lower_hex_elem. rewrite Forall_forall in Hhex.
    now apply Hhex, list_elem_of_In. }
  now rewrite Hall.
Qed.

(** X7. The command [update_ref] on HEAD with an address detaches HEAD:
    afterwards [get_head_commit] gives that address and
    [get_current_branch] gives none, and no other file has changed. *)
Theorem update_ref_detaches (rs rs' : gmap (list N) ref_node)
    (commit_hash : str) (out : list str) :
  address commit_hash ->
  PyGitRef.update_ref rs head_file commit_hash = Ok (rs', out) ->
  (forall fuel,
      GitRefs.get_head_commit (S fuel) rs' = Some (Ok (Some commit_hash)))
  /\ GitRefs.get_current_branch rs' = Ok None
  /\ forall k, k <> head_file -> node_at rs' k = node_at rs k.
Proof.
  intros Ha Hup. rewrite update_ref_address in Hup by assumption.
  destruct (update_ref_spec _ _ _ _ _ _ Hup) as [Hfile _].
  split; [|split].
  - intros fuel. now apply resolve_ref_direct.
  - unfold GitRefs.get_current_branch.
    assert (Hex : ref_exists rs' head_file = true)
      by (apply ref_exists_true; rewrite Hfile; eauto).
    rewrite Hex. cbn [negb]. unfold read_text. rewrite Hfile. cbn [bind].
    rewrite strip_written, (strip_trimmed _ (address_trimmed _ Ha)).
    destruct Ha as [Hlen Hhex]. destruct Hhex as [|c a Hc _]; [discriminate|].
    change (lit "ref: refs/heads/") with (114 :: lit "ef: refs/heads/").
    cbn [starts_with]. rewrite decide_False; [reflexivity|].
    intros E. rewrite <- E in Hc. discriminate.
  - exact (update_HEAD _ _ _ _ _ Hup).
Qed.

Lemma update_ref_detaches_witness :
  let C := lit "32f95c0d1244a78b2be1bab8de17906fabb2c4a8" in
  let rs : gmap (list N) ref_node :=
    {[ lit "HEAD" := RefFile (lit "ref: refs/heads/main" ++ [10]) ]} in
  let rs' : gmap (list N) ref_node :=
    {[ lit "HEAD" := RefFile (C ++ [10]) ]} in
  GitRefs.get_head_commit 1 rs' = Some (Ok (Some C))
  /\ GitRefs.get_current_branch rs' = Ok None.
Proof.
  intros C rs rs'.
  destruct (update_ref_detaches rs rs' C
              [lit "Updated ref 'HEAD' to point to '" ++ C ++ lit "'"])
    as (Hhead & Hcur & _).
  - split; [reflexivity|decide_vm].
  - by_vm.
  - split; [apply Hhead|exact Hcur].
Defined.

(** ** Trees without a store *)

Lemma puts_app (a b : list (str * bytes)) (st : store) :
  puts (a ++ b) st = puts b (puts a st).
Proof.
  revert st. induction a as [|[kind content] a IH]; intros st; [reflexivity|].
  cbn [app puts]. destruct (store_object st kind content) as [[? st']|]; apply IH.
Qed.

(** A put succeeds exactly when the header has an encoding, and then
    gives the digest. *)
Lemma store_object_puts (st : store) (kind : str) (content : bytes) :
  store_object st kind content
  = bind (_hash_content kind content)
         (fun h => Ok (h, puts [(kind, content)] st)).
Proof.
  cbn [puts]. unfold _hash_content.
  destruct (encode (kind ++ lit " " ++ len content ++ NUL)) as [hb|e] eqn:Eh.
  - rewrite (store_object_eq _ _ _ _ Eh). reflexivity.
  - unfold store_object, _hash_content. now rewrite Eh.
Qed.

Section SortedMap.
Context {A B : Type} (f : A -> B) (keyA : A -> str) (keyB : B -> str).
Hypothesis Hkey : forall x, keyB (f x) = keyA x.

Lemma insert_sorted_map (x : A) (l : list A) :
  insert_sorted keyB (f x) (map f l) = map f (insert_sorted keyA x l).
Proof.
  induction l as [|y l IH]; [reflexivity|]. cbn [map insert_sorted].
  rewrite !Hkey. destruct (str_lt (keyA y) (keyA x)); [|reflexivity].
  cbn [map]. now rewrite IH.
Qed.

Lemma sorted_map (l : list A) :
  sorted keyB (map f l) = map f (sorted keyA l).
Proof.
  induction l as [|x l IH]; [reflexivity|]. cbn [map sorted foldr].
  fold (sorted keyB (map f l)). fold (sorted keyA l).
  now rewrite IH, insert_sorted_map.
Qed.
End SortedMap.

Lemma collect_entries_gather (GIT_DIR : str) (l : list (str * node)) :
  Forall (fun c : str * node =>
            forall (name : str) (st : store),
              create_tree_from_directory GIT_DIR (snd c) name st
              = bind (tree_of GIT_DIR (snd c) name)
                     (fun r => Ok (fst r, puts (snd r) st))) l ->
  forall (st0 : store) (entries : list entry) (objs : list (str * bytes)),
    collect_entries
      (map (fun c : str * node =>
              (fst c, (snd c, create_tree_from_directory GIT_DIR (snd c)))) l)
      (puts objs st0) entries
    = bind (gather
              (map (fun c : str * node =>
                      (fst c, (snd c, tree_of GIT_DIR (snd c)))) l)
              entries objs)
           (fun r => Ok (fst r, puts (snd r) st0)).
Proof.
  induction 1 as [|[name item] l Hc _ IH]; intros st0 entries objs;
    [reflexivity|].
  cbn [map fst snd collect_entries gather] in *.
  destruct (starts_with (lit ".") name); [apply IH|].
  destruct item as [content st_mode|children|].
  - rewrite store_object_puts.
    destruct (_hash_content (lit "blob") content) as [h|e]; [|reflexivity].
    cbn [bind]. rewrite <- puts_app. apply IH.
  - rewrite Hc.
    destruct (tree_of GIT_DIR (Dir children) name) as [[h sub]|e];
      [|reflexivity].
    cbn [bind fst snd]. rewrite <- puts_app.
    destruct (truthy h); apply IH.
  - apply IH.
Qed.

(** The build of a directory is the build without a store, followed by
    its puts. *)
Lemma create_tree_plan (GIT_DIR : str) (directory : node) :
  forall (name : str) (st : store),
    create_tree_from_directory GIT_DIR directory name st
    = bind (tree_of GIT_DIR directory name)
           (fun r => Ok (fst r, puts (snd r) st)).
Proof.
  induction directory as [content st_mode|children IH|] using node_ind';
    intros name st.
  - cbn [create_tree_from_directory tree_of].
    destruct (decide (name = GIT_DIR)); reflexivity.
  - rewrite create_tree_Dir. cbn [tree_of].
    destruct (decide (name = GIT_DIR)); [reflexivity|].
    unfold items_of.
    rewrite (sorted_map
               (fun c : str * node =>
                  (fst c, (snd c, create_tree_from_directory GIT_DIR (snd c))))
               fst fst) by reflexivity.
    rewrite (sorted_map
               (fun c : str * node => (fst c, (snd c, tree_of GIT_DIR (snd c))))
               fst fst) by reflexivity.
    pose proof (collect_entries_gather GIT_DIR (sorted fst children)
                  (Forall_sorted _ _ _ IH) st [] []) as Hc.
    cbn [puts] in Hc. rewrite Hc.
    destruct (gather _ [] []) as [[entries objs]|e]; [|reflexivity].
    cbn [bind fst snd]. destruct entries as [|e0 entries]; [reflexivity|].
    destruct (_build_tree_content (e0 :: entries)) as [tree_content|e];
      [|reflexivity].
    cbn [bind]. rewrite store_object_puts.
    destruct (_hash_content (lit "tree") tree_content) as [h|e];
      [|reflexivity].
    cbn [bind fst snd]. now rewrite puts_app.
  - cbn [create_tree_from_directory tree_of].
    destruct (decide (name = GIT_DIR)); reflexivity.
Qed.

Lemma gather_kinds (items : list (str * (node * (str -> plan))))
    (P : str * bytes -> Prop) :
  (forall content, P (lit "blob", content)) ->
  Forall (fun i : str * (node * (str -> plan)) =>
            forall name h sub, snd (snd i) name = Ok (h, sub) -> Forall P sub)
         items ->
  forall entries objs r,
    Forall P objs -> gather items entries objs = Ok r -> Forall P (snd r).
Proof.
  intros Hblob. induction 1 as [|[name [item build]] items Hb _ IH];
    intros entries objs r Hobjs H; cbn [gather] in H.
  - now injection H as <-.
  - destruct (starts_with (lit ".") name); [now apply (IH _ _ _ Hobjs H)|].
    destruct item as [content st_mode|children|].
    + apply bind_Ok in H as (h & _ & H). apply (IH _ _ _) in H; [exact H|].
      apply Forall_app. split; [exact Hobjs|]. repeat constructor.
      apply Hblob.
    + apply bind_Ok in H as ([h sub] & Hsub & H).
      assert (Hall : Forall P (objs ++ sub)).
      { apply Forall_app. split; [exact Hobjs|]. exact (Hb _ _ _ Hsub). }
      destruct (truthy h); now apply (IH _ _ _ Hall H).
    + now apply (IH _ _ _ Hobjs H).
Qed.

(** The objects of a build are blobs and trees. *)
Lemma tree_of_kinds (GIT_DIR : str) (directory : node) (P : str * bytes -> Prop) :
  (forall content, P (lit "blob", content)) ->
  (forall content, P (lit "tree", content)) ->
  forall name h objs,
    tree_of GIT_DIR directory name = Ok (h, objs) -> Forall P objs.
Proof.
  intros Hblob Htree.
  induction directory as [content st_mode|children IH|] using node_ind';
    intros name h objs H; cbn [tree_of] in H.
  - destruct (decide (name = GIT_DIR)); [|discriminate].
    injection H as <- <-. constructor.
  - destruct (decide (name = GIT_DIR)).
    { injection H as <- <-. constructor. }
    apply bind_Ok in H as ([entries objs0] & Hg & H).
    assert (Hobjs : Forall P objs0).
    { apply (gather_kinds _ P Hblob) in Hg; [exact Hg| |constructor].
      apply Forall_sorted, Forall_map, Forall_forall. intros c Hin.
      rewrite Forall_forall in IH. exact (IH c Hin). }
    destruct entries as [|e0 entries].
    + now injection H as <- <-.
    + apply bind_Ok in H as (tree_content & _ & H).
      apply bind_Ok in H as (tree_hash & _ & [= <- <-]).
      apply Forall_app. split; [exact Hobjs|]. repeat constructor.
      apply Htree.
  - destruct (decide (name = GIT_DIR)); [|discriminate].
    injection H as <- <-. constructor.
Qed.

(** ** The object store: what it keeps *)

Lemma kinds_ascii (kind : str) :
  kind ∈ kinds -> Forall (fun c => c < 128) kind.
Proof.
  unfold kinds. rewrite !elem_of_cons, elem_of_nil.
  intros [->|[->|[->|[]]]]; repeat constructor; reflexivity.
Qed.

Lemma kinds_plain (kind : str) : kind ∈ kinds -> (32 ∉ kind) /\ (0 ∉ kind).
Proof.
  unfold kinds. rewrite !elem_of_cons, elem_of_nil.
  intros [->|[->|[->|[]]]]; split; decide_vm.
Qed.

Lemma kinds_scalar (kind : str) : kind ∈ kinds -> Forall scalar kind.
Proof.
  intros Hk. eapply Forall_impl; [exact (kinds_ascii kind Hk)|].
  intros c Hc. left. cbn beta in Hc. lia.
Qed.

(** The header of an object of one of the kinds, and its framed bytes. *)
Lemma encode_framed (kind : str) (content : bytes) :
  kind ∈ kinds ->
  exists hb,
    encode (kind ++ lit " " ++ len content ++ NUL) = Ok hb
    /\ hb = map byte_of_N kind ++ [x20] ++ map byte_of_N (len content)
            ++ [x00]
    /\ hb ++ content = framed kind content.
Proof.
  intros Hk. eexists. split; [|split; [reflexivity|]].
  - apply encode_header, encode_ascii, kinds_ascii, Hk.
  - unfold framed, len. now rewrite !map_app, <- !app_assoc.
Qed.

Lemma store_object_kind (st : store) (kind : str) (content : bytes) :
  kind ∈ kinds ->
  store_object st kind content
  = Ok (address_of (kind, content),
        if exists_ st (_object_path (address_of (kind, content))) then st
        else write_bytes st (_object_path (address_of (kind, content)))
               (Deflated (framed kind content))).
Proof.
  intros Hk. destruct (encode_framed kind content Hk) as (hb & Hh & _ & Hf).
  rewrite (store_object_eq _ _ _ _ Hh). cbv zeta. rewrite Hf. reflexivity.
Qed.

Lemma retrieve_framed (st : store) (a kind : str) (content : bytes) :
  kind ∈ kinds ->
  files st !! _object_path a = Some (Deflated (framed kind content)) ->
  retrieve_object st a = Ok (kind, content).
Proof.
  intros Hk Hf. destruct (kinds_plain kind Hk) as [H32 H0].
  destruct (encode_framed kind content Hk) as (hb & _ & Hhb & Hfr).
  eapply retrieve_object_written;
    [apply encode_ascii, kinds_ascii, Hk|assumption|assumption|].
  rewrite Hf, <- Hfr, Hhb. reflexivity.
Qed.

Lemma object_path_inj (a b : str) : _object_path a = _object_path b -> a = b.
Proof.
  unfold _object_path. intros [= H1 H2].
  rewrite <- (firstn_skipn 2 a), <- (firstn_skipn 2 b). now rewrite H1, H2.
Qed.

(** What [retrieve_object] gives depends on the file at the path alone. *)
Lemma retrieve_object_ext (st st' : store) (a : str) :
  files st' !! _object_path a = files st !! _object_path a ->
  retrieve_object st' a = retrieve_object st a.
Proof. unfold retrieve_object. now intros ->. Qed.

Lemma store_object_keeps (st st' : store) (kind : str) (content : bytes)
    (a : str) :
  store_object st kind content = Ok (a, st') ->
  forall p f, files st !! p = Some f -> files st' !! p = Some f.
Proof.
  intros Hs p f Hp.
  destruct (store_object_cases _ _ _ _ _ Hs) as [[_ ->]|[Hfree [g ->]]];
    [exact Hp|].
  cbn [write_bytes files]. rewrite lookup_insert_ne; [exact Hp|].
  intros <-. congruence.
Qed.

Lemma puts_keeps (ops : list (str * bytes)) (st : store) :
  forall p f, files st !! p = Some f -> files (puts ops st) !! p = Some f.
Proof.
  revert st. induction ops as [|[kind content] ops IH]; intros st p f Hp;
    [exact Hp|].
  cbn [puts]. destruct (store_object st kind content) as [[a st']|e] eqn:Hs.
  - apply IH. exact (store_object_keeps _ _ _ _ _ Hs p f Hp).
  - now apply IH.
Qed.

Lemma retrieve_kept (st st' : store) (a : str) (o : str * bytes) :
  (forall p f, files st !! p = Some f -> files st' !! p = Some f) ->
  retrieve_object st a = Ok o -> retrieve_object st' a = Ok o.
Proof.
  intros Hkeep Hr. rewrite <- Hr. apply retrieve_object_ext.
  destruct (files st !! _object_path a) as [f|] eqn:Ef.
  - now apply Hkeep.
  - unfold retrieve_object in Hr. rewrite Ef in Hr. discriminate.
Qed.

Lemma store_object_sound (st st' : store) (kind : str) (content : bytes)
    (a : str) :
  kind ∈ kinds -> sound st -> store_object st kind content = Ok (a, st') ->
  sound st'.
Proof.
  intros Hk Hsound Hs. rewrite (store_object_kind st kind content Hk) in Hs.
  injection Hs as <- <-.
  destruct (exists_ st _); [exact Hsound|].
  intros p f. cbn [write_bytes files].
  destruct (decide (p = _object_path (address_of (kind, content)))) as [->|Hp].
  - rewrite lookup_insert_eq. intros [= <-]. exists kind, content. eauto.
  - rewrite lookup_insert_ne by congruence. apply Hsound.
Qed.

Lemma puts_sound (ops : list (str * bytes)) (st : store) :
  Forall (fun o : str * bytes => fst o ∈ kinds) ops ->
  sound st -> sound (puts ops st).
Proof.
  intros Hops. revert st.
  induction Hops as [|[kind content] ops Hk _ IH]; intros st Hsound;
    [exact Hsound|].
  cbn [puts]. destruct (store_object st kind content) as [[a st']|e] eqn:Hs.
  - apply IH. exact (store_object_sound _ _ _ _ _ Hk Hsound Hs).
  - now apply IH.
Qed.

Lemma create_tree_puts (GIT_DIR : str) (directory : node) (name : str)
    (st st' : store) (h : option str) :
  create_tree_from_directory GIT_DIR directory name st = Ok (h, st') ->
  exists objs,
    tree_of GIT_DIR directory name = Ok (h, objs)
    /\ st' = puts objs st
    /\ Forall (fun o : str * bytes => fst o ∈ kinds) objs.
Proof.
  rewrite create_tree_plan. intros H.
  apply bind_Ok in H as ([h' objs] & Ht & [= <- <-]).
  exists objs. split; [exact Ht|]. split; [reflexivity|].
  apply (tree_of_kinds GIT_DIR directory
           (fun o : str * bytes => fst o ∈ kinds)) in Ht; [exact Ht| |];
    intros content; cbn [fst]; unfold kinds;
    rewrite !elem_of_cons; auto.
Qed.

Lemma create_commit_kind (st : store) (timestamp : Z) (tree_hash : str)
    (parent_hash : option str) (message : str) (a : str) (st' : store) :
  create_commit st timestamp tree_hash parent_hash message = Ok (a, st') ->
  exists content, store_object st (lit "commit") content = Ok (a, st').
Proof.
  unfold create_commit. intros H. apply bind_Ok in H as (content & _ & H).
  eauto.
Qed.

(** X8. A store whose files are all objects of the kinds blob, tree and
    commit, each the deflated framed bytes at the path of their digest,
    stays such a store under [store_object] for these kinds, under
    [create_tree_from_directory] and under [create_commit]. *)
Theorem store_stays_sound (st : store) :
  sound st ->
  (forall kind content a st',
      kind ∈ kinds -> store_object st kind content = Ok (a, st') -> sound st')
  /\ (forall GIT_DIR directory name h st',
        create_tree_from_directory GIT_DIR directory name st = Ok (h, st') ->
        sound st')
  /\ (forall timestamp tree_hash parent_hash message a st',
        create_commit st timestamp tree_hash parent_hash message
        = Ok (a, st') ->
        sound st').
Proof.
  intros Hsound. split; [|split].
  - intros kind content a st' Hk Hs.
    exact (store_object_sound _ _ _ _ _ Hk Hsound Hs).
  - intros GIT_DIR directory name h st' H.
    apply create_tree_puts in H as (objs & _ & -> & Hkinds).
    now apply puts_sound.
  - intros timestamp tree_hash parent_hash message a st' H.
    apply create_commit_kind in H as [content Hs].
    apply (store_object_sound _ _ _ _ _) with (3 := Hs); [|exact Hsound].
    unfold kinds. rewrite !elem_of_cons. auto.
Qed.


(** X10. What [retrieve_object] gives for an address it gives for good:
    no [store_object], [create_tree_from_directory] or [create_commit]
    changes or removes a file of the store. *)
Theorem objects_stay (st : store) :
  (forall kind content b st',
      store_object st kind content = Ok (b, st') ->
      (forall p f, files st !! p = Some f -> files st' !! p = Some f)
      /\ forall a o, retrieve_object st a = Ok o ->
                     retrieve_object st' a = Ok o)
  /\ (forall GIT_DIR directory name h st',
        create_tree_from_directory GIT_DIR directory name st = Ok (h, st') ->
        (forall p f, files st !! p = Some f -> files st' !! p = Some f)
        /\ forall a o, retrieve_object st a = Ok o ->
                       retrieve_object st' a = Ok o)
  /\ (forall timestamp tree_hash parent_hash message b st',
        create_commit st timestamp tree_hash parent_hash message
        = Ok (b, st') ->
        (forall p f, files st !! p = Some f -> files st' !! p = Some f)
        /\ forall a o, retrieve_object st a = Ok o ->
                       retrieve_object st' a = Ok o).
Proof.
  assert (Hboth : forall st' : store,
             (forall p f, files st !! p = Some f -> files st' !! p = Some f) ->
             (forall p f, files st !! p = Some f -> files st' !! p = Some f)
             /\ forall a o, retrieve_object st a = Ok o ->
                            retrieve_object st' a = Ok o).
  { intros st' Hkeep. split; [exact Hkeep|].
    intros a o. now apply retrieve_kept. }
  split; [|split].
  - intros kind content b st' Hs. apply Hboth.
    exact (store_object_keeps _ _ _ _ _ Hs).
  - intros GIT_DIR directory name h st' H.
    apply create_tree_puts in H as (objs & _ & -> & _).
    apply Hboth, puts_keeps.
  - intros timestamp tree_hash parent_hash message b st' H.
    apply create_commit_kind in H as [content Hs]. apply Hboth.
    exact (store_object_keeps _ _ _ _ _ Hs).
Qed.

Lemma sound_empty : sound empty_store.
Proof. intros p f H. cbn in H. rewrite lookup_empty in H. discriminate. Qed.

Lemma store_stays_sound_witness :
  let a := lit "32f95c0d1244a78b2be1bab8de17906fabb2c4a8" in
  let f := zlib_compress (framed (lit "blob") (ascii_bytes "hi")) in
  let st' := Store {[ _object_path a := f ]} [_object_path a] in
  store_object empty_store (lit "blob") (ascii_bytes "hi") = Ok (a, st')
  /\ object_file (_object_path a) f.
Proof.
  intros a f st'.
  assert (Hs : store_object empty_store (lit "blob") (ascii_bytes "hi")
               = Ok (a, st')) by by_vm.
  split; [exact Hs|].
  apply (proj1 (store_stays_sound empty_store sound_empty)
           (lit "blob") (ascii_bytes "hi") a st').
  - decide_vm.
  - exact Hs.
  - by_vm.
Defined.


Lemma objects_stay_witness :
  let a := lit "32f95c0d1244a78b2be1bab8de17906fabb2c4a8" in
  let st := puts [(lit "blob", ascii_bytes "hi")] empty_store in
  exists b st',
    store_object st (lit "blob") (ascii_bytes "hello") = Ok (b, st')
    /\ retrieve_object st' a = Ok (lit "blob", ascii_bytes "hi").
Proof.
  intros a st.
  destruct (store_object_Ok st (lit "blob") (ascii_bytes "hello"))
    as (b & st' & Hs); [decide_vm|].
  exists b, st'. split; [exact Hs|].
  apply (proj2 (proj1 (objects_stay st) _ _ _ _ Hs)). by_vm.
Defined.

(** ** Trees: what the address depends on *)

(** X11. [create_tree_from_directory] is the build without a store,
    [tree_of], followed by the puts of its objects in their order. So the
    tree address that it gives, or the exception that it raises, is the
    same from any two stores: it depends on the directory alone. An
    address that it gives is a digest of 40 hexadecimal digits. *)
Theorem create_tree_address_independent (GIT_DIR : str) (directory : node)
    (name : str) (st1 st2 : store) :
  create_tree_from_directory GIT_DIR directory name st1
  = bind (tree_of GIT_DIR directory name)
         (fun r => Ok (fst r, puts (snd r) st1))
  /\ bind (create_tree_from_directory GIT_DIR directory name st1)
          (fun r => Ok (fst r))
     = bind (create_tree_from_directory GIT_DIR directory name st2)
            (fun r => Ok (fst r))
  /\ forall h st',
       create_tree_from_directory GIT_DIR directory name st1
       = Ok (Some h, st') ->
       address h.
Proof.
  split; [apply create_tree_plan|]. split.
  - rewrite !create_tree_plan.
    now destruct (tree_of GIT_DIR directory name) as [[h objs]|e].
  - intros h st' H.
    apply create_tree_stored in H as (tree_content & _ & Hh & _).
    unfold _hash_content in Hh. apply bind_Ok in Hh as (hb & _ & [= <-]).
    apply sha1_hexdigest_address.
Qed.

Lemma str_le_trans (a b c : str) :
  str_lt b a = false -> str_lt c b = false -> str_lt c a = false.
Proof.
  intros Hba Hcb. destruct (str_lt c a) eqn:Hca; [|reflexivity].
  pose proof (str_le_lt_trans _ _ _ Hcb Hca) as H. congruence.
Qed.

Section InOrder.
Context {A : Type} (key : A -> str).

Lemma insert_sorted_in_order (x : A) (l : list A) :
  in_order key l -> in_order key (insert_sorted key x l).
Proof.
  induction l as [|y l IH]; cbn [insert_sorted in_order].
  - intros _. split; [constructor|exact I].
  - intros [Hy Hl]. destruct (str_lt (key y) (key x)) eqn:Elt;
      cbn [in_order].
    + split; [|now apply IH].
      apply Forall_insert_sorted; [|exact Hy]. now apply str_lt_asym.
    + split; [|split; assumption]. constructor; [exact Elt|].
      eapply Forall_impl; [exact Hy|]. intros z Hz. cbn beta in Hz.
      now apply (str_le_trans _ (key y)).
Qed.

Lemma sorted_in_order (l : list A) : in_order key (sorted key l).
Proof.
  induction l as [|x l IH]; [exact I|]. now apply insert_sorted_in_order.
Qed.

(** Sorting leaves a list alone that is in order. *)
Lemma sorted_id (l : list A) : in_order key l -> sorted key l = l.
Proof.
  induction l as [|x l IH]; [reflexivity|]. intros [Hx Hl].
  cbn [sorted foldr]. fold (sorted key l). rewrite IH by assumption.
  destruct Hx as [|y l' Hy _]; [reflexivity|]. cbn [insert_sorted].
  now rewrite Hy.
Qed.

Lemma in_order_filter (keep : A -> bool) (l : list A) :
  in_order key l -> in_order key (List.filter keep l).
Proof.
  induction l as [|x l IH]; [exact id|]. intros [Hx Hl].
  cbn [List.filter]. destruct (keep x); [|now apply IH].
  split; [|now apply IH].
  apply Forall_forall. intros y Hy.
  apply list_elem_of_In, filter_In in Hy as [Hy _].
  rewrite Forall_forall in Hx. now apply Hx, list_elem_of_In.
Qed.

Lemma filter_insert_sorted (keep : A -> bool) (x : A) (l : list A) :
  in_order key l ->
  List.filter keep (insert_sorted key x l)
  = if keep x then insert_sorted key x (List.filter keep l)
    else List.filter keep l.
Proof.
  induction l as [|y l IH]; cbn [insert_sorted List.filter].
  - now destruct (keep x).
  - intros [Hy Hl]. destruct (str_lt (key y) (key x)) eqn:Elt;
      cbn [List.filter].
    + rewrite IH by assumption.
      destruct (keep y), (keep x); cbn [insert_sorted]; rewrite ?Elt;
        reflexivity.
    + destruct (keep x); [|reflexivity].
      assert (Hall : Forall (fun z => str_lt (key z) (key x) = false)
                            (List.filter keep (y :: l))).
      { apply Forall_forall. intros z Hz.
        apply list_elem_of_In, filter_In in Hz as [Hz _].
        destruct Hz as [<-|Hz]; [exact Elt|].
        apply (str_le_trans _ (key y)); [exact Elt|].
        rewrite Forall_forall in Hy. now apply Hy, list_elem_of_In. }
      change (if keep y then y :: List.filter keep l
              else List.filter keep l)
        with (List.filter keep (y :: l)).
      destruct (List.filter keep (y :: l)) as [|z m]; [reflexivity|].
      cbn [insert_sorted]. apply Forall_cons in Hall as [Hz _].
      now rewrite Hz.
Qed.

(** Sorting and leaving items out come to the same in either order. *)
Lemma sorted_filter (keep : A -> bool) (l : list A) :
  sorted key (List.filter keep l) = List.filter keep (sorted key l).
Proof.
  induction l as [|x l IH]; [reflexivity|]. cbn [List.filter sorted foldr].
  fold (sorted key l).
  rewrite filter_insert_sorted by apply sorted_in_order.
  destruct (keep x); [|exact IH]. cbn [sorted foldr].
  fold (sorted key (List.filter keep l)). now rewrite IH.
Qed.
End InOrder.

Lemma collect_entries_filter (keep : str * (node * builder) -> bool)
    (items : list (str * (node * builder))) :
  Forall (fun i => keep i = false -> skipped i) items ->
  forall (st : store) (entries : list entry),
    collect_entries (List.filter keep items) st entries
    = collect_entries items st entries.
Proof.
  induction 1 as [|[name [item build]] items Hi _ IH]; intros st entries;
    [reflexivity|].
  cbn [List.filter]. destruct (keep (name, (item, build))) eqn:Ek.
  - cbn [collect_entries]. destruct (starts_with (lit ".") name); [apply IH|].
    destruct item as [content st_mode|children|].
    + destruct (store_object st (lit "blob") content) as [[h st1]|e];
        [|reflexivity].
      cbn [bind]. apply IH.
    + destruct (build name st) as [[h st1]|e]; [|reflexivity].
      cbn [bind]. destruct (truthy h); apply IH.
    + apply IH.
  - rewrite IH. symmetry.
    change (collect_entries ((name, (item, build)) :: items) st entries)
      with (collect_entries ([(name, (item, build))] ++ items) st entries).
    specialize (Hi eq_refl). cbn [app collect_entries].
    destruct (starts_with (lit ".") name) eqn:Hdot; [reflexivity|].
    destruct Hi as [Hi|Hi]; [congruence|].
    destruct item as [content st_mode|children|];
      [contradiction|now rewrite Hi|reflexivity].
Qed.

Lemma leads_nowhere_skipped (GIT_DIR : str) (c : str * node) :
  leads_nowhere GIT_DIR c = true ->
  skipped (fst c, (snd c, create_tree_from_directory GIT_DIR (snd c))).
Proof.
  destruct c as [name item]. unfold leads_nowhere, skipped. cbn [fst snd].
  intros H. apply orb_true_iff in H as [H|H]; [now left|right].
  destruct item as [content st_mode|children|]; [discriminate| |exact I].
  intros st. apply orb_true_iff in H as [H|H].
  - apply bool_decide_eq_true in H. rewrite create_tree_Dir.
    now rewrite decide_True.
  - now apply create_tree_hollow.
Qed.

(** X12. The build of a directory does not depend on the order in which
    the directory lists its children, which have distinct names; nor on
    the children that lead to no entry, the hidden ones, those that are
    neither file nor directory and the directories without an entry:
    with or without them the address and the store come out the same. *)
Theorem create_tree_visible_only (GIT_DIR : str)
    (children : list (str * node)) (name : str) (st : store) :
  (forall children',
      Permutation children children' -> NoDup (map fst children) ->
      create_tree_from_directory GIT_DIR (Dir children') name st
      = create_tree_from_directory GIT_DIR (Dir children) name st)
  /\ create_tree_from_directory GIT_DIR
       (Dir (List.filter (fun c => negb (leads_nowhere GIT_DIR c)) children))
       name st
     = create_tree_from_directory GIT_DIR (Dir children) name st.
Proof.
  split.
  - intros children' Hp Hnd. rewrite !create_tree_Dir.
    assert (Hs : sorted fst (items_of GIT_DIR children')
                 = sorted fst (items_of GIT_DIR children)).
    { symmetry. apply sorted_Permutation.
      - unfold items_of. now apply Permutation_map.
      - unfold items_of. rewrite map_map. exact Hnd. }
    now rewrite Hs.
  - rewrite !create_tree_Dir.
    assert (Hs : sorted fst
                   (items_of GIT_DIR
                      (List.filter (fun c => negb (leads_nowhere GIT_DIR c))
                                   children))
                 = List.filter
                     (fun i : str * (node * builder) =>
                        negb (leads_nowhere GIT_DIR (fst i, fst (snd i))))
                     (sorted fst (items_of GIT_DIR children))).
    { rewrite <- sorted_filter. f_equal. unfold items_of.
      induction children as [|[cname item] children IH]; [reflexivity|].
      cbn [List.filter map fst snd].
      destruct (leads_nowhere GIT_DIR (cname, item)); cbn [negb map];
        now rewrite IH. }
    rewrite Hs, collect_entries_filter; [reflexivity|].
    apply Forall_sorted. unfold items_of. apply Forall_map.
    apply Forall_forall. intros [cname item] _ Hk. cbn [fst snd] in Hk.
    apply negb_false_iff in Hk.
    exact (leads_nowhere_skipped GIT_DIR (cname, item) Hk).
Qed.

Lemma create_tree_visible_only_witness :
  let a := (lit "a.txt", File (ascii_bytes "hi") 420) in
  let b := (lit "b", Dir [(lit "c", File (ascii_bytes "hello") 493)]) in
  let hidden := (lit ".hidden", File (ascii_bytes "secret") 420) in
  let empty := (lit "empty", Dir []) in
  create_tree_from_directory (lit ".git") (Dir [b; a]) (lit "") empty_store
  = create_tree_from_directory (lit ".git") (Dir [a; b]) (lit "") empty_store
  /\ create_tree_from_directory (lit ".git") (Dir [a; b]) (lit "") empty_store
     = create_tree_from_directory (lit ".git") (Dir [hidden; a; empty; b])
         (lit "") empty_store.
Proof.
  intros a b hidden empty. split.
  - apply (proj1 (create_tree_visible_only (lit ".git") [a; b] (lit "")
                    empty_store)).
    + apply perm_swap.
    + decide_vm.
  - exact (proj2 (create_tree_visible_only (lit ".git")
                    [hidden; a; empty; b] (lit "") empty_store)).
Defined.

(** ** Trees: hexadecimal addresses and records *)

Lemma hex_digit_value (v : N) :
  v < 16 ->
  hex_value (hex_digit v) = Some v /\ is_ascii_space (hex_digit v) = false.
Proof.
  intros Hv. unfold hex_digit, hex_value, is_ascii_space.
  destruct (N.ltb_spec v 10).
  - repeat match goal with
           | |- context [?a <=? ?b] => destruct (N.leb_spec a b); try lia
           | |- context [?a =? ?b] => destruct (N.eqb_spec a b); try lia
           end.
    cbn [andb orb]. split; [f_equal; lia|reflexivity].
  - repeat match goal with
           | |- context [?a <=? ?b] => destruct (N.leb_spec a b); try lia
           | |- context [?a =? ?b] => destruct (N.eqb_spec a b); try lia
           end.
    cbn [andb orb]. split; [f_equal; lia|reflexivity].
Qed.

(** bytes.fromhex() undoes bytes.hex(). *)
Lemma fromhex_hex (b : bytes) : fromhex (hex b) = Ok b.
Proof.
  induction b as [|x b IH]; [reflexivity|].
  pose proof (Byte.to_N_bounded x) as Hx.
  change (hex (x :: b))
    with (hex_digit (Byte.to_N x / 16) :: hex_digit (Byte.to_N x mod 16)
          :: hex b).
  destruct (hex_digit_value (Byte.to_N x / 16)) as [Hv1 Hs1]; [lia|].
  destruct (hex_digit_value (Byte.to_N x mod 16)) as [Hv2 _]; [lia|].
  cbn [fromhex]. rewrite Hs1, Hv1, Hv2, IH. cbn [bind].
  replace (16 * (Byte.to_N x / 16) + Byte.to_N x mod 16) with (Byte.to_N x)
    by lia.
  now rewrite byte_of_N_to_N.
Qed.

Lemma lower_hex_digit (c : N) :
  lower_hex c = true -> exists v, v < 16 /\ hex_digit v = c.
Proof.
  unfold lower_hex. intros H.
  apply orb_true_iff in H as [H|H]; apply andb_true_iff in H as [H1 H2];
    apply N.leb_le in H1; apply N.leb_le in H2.
  - exists (c - 48). split; [lia|]. unfold hex_digit.
    destruct (N.ltb_spec (c - 48) 10); lia.
  - exists (c - 87). split; [lia|]. unfold hex_digit.
    destruct (N.ltb_spec (c - 87) 10); lia.
Qed.

(** Lower-case hexadecimal digits in pairs are the hex() of some bytes. *)
Lemma unhex (n : nat) (a : str) :
  Forall (fun c => lower_hex c = true) a -> length a = (2 * n)%nat ->
  exists b, hex b = a /\ length b = n.
Proof.
  revert a. induction n as [|n IH]; intros a Ha Hlen.
  - destruct a; [|discriminate]. now exists [].
  - destruct a as [|c [|d a]]; try (cbn in Hlen; lia).
    apply Forall_cons in Ha as [Hc Ha]. apply Forall_cons in Ha as [Hd Ha].
    destruct (IH a Ha) as (b & Hb & Hn); [cbn in Hlen; lia|].
    destruct (lower_hex_digit c Hc) as (v1 & Hv1 & <-).
    destruct (lower_hex_digit d Hd) as (v2 & Hv2 & <-).
    exists (byte_of_N (16 * v1 + v2) :: b). split; [|cbn; now rewrite Hn].
    cbn [hex flat_map hex_byte app]. fold (hex b).
    rewrite to_N_byte_of_N by lia. rewrite Hb.
    replace ((16 * v1 + v2) / 16) with v1 by lia.
    replace ((16 * v1 + v2) mod 16) with v2 by lia.
    reflexivity.
Qed.

Lemma address_unhex (a : str) :
  address a -> exists h, hex h = a /\ length h = 20%nat.
Proof. intros [Hlen Hhex]. now apply unhex. Qed.

(** The bytes that the entries add to a tree are those of their
    records. *)
Lemma append_entries_records (es : list entry)
    (rs : list (str * str * bytes)) :
  Forall2 is_record es rs ->
  forall content,
    append_entries es content
    = bind (tree_bytes rs) (fun b => Ok (content ++ b)).
Proof.
  induction 1 as [|[[[mode ty] obj_hash] name] [[mode' name'] h] es rs
                   (-> & -> & ->) _ IH]; intros content.
  - cbn. now rewrite app_nil_r.
  - cbn [append_entries tree_bytes record_bytes].
    change (mode ++ lit " " ++ name ++ NUL) with (mode ++ (32 :: name ++ [0])).
    replace (mode ++ 32 :: name ++ [0]) with ((mode ++ 32 :: name) ++ [0])
      by now rewrite <- app_assoc.
    rewrite encode_app.
    destruct (encode (mode ++ 32 :: name)) as [header|e]; [|reflexivity].
    change (encode [0]) with (Ok [x00]). cbn [bind].
    rewrite fromhex_hex. cbn [bind]. rewrite IH.
    destruct (tree_bytes rs) as [bs|e]; [|reflexivity].
    cbn [bind]. now rewrite <- !app_assoc.
Qed.

(** Proper entries have proper records. *)
Lemma proper_entries_records (es : list entry) :
  Forall proper_entry es ->
  exists rs, Forall2 is_record es rs /\ Forall proper rs.
Proof.
  induction 1 as [|[[[mode ty] obj_hash] name] es [Hhd Ha] _ (rs & Hrs & Hp)].
  - exists []. split; constructor.
  - destruct (address_unhex _ Ha) as (h & <- & Hlen).
    exists ((mode, name, h) :: rs). split; constructor; try assumption.
    + now repeat split.
    + now split.
Qed.

Lemma Forall_insert_sorted_iff {A : Type} (key : A -> str) (P : A -> Prop)
    (x : A) (l : list A) :
  Forall P (insert_sorted key x l) -> P x /\ Forall P l.
Proof.
  induction l as [|y l IH]; cbn [insert_sorted].
  - intros H. now apply Forall_cons in H.
  - destruct (str_lt (key y) (key x)).
    + intros H. apply Forall_cons in H as [Hy H]. apply IH in H as [Hx Hl].
      split; [exact Hx|now constructor].
    + intros H. now apply Forall_cons in H.
Qed.

(** ** Trees: listing *)

(** The loop of [ls_tree] looks only at the bytes from its offset on. *)
Lemma ls_entries_shift (pre rest : bytes) (fuel o : nat)
    (out : list printed) :
  PyGitTree.ls_entries (pre ++ rest) fuel (length pre + o) out
  = PyGitTree.ls_entries rest fuel o out.
Proof.
  revert o out. induction fuel as [|fuel IH]; intros o out.
  - simpl. rewrite length_app.
    destruct (Nat.ltb_spec (length pre + o) (length pre + length rest)),
      (Nat.ltb_spec o (length rest)); try reflexivity; lia.
  - cbn [PyGitTree.ls_entries]. rewrite length_app.
    destruct (Nat.ltb_spec (length pre + o) (length pre + length rest)),
      (Nat.ltb_spec o (length rest)); try reflexivity; try lia.
    rewrite find_from_shift.
    destruct (find_from x00 o rest) as [p|]; [|reflexivity].
    cbn [fmap option_fmap option_map].
    rewrite slice_shift.
    destruct (bind (decode (slice o p rest)) _) as [[mode name]|];
      [|reflexivity].
    replace (length pre + p + 1)%nat with (length pre + (p + 1))%nat by lia.
    replace (length pre + p + 21)%nat with (length pre + (p + 21))%nat by lia.
    rewrite slice_shift. apply IH.
Qed.

(** One record at the head of the buffer gives one line. *)
Lemma ls_entries_record (mode ty name : str) (h header rest : bytes)
    (fuel : nat) (out : list printed) :
  encode (mode ++ 32 :: name) = Ok header ->
  proper_header mode name -> length h = 20%nat ->
  PyGitTree.ls_entries (header ++ x00 :: h ++ rest) (S fuel) 0 out
  = PyGitTree.ls_entries rest fuel 0
      (out ++ [ls_line (mode, ty, hex h, name)]).
Proof.
  intros He (H32 & Hm0 & Hn0) Hh. cbn [PyGitTree.ls_entries].
  assert (Hnul : x00 ∉ header).
  { eapply encode_no_nul; [exact He|].
    rewrite elem_of_app, elem_of_cons. intros [?|[?|?]]; [tauto|lia|tauto]. }
  rewrite length_app. cbn [length].
  destruct (Nat.ltb_spec 0 (length header + S (length (h ++ rest))));
    [|lia].
  rewrite find_from_app by assumption.
  rewrite slice_prefix, (decode_encode _ _ He). cbn [bind].
  rewrite split1_app by assumption. cbn [unpack2].
  assert (Hs : slice (length header + 1) (length header + 21)
                 (header ++ x00 :: h ++ rest) = h).
  { rewrite slice_shift. unfold slice. cbn [skipn]. rewrite ?skipn_O.
    replace (21 - 1)%nat with 20%nat by reflexivity.
    now rewrite firstn_app, Hh, Nat.sub_diag, firstn_O, app_nil_r,
      <- Hh, firstn_all. }
  rewrite Hs.
  replace (header ++ x00 :: h ++ rest) with ((header ++ x00 :: h) ++ rest)
    by (rewrite <- app_assoc; reflexivity).
  replace (length header + 21)%nat with (length (header ++ x00 :: h) + 0)%nat
    by (rewrite length_app; cbn [length]; lia).
  rewrite ls_entries_shift. reflexivity.
Qed.

Lemma ls_entries_records (es : list entry) (rs : list (str * str * bytes)) :
  Forall2 is_record es rs -> Forall proper rs ->
  forall (content : bytes) (fuel : nat) (out : list printed),
    tree_bytes rs = Ok content -> (length rs <= fuel)%nat ->
    PyGitTree.ls_entries content fuel 0 out
    = Some (out ++ map ls_line es, Ok tt).
Proof.
  induction 1 as [|[[[mode ty] obj_hash] name] [[mode' name'] h] es rs
                   (-> & -> & ->) _ IH];
    intros Hp content fuel out Hb Hfuel.
  - injection Hb as <-. rewrite app_nil_r. now destruct fuel.
  - apply Forall_cons in Hp as [[Hhd Hlen] Hp].
    cbn [tree_bytes record_bytes] in Hb.
    apply bind_Ok in Hb as (b & Hb1 & Hb).
    apply bind_Ok in Hb1 as (header & He & [= <-]).
    apply bind_Ok in Hb as (bs & Hbs & [= <-]).
    destruct fuel as [|fuel]; [cbn in Hfuel; lia|].
    replace ((header ++ x00 :: h) ++ bs) with (header ++ x00 :: h ++ bs)
      by (rewrite <- !app_assoc; reflexivity).
    rewrite (ls_entries_record mode ty name h header bs fuel out He Hhd Hlen).
    rewrite (IH Hp bs fuel _ Hbs) by (cbn in Hfuel; lia).
    cbn [map]. now rewrite <- app_assoc.
Qed.

Lemma proper_entry_sorted (es : list entry) :
  Forall proper_entry es -> Forall proper_entry (sorted entry_name es).
Proof. apply Forall_sorted. Qed.

(** X13. [ls_tree] of a stored tree whose content was built from entries
    with modes and names that read back and with addresses for hashes
    prints one line for each entry, in the order of the names, with the
    mode, the kind that the mode tells, the address, a tab and the name;
    as many rounds as there are entries suffice. An object of another
    kind gives the line that it is not a tree, and a failing
    [retrieve_object] the error line of its exception. *)
Theorem ls_tree_lists (st : store) (tree_hash : str) :
  (forall (entries : list entry) (content : bytes) (fuel : nat),
      Forall proper_entry entries ->
      _build_tree_content entries = Ok content ->
      retrieve_object st tree_hash = Ok (lit "tree", content) ->
      (length entries <= fuel)%nat ->
      PyGitTree.ls_tree st fuel tree_hash
      = Some (map ls_line (sorted entry_name entries)))
  /\ (forall (kind : str) (content : bytes) (fuel : nat),
        retrieve_object st tree_hash = Ok (kind, content) ->
        kind <> lit "tree" ->
        PyGitTree.ls_tree st fuel tree_hash
        = Some [Line (lit "Error: Object " ++ tree_hash
                      ++ lit " is not a tree")])
  /\ (forall (e : exn) (fuel : nat),
        retrieve_object st tree_hash = Raise e ->
        PyGitTree.ls_tree st fuel tree_hash = Some [ErrorLine e]).
Proof.
  split; [|split].
  - intros entries content fuel Hp Hb Hr Hfuel. unfold PyGitTree.ls_tree.
    rewrite Hr. rewrite decide_False by (intros H; now apply H).
    destruct (proper_entries_records _ (proper_entry_sorted _ Hp))
      as (rs & Hrs & Hprs).
    unfold _build_tree_content in Hb.
    rewrite (append_entries_records _ _ Hrs) in Hb.
    apply bind_Ok in Hb as (b & Hb & [= <-]). cbn [app].
    rewrite (ls_entries_records _ _ Hrs Hprs b fuel [] Hb); [reflexivity|].
    rewrite <- (Forall2_length _ _ _ Hrs), length_sorted. exact Hfuel.
  - intros kind content fuel Hr Hk. unfold PyGitTree.ls_tree.
    rewrite Hr. now rewrite decide_True.
  - intros e fuel Hr. unfold PyGitTree.ls_tree. now rewrite Hr.
Qed.

Lemma ls_tree_lists_witness :
  let h := lit "32f95c0d1244a78b2be1bab8de17906fabb2c4a8" in
  let entries : list entry :=
    [(lit "40000", lit "tree", h, lit "lib");
     (lit "100644", lit "blob", h, lit "a.txt")] in
  exists content tree_hash st',
    _build_tree_content entries = Ok content
    /\ store_object empty_store (lit "tree") content = Ok (tree_hash, st')
    /\ PyGitTree.ls_tree st' 2 tree_hash
       = Some [Line (lit "100644 blob " ++ h ++ [9] ++ lit "a.txt");
               Line (lit "40000 tree " ++ h ++ [9] ++ lit "lib")].
Proof.
  intros h entries.
  destruct (_build_tree_content entries) as [content|e] eqn:Hb;
    [|vm_compute in Hb; discriminate].
  destruct (store_object_Ok empty_store (lit "tree") content)
    as (tree_hash & st' & Hs); [decide_vm|].
  exists content, tree_hash, st'. split; [reflexivity|]. split; [exact Hs|].
  rewrite (proj1 (ls_tree_lists st' tree_hash) entries content 2%nat).
  - by_vm.
  - assert (Ha : address h) by (split; [reflexivity|decide_vm]).
    repeat constructor; try exact Ha; decide_vm.
  - exact Hb.
  - eapply retrieve_stored; [| | |exact Hs|apply lookup_empty]; decide_vm.
  - cbn. lia.
Defined.

(** ** Trees: which directories have a tree *)

Lemma hash_content_kind (kind : str) (content : bytes) :
  kind ∈ kinds -> _hash_content kind content = Ok (address_of (kind, content)).
Proof.
  intros Hk. destruct (encode_framed kind content Hk) as (hb & Hh & _ & Hf).
  unfold _hash_content. rewrite Hh. cbn [bind]. now rewrite Hf.
Qed.

Lemma blob_kind : lit "blob" ∈ kinds.
Proof. unfold kinds. rewrite !elem_of_cons. auto. Qed.

Lemma tree_kind : lit "tree" ∈ kinds.
Proof. unfold kinds. rewrite !elem_of_cons. auto. Qed.

Lemma commit_kind : lit "commit" ∈ kinds.
Proof. unfold kinds. rewrite !elem_of_cons. auto. Qed.

Lemma address_truthy (a : str) : address a -> truthy (Some a) = true.
Proof. intros [Hlen _]. destruct a; [discriminate|reflexivity]. Qed.

Lemma forallb_insert_sorted {A : Type} (key : A -> str) (p : A -> bool)
    (x : A) (l : list A) :
  forallb p (insert_sorted key x l) = p x && forallb p l.
Proof.
  induction l as [|y l IH]; cbn [insert_sorted forallb]; [reflexivity|].
  destruct (str_lt (key y) (key x)); cbn [forallb]; [|reflexivity].
  rewrite IH. now destruct (p x), (p y).
Qed.

Lemma forallb_sorted {A : Type} (key : A -> str) (p : A -> bool)
    (l : list A) :
  forallb p (sorted key l) = forallb p l.
Proof.
  induction l as [|x l IH]; [reflexivity|]. cbn [sorted foldr forallb].
  fold (sorted key l). now rewrite forallb_insert_sorted, IH.
Qed.

(** The loop adds an entry exactly when a child leads somewhere. *)
Lemma gather_entries (GIT_DIR : str) (l : list (str * node)) :
  Forall (fun c : str * node =>
            forall name sh objs,
              tree_of GIT_DIR (snd c) name = Ok (sh, objs) ->
              truthy sh
              = negb (bool_decide (name = GIT_DIR) || hollow GIT_DIR (snd c)))
         l ->
  forall entries0 objs0 entries objs,
    gather
      (map (fun c : str * node => (fst c, (snd c, tree_of GIT_DIR (snd c)))) l)
      entries0 objs0 = Ok (entries, objs) ->
    exists E,
      entries = entries0 ++ E
      /\ (E = [] <-> forallb (leads_nowhere GIT_DIR) l = true).
Proof.
  induction 1 as [|[name item] l Hc _ IH];
    intros entries0 objs0 entries objs H.
  - injection H as <- <-. exists []. now rewrite app_nil_r.
  - cbn [map fst snd gather] in H. cbn [forallb].
    unfold leads_nowhere at 1. cbn [fst snd] in *.
    destruct (starts_with (lit ".") name); [exact (IH _ _ _ _ H)|].
    cbn [orb]. destruct item as [content st_mode|children|].
    + apply bind_Ok in H as (h & _ & H).
      destruct (IH _ _ _ _ H) as (E & -> & _).
      eexists. rewrite <- app_assoc. split; [reflexivity|].
      cbn [andb app]. split; discriminate.
    + apply bind_Ok in H as ([sh sub] & Hsub & H).
      rewrite <- (negb_involutive (_ || _)), <- (Hc _ _ _ Hsub).
      destruct (truthy sh).
      * destruct (IH _ _ _ _ H) as (E & -> & _).
        eexists. rewrite <- app_assoc. split; [reflexivity|].
        cbn [negb andb app]. split; discriminate.
      * exact (IH _ _ _ _ H).
    + exact (IH _ _ _ _ H).
Qed.

(** A directory has a tree exactly when it is not named [GIT_DIR] and is
    not hollow, and then the tree has an address. *)
Lemma tree_of_cases (GIT_DIR : str) (directory : node) :
  forall name sh objs,
    tree_of GIT_DIR directory name = Ok (sh, objs) ->
    if bool_decide (name = GIT_DIR) || hollow GIT_DIR directory
    then sh = None
    else exists h, sh = Some h /\ address h.
Proof.
  induction directory as [content st_mode|children IH|] using node_ind';
    intros name sh objs H; cbn [tree_of] in H.
  - destruct (decide (name = GIT_DIR)); [|discriminate].
    rewrite bool_decide_eq_true_2 by assumption. now injection H as <- _.
  - destruct (decide (name = GIT_DIR)) as [Hn|Hn].
    { rewrite bool_decide_eq_true_2 by assumption. now injection H as <- _. }
    rewrite bool_decide_eq_false_2 by assumption. cbn [orb].
    apply bind_Ok in H as ([entries objs0] & Hg & H).
    rewrite (sorted_map
               (fun c : str * node => (fst c, (snd c, tree_of GIT_DIR (snd c))))
               fst fst) in Hg by reflexivity.
    apply gather_entries in Hg as (E & -> & HE).
    2:{ apply Forall_sorted. eapply Forall_impl; [exact IH|].
        intros c Hc cname sh' objs' Ht. specialize (Hc _ _ _ Ht).
        destruct (bool_decide (cname = GIT_DIR) || hollow GIT_DIR (snd c)).
        - now subst sh'.
        - destruct Hc as (h & -> & Ha). now apply address_truthy. }
    rewrite forallb_sorted in HE.
    change (hollow GIT_DIR (Dir children))
      with (forallb (leads_nowhere GIT_DIR) children).
    cbn [app] in H. destruct E as [|e E].
    + rewrite (proj1 HE eq_refl). now injection H as <- _.
    + destruct (forallb (leads_nowhere GIT_DIR) children);
        [discriminate (proj2 HE eq_refl)|].
      apply bind_Ok in H as (tree_content & _ & H).
      apply bind_Ok in H as (tree_hash & Hh & [= <- _]).
      exists tree_hash. split; [reflexivity|].
      rewrite (hash_content_kind _ _ tree_kind) in Hh. injection Hh as <-.
      apply sha1_hexdigest_address.
  - destruct (decide (name = GIT_DIR)); [|discriminate].
    rewrite bool_decide_eq_true_2 by assumption. now injection H as <- _.
Qed.

(** X14. When [create_tree_from_directory] returns, it returns None
    exactly for a directory that is named [GIT_DIR] or is hollow, that is,
    leads only to hidden names, to what is neither file nor directory and
    to such directories again; it has then stored nothing. For every
    other directory it returns a tree address. *)
Theorem create_tree_none_iff (GIT_DIR : str) (directory : node)
    (name : str) (st st' : store) (h : option str) :
  create_tree_from_directory GIT_DIR directory name st = Ok (h, st') ->
  (h = None <-> name = GIT_DIR \/ hollow GIT_DIR directory = true)
  /\ (h = None -> st' = st)
  /\ (h <> None -> exists a, h = Some a /\ address a).
Proof.
  intros H.
  assert (Hnone : name = GIT_DIR \/ hollow GIT_DIR directory = true ->
                  h = None /\ st' = st).
  { intros [Hn|Hh].
    - destruct directory; cbn [create_tree_from_directory] in H;
        rewrite decide_True in H by assumption; now injection H as <- <-.
    - rewrite (create_tree_hollow _ _ Hh) in H. now injection H as <- <-. }
  rewrite create_tree_plan in H.
  apply bind_Ok in H as ([sh objs] & Ht & [= <- <-]).
  apply tree_of_cases in Ht.
  destruct (bool_decide (name = GIT_DIR)) eqn:En;
    [apply bool_decide_eq_true in En|apply bool_decide_eq_false in En].
  - cbn [orb] in Ht. subst sh. destruct (Hnone (or_introl En)) as [_ Hst].
    split; [tauto|]. split; [now intros _|congruence].
  - cbn [orb] in Ht. destruct (hollow GIT_DIR directory) eqn:Eh.
    + subst sh. destruct (Hnone (or_intror eq_refl)) as [_ Hst].
      split; [tauto|]. split; [now intros _|congruence].
    + destruct Ht as (a & -> & Ha). split; [|split].
      * split; [discriminate|]. intros [?|?]; [contradiction|discriminate].
      * discriminate.
      * eauto.
Qed.

Lemma create_tree_none_iff_witness :
  let hidden := (lit ".hidden", File (ascii_bytes "secret") 420) in
  let directory := Dir [hidden; (lit "empty", Dir [hidden])] in
  create_tree_from_directory (lit ".git") directory (lit "") empty_store
  = Ok (None, empty_store)
  /\ hollow (lit ".git") directory = true.
Proof.
  intros hidden directory.
  assert (H : create_tree_from_directory (lit ".git") directory (lit "")
                empty_store = Ok (None, empty_store)) by by_vm.
  split; [exact H|].
  destruct (create_tree_none_iff _ _ _ _ _ _ H) as [Hiff _].
  destruct (proj1 Hiff eq_refl) as [Hn|Hh]; [discriminate|exact Hh].
Defined.

(** ** The object store: a sequence of puts *)

Lemma store_object_holds (st st' : store) (kind : str) (content : bytes)
    (a : str) :
  kind ∈ kinds ->
  files st !! _object_path (address_of (kind, content)) = None
  \/ holds st (kind, content) ->
  store_object st kind content = Ok (a, st') ->
  holds st' (kind, content).
Proof.
  intros Hk Hfree Hs. rewrite (store_object_kind st kind content Hk) in Hs.
  injection Hs as <- <-. unfold holds.
  destruct (exists_ st _) eqn:Ex.
  - destruct Hfree as [Hfree|Hh]; [|exact Hh].
    apply exists_true in Ex as [f Hf]. congruence.
  - apply retrieve_framed; [exact Hk|].
    cbn [write_bytes files]. apply lookup_insert_eq.
Qed.

(** Every object of a sequence of puts is given back afterwards, when no
    two of them share an address and each address was free or held its
    object already. *)
Lemma puts_hold_all (ops : list (str * bytes)) :
  Forall (fun o : str * bytes => fst o ∈ kinds) ops ->
  (forall o1 o2, o1 ∈ ops -> o2 ∈ ops ->
                 address_of o1 = address_of o2 -> o1 = o2) ->
  forall st : store,
    (forall o, o ∈ ops ->
               files st !! _object_path (address_of o) = None \/ holds st o) ->
    forall o, o ∈ ops -> holds (puts ops st) o.
Proof.
  induction 1 as [|[kind content] ops Hk _ IH]; intros Hinj st Hfree o Ho.
  - now apply elem_of_nil in Ho.
  - cbn [fst] in Hk. cbn [puts].
    destruct (store_object_Ok st kind content (kinds_scalar _ Hk))
      as (a & st1 & Hs).
    rewrite Hs.
    assert (H0 : holds st1 (kind, content)).
    { apply (store_object_holds st st1 kind content a Hk); [|exact Hs].
      apply Hfree. apply list_elem_of_here. }
    apply elem_of_cons in Ho as [->|Ho].
    + unfold holds. apply (retrieve_kept st1); [apply puts_keeps|exact H0].
    + apply IH; [| |exact Ho].
      * intros o1 o2 H1 H2. apply Hinj; now apply list_elem_of_further.
      * intros o' Ho'.
        destruct (decide (address_of o' = address_of (kind, content)))
          as [E|E].
        -- right.
           rewrite (Hinj o' (kind, content)
                      (list_elem_of_further _ _ _ Ho')
                      (list_elem_of_here _ _) E).
           exact H0.
        -- assert (Hsame : files st1 !! _object_path (address_of o')
                           = files st !! _object_path (address_of o')).
           { rewrite (store_object_kind st kind content Hk) in Hs.
             injection Hs as _ <-. destruct (exists_ st _); [reflexivity|].
             cbn [write_bytes files]. apply lookup_insert_ne.
             intros Hp. apply E. symmetry. now apply object_path_inj. }
           destruct (Hfree o' (list_elem_of_further _ _ _ Ho')) as [Hn|Hh].
           ++ left. now rewrite Hsame.
           ++ right. unfold holds in *. rewrite <- Hh.
              now apply retrieve_object_ext.
Qed.

(** X15. After a sequence of puts of objects of the kinds blob, tree and
    commit the store gives back every one of them at its address, when
    no two distinct objects of the sequence share an address and each
    address was free at the start or held its object already. *)
Theorem puts_hold (ops : list (str * bytes)) (st : store) :
  Forall (fun o : str * bytes => fst o ∈ kinds) ops ->
  (forall o1 o2, o1 ∈ ops -> o2 ∈ ops ->
                 address_of o1 = address_of o2 -> o1 = o2) ->
  (forall o, o ∈ ops ->
             files st !! _object_path (address_of o) = None \/ holds st o) ->
  forall o, o ∈ ops ->
    retrieve_object (puts ops st) (address_of o) = Ok o.
Proof.
  intros Hk Hinj Hfree o Ho. exact (puts_hold_all ops Hk Hinj st Hfree o Ho).
Qed.

Lemma puts_hold_witness :
  let hi := (lit "blob", ascii_bytes "hi") in
  let hello := (lit "blob", ascii_bytes "hello") in
  retrieve_object (puts [hi; hello; hi] empty_store) (address_of hello)
  = Ok hello.
Proof.
  intros hi hello. apply (puts_hold [hi; hello; hi] empty_store).
  - repeat constructor.
  - intros o1 o2. rewrite !elem_of_cons, !elem_of_nil.
    intros [->|[->|[->|[]]]] [->|[->|[->|[]]]] H; try reflexivity;
      vm_compute in H; discriminate.
  - intros o _. left. apply lookup_empty.
  - apply list_elem_of_further, list_elem_of_here.
Defined.

(** ** Trees: from the store back to the working directory *)

Lemma file_mode_cases (content : bytes) (st_mode : N) :
  _get_file_mode (File content st_mode) = lit "100755"
  \/ _get_file_mode (File content st_mode) = lit "100644".
Proof. cbn [_get_file_mode]. destruct (negb _); auto. Qed.

Lemma file_mode_proper (content : bytes) (st_mode : N) :
  (32 ∉ _get_file_mode (File content st_mode))
  /\ (0 ∉ _get_file_mode (File content st_mode))
  /\ _get_file_mode (File content st_mode) <> lit "40000".
Proof.
  destruct (file_mode_cases content st_mode) as [->| ->];
    (split; [decide_vm|split; [decide_vm|discriminate]]).
Qed.

Lemma list_sum_bound (l : list (str * node)) (c : str * node) :
  c ∈ l -> (weight (snd c) <= list_sum (map (fun c => weight (snd c)) l))%nat.
Proof.
  induction l as [|x l IH]; [intros H; now apply elem_of_nil in H|].
  intros H. unfold list_sum in *. cbn [map fold_right].
  apply elem_of_cons in H as [->|H]; [lia|].
  specialize (IH H). lia.
Qed.

Lemma weight_positive (directory : node) : (1 <= weight directory)%nat.
Proof. destruct directory; cbn [weight]; lia. Qed.

Lemma list_sum_length (l : list (str * node)) :
  (length l <= list_sum (map (fun c => weight (snd c)) l))%nat.
Proof.
  induction l as [|x l IH]; [reflexivity|]. unfold list_sum in *.
  cbn [map fold_right length].
  pose proof (weight_positive (snd x)). lia.
Qed.

Lemma elem_of_insert_sorted {A : Type} (key : A -> str) (x y : A)
    (l : list A) :
  y ∈ insert_sorted key x l <-> y = x \/ y ∈ l.
Proof.
  induction l as [|z l IH]; cbn [insert_sorted].
  - rewrite elem_of_cons. tauto.
  - destruct (str_lt (key z) (key x)); rewrite !elem_of_cons; [|tauto].
    rewrite IH. tauto.
Qed.

Lemma elem_of_sorted {A : Type} (key : A -> str) (y : A) (l : list A) :
  y ∈ sorted key l <-> y ∈ l.
Proof.
  induction l as [|x l IH]; [reflexivity|]. cbn [sorted foldr].
  fold (sorted key l). rewrite elem_of_insert_sorted, elem_of_cons, IH.
  tauto.
Qed.

Lemma nul_free_children (children : list (str * node)) :
  nul_free (Dir children) ->
  Forall (fun c : str * node => (0 ∉ fst c) /\ nul_free (snd c)) children.
Proof.
  cbn [nul_free]. intros [Hn Hc].
  induction children as [|c children IH]; [constructor|].
  apply Forall_cons in Hn as [Hn0 Hn]. cbn [foldr] in Hc.
  destruct Hc as [Hc0 Hc]. constructor; [now split|now apply IH].
Qed.

Section Restore.
Variable GIT_DIR : str.
Variable st : store.

(** The loop of the build over children in order, and the restoring of
    the records that its entries make. *)
Lemma restore_children (fuelR : nat) (target : list str)
    (l : list (str * node)) :
  Forall (fun c : str * node =>
            forall name h objs target' log fuel,
              tree_of GIT_DIR (snd c) name = Ok (Some h, objs) ->
              nul_free (snd c) -> Forall (holds st) objs ->
              (weight (snd c) < fuel)%nat ->
              read_tree_to_directory st fuel h target' log
              = Some (rev (restored GIT_DIR (snd c) target') ++ log, Ok tt))
         l ->
  Forall (fun c : str * node =>
            (0 ∉ fst c) /\ nul_free (snd c)
            /\ (weight (snd c) < fuelR)%nat) l ->
  in_order fst l ->
  forall entries0 objs0 entries objs,
    gather
      (map (fun c : str * node => (fst c, (snd c, tree_of GIT_DIR (snd c)))) l)
      entries0 objs0 = Ok (entries, objs) ->
    exists E O rs,
      entries = entries0 ++ E /\ objs = objs0 ++ O
      /\ Forall2 is_record E rs /\ Forall proper rs
      /\ Forall (fun e => exists c, c ∈ l /\ entry_name e = fst c) E
      /\ in_order entry_name E
      /\ (length rs <= length l)%nat
      /\ (Forall (holds st) O ->
          forall fuelL log,
            (length rs <= fuelL)%nat ->
            restore_all st (read_tree_to_directory st fuelR) rs target
              fuelL log
            = Some (rev (flat_map (restored_entry GIT_DIR target)
                           (map (fun c : str * node =>
                                   (fst c, (snd c, restored GIT_DIR (snd c))))
                                l))
                    ++ log,
                    Ok tt)).
Proof.
  induction 1 as [|[name item] l Hc _ IH];
    intros Hl Hord entries0 objs0 entries objs H.
  - injection H as <- <-. exists [], [], [].
    rewrite !app_nil_r. repeat split; constructor.
  - apply Forall_cons in Hl as [(Hnul & Hfree & Hw) Hl].
    destruct Hord as [Hmin Hord]. cbn [fst snd] in *.
    specialize (IH Hl Hord).
    assert (Hlater : forall E : list entry,
               Forall (fun e => exists c, c ∈ l /\ entry_name e = fst c) E ->
               Forall (fun e => exists c, c ∈ (name, item) :: l
                                          /\ entry_name e = fst c) E).
    { intros E HE. eapply Forall_impl; [exact HE|].
      intros e (c & Hin & Hn). exists c.
      split; [now apply list_elem_of_further|exact Hn]. }
    assert (Habove : forall E : list entry,
               Forall (fun e => exists c, c ∈ l /\ entry_name e = fst c) E ->
               Forall (fun e => str_lt (entry_name e) name = false) E).
    { intros E HE. eapply Forall_impl; [exact HE|].
      intros e (c & Hin & ->). rewrite Forall_forall in Hmin.
      now apply Hmin. }
    cbn [map fst snd gather flat_map restored_entry] in *.
    destruct (starts_with (lit ".") name).
    { destruct (IH _ _ _ _ H) as (E & O & rs & HE & HO & Hrec & Hp & Hin
                                  & HordE & Hlen & Hrest).
      exists E, O, rs. repeat split; try assumption; [now apply Hlater|cbn [length]; lia]. }
    destruct item as [content st_mode|children|].
    + rewrite (hash_content_kind _ _ blob_kind) in H. cbn [bind] in H.
      destruct (IH _ _ _ _ H) as (E & O & rs & -> & -> & Hrec & Hp & Hin
                                  & HordE & Hlen & Hrest).
      destruct (file_mode_proper content st_mode) as (Hm32 & Hm0 & Hmdir).
      exists ((_get_file_mode (File content st_mode), lit "blob",
               address_of (lit "blob", content), name) :: E),
        ((lit "blob", content) :: O),
        ((_get_file_mode (File content st_mode), name,
          SHA1.digest (framed (lit "blob") content)) :: rs).
      rewrite <- !app_assoc. split; [reflexivity|]. split; [reflexivity|].
      split; [constructor; [now repeat split|exact Hrec]|].
      split; [constructor; [|exact Hp]|].
      { split; [now repeat split|apply length_digest]. }
      split; [constructor; [|now apply Hlater]|].
      { exists (name, File content st_mode).
        split; [apply list_elem_of_here|reflexivity]. }
      split; [split; [now apply Habove|exact HordE]|].
      split; [cbn [length]; lia|].
      intros Hholds fuelL log HfuelL.
      apply Forall_cons in Hholds as [Hblob Hholds].
      destruct fuelL as [|fuelL]; [cbn [length] in HfuelL; lia|].
      cbn [restore_all]. unfold restore_entry.
      rewrite decide_False by assumption.
      change (hex (SHA1.digest (framed (lit "blob") content)))
        with (address_of (lit "blob", content)).
      unfold holds in Hblob. rewrite Hblob.
      assert (Hchmod : forall log0 : list action,
                 (if decide (_get_file_mode (File content st_mode)
                             = lit "100755")
                  then Some (Chmod (target ++ [name]) 493 :: log0, Ok tt)
                  else Some (Chmod (target ++ [name]) 420 :: log0, Ok tt))
                 = Some (Chmod (target ++ [name])
                           (if decide (_get_file_mode (File content st_mode)
                                       = lit "100755")
                            then 493 else 420) :: log0,
                         @Ok unit tt)).
      { intros log0. now destruct (decide _). }
      rewrite Hchmod.
      rewrite (Hrest Hholds fuelL _) by (cbn [length] in HfuelL; lia).
      f_equal. f_equal. cbn [app rev]. now rewrite <- !app_assoc.
    + apply bind_Ok in H as ([sh sub] & Hsub & H).
      pose proof (tree_of_cases GIT_DIR (Dir children) name sh sub Hsub)
        as Hcase.
      destruct (bool_decide (name = GIT_DIR) || hollow GIT_DIR (Dir children)).
      * subst sh. cbn [truthy] in H.
        destruct (IH _ _ _ _ H) as (E & O & rs & -> & -> & Hrec & Hp & Hin
                                    & HordE & Hlen & Hrest).
        exists E, (sub ++ O), rs. rewrite <- !app_assoc.
        repeat split; try assumption; [now apply Hlater|cbn [length]; lia|].
        intros Hholds fuelL log HfuelL.
        apply Forall_app in Hholds as [_ Hholds]. cbn [app].
        now apply Hrest.
      * destruct Hcase as (h & -> & Ha).
        rewrite (address_truthy _ Ha) in H. cbn [default from_option id] in H.
        destruct (IH _ _ _ _ H) as (E & O & rs & -> & -> & Hrec & Hp & Hin
                                    & HordE & Hlen & Hrest).
        destruct (address_unhex _ Ha) as (hb & Hhb & Hhblen).
        exists ((lit "40000", lit "tree", h, name) :: E), (sub ++ O),
          ((lit "40000", name, hb) :: rs).
        rewrite <- !app_assoc. split; [reflexivity|]. split; [reflexivity|].
        split; [constructor; [now repeat split|exact Hrec]|].
        split; [constructor; [|exact Hp]|].
        { split; [|exact Hhblen]. split; [decide_vm|].
          split; [decide_vm|exact Hnul]. }
        split; [constructor; [|now apply Hlater]|].
        { exists (name, Dir children).
          split; [apply list_elem_of_here|reflexivity]. }
        split; [split; [now apply Habove|exact HordE]|].
        split; [cbn [length]; lia|].
        intros Hholds fuelL log HfuelL.
        apply Forall_app in Hholds as [Hsubs Hholds].
        destruct fuelL as [|fuelL]; [cbn [length] in HfuelL; lia|].
        cbn [restore_all]. unfold restore_entry.
        rewrite decide_True by reflexivity. rewrite Hhb.
        rewrite (Hc name h sub (target ++ [name]) log fuelR Hsub Hfree Hsubs Hw).
        rewrite (Hrest Hholds fuelL _) by (cbn [length] in HfuelL; lia).
        f_equal. f_equal. rewrite rev_app_distr. now rewrite <- !app_assoc.
    + destruct (IH _ _ _ _ H) as (E & O & rs & HE & HO & Hrec & Hp & Hin
                                  & HordE & Hlen & Hrest).
      exists E, O, rs. repeat split; try assumption; [now apply Hlater|cbn [length]; lia].
Qed.
End Restore.

(** Restoring the tree of a directory from a store that gives back the
    objects of its build. *)
Lemma read_tree_plan (GIT_DIR : str) (st : store) (directory : node) :
  forall name h objs target log fuel,
    tree_of GIT_DIR directory name = Ok (Some h, objs) ->
    nul_free directory -> Forall (holds st) objs ->
    (weight directory < fuel)%nat ->
    read_tree_to_directory st fuel h target log
    = Some (rev (restored GIT_DIR directory target) ++ log, Ok tt).
Proof.
  induction directory as [content st_mode|children IH|] using node_ind';
    intros name h objs target log fuel H Hnul Hholds Hfuel;
    cbn [tree_of] in H;
    try (destruct (decide (name = GIT_DIR)); discriminate).
  destruct (decide (name = GIT_DIR)); [discriminate|].
  apply bind_Ok in H as ([entries objs0] & Hg & H).
  rewrite (sorted_map
             (fun c : str * node => (fst c, (snd c, tree_of GIT_DIR (snd c))))
             fst fst) in Hg by reflexivity.
  destruct fuel as [|fuel]; [lia|]. cbn [weight] in Hfuel.
  apply (restore_children GIT_DIR st fuel target) in Hg
    as (E & O & rs & -> & -> & Hrec & Hp & _ & HordE & Hlen & Hrest).
  2:{ now apply Forall_sorted. }
  2:{ apply Forall_sorted. apply Forall_forall. intros c Hin.
      pose proof (nul_free_children _ Hnul) as Hch.
      rewrite Forall_forall in Hch. destruct (Hch c Hin) as [H0 Hn].
      pose proof (list_sum_bound children c Hin).
      split; [exact H0|]. split; [exact Hn|lia]. }
  2:{ apply sorted_in_order. }
  cbn [app] in H. destruct E as [|e E]; [discriminate|].
  apply bind_Ok in H as (tree_content & Hb & H).
  apply bind_Ok in H as (tree_hash & Hh & [= <- <-]).
  rewrite (hash_content_kind _ _ tree_kind) in Hh. injection Hh as <-.
  apply Forall_app in Hholds as [HO Htree].
  apply Forall_cons in Htree as [Htree _]. unfold holds in Htree.
  unfold _build_tree_content in Hb. rewrite sorted_id in Hb by assumption.
  rewrite (append_entries_records _ _ Hrec) in Hb.
  apply bind_Ok in Hb as (b & Hb & [= <-]). cbn [app] in *.
  cbn [read_tree_to_directory]. rewrite Htree.
  rewrite decide_False by (intros Hne; now apply Hne).
  rewrite length_sorted in Hlen.
  pose proof (list_sum_length children) as Hsum.
  destruct fuel as [|fuel]; [lia|].
  rewrite <- (app_nil_r b).
  rewrite (parse_entries_records st (read_tree_to_directory st (S fuel))
             target rs [] b [] Hb Hp)
    with (r := (rev (restored GIT_DIR (Dir children) target) ++ log, Ok tt));
    [reflexivity| |].
  - intros fuel0 log0 r Hr. cbn [restore_all] in Hr.
    rewrite <- Hr. now destruct fuel0.
  - rewrite app_nil_r. rewrite (Hrest HO fuel _) by lia.
    cbn [restored rev].
    rewrite (sorted_map
               (fun c : str * node =>
                  (fst c, (snd c, restored GIT_DIR (snd c))))
               fst fst) by reflexivity.
    now rewrite <- app_assoc.
Qed.

(** X16. What [create_tree_from_directory] has stored,
    [read_tree_to_directory] restores: from the tree address of a
    directory whose names hold no NUL character it makes the target
    directory and then, child by child in the order of the names, writes
    each file with its content and sets its mode to 0o755 or 0o644 as the
    file was executable or not, and restores each directory that has a
    tree; hidden names, directories without an entry and what is neither
    file nor directory are not restored. This holds when no two distinct
    objects of the build share an address and each of their addresses
    was free before the build or held its object, and with fuel above
    the number of files and directories. *)
Theorem read_tree_restores (GIT_DIR : str) (directory : node) (name : str)
    (st st' : store) (tree_hash : str) (objs : list (str * bytes)) :
  create_tree_from_directory GIT_DIR directory name st
  = Ok (Some tree_hash, st') ->
  tree_of GIT_DIR directory name = Ok (Some tree_hash, objs) ->
  nul_free directory ->
  (forall o1 o2, o1 ∈ objs -> o2 ∈ objs ->
                 address_of o1 = address_of o2 -> o1 = o2) ->
  (forall o, o ∈ objs ->
             files st !! _object_path (address_of o) = None \/ holds st o) ->
  forall (target_dir : list str) (log : list action) (fuel : nat),
    (weight directory < fuel)%nat ->
    read_tree_to_directory st' fuel tree_hash target_dir log
    = Some (rev (restored GIT_DIR directory target_dir) ++ log, Ok tt).
Proof.
  intros Hc Ht Hnul Hinj Hfree target_dir log fuel Hfuel.
  apply create_tree_puts in Hc as (objs' & Ht' & -> & Hkinds).
  rewrite Ht in Ht'. injection Ht' as <-.
  apply (read_tree_plan GIT_DIR _ directory name tree_hash objs);
    try assumption.
  apply Forall_forall. intros o Ho.
  now apply (puts_hold_all objs Hkinds Hinj st Hfree).
Qed.

Lemma read_tree_restores_witness :
  let directory :=
    Dir [(lit "run.sh", File (ascii_bytes "echo") 493);
         (lit ".hidden", File (ascii_bytes "secret") 420);
         (lit "lib", Dir [(lit "a.txt", File (ascii_bytes "hi") 420)]);
         (lit "empty", Dir [])] in
  exists tree_hash st',
    create_tree_from_directory (lit ".git") directory (lit "") empty_store
    = Ok (Some tree_hash, st')
    /\ read_tree_to_directory st' 7 tree_hash [lit "restored"] []
       = Some ([Chmod [lit "restored"; lit "run.sh"] 493;
                WriteBytes [lit "restored"; lit "run.sh"] (ascii_bytes "echo");
                Chmod [lit "restored"; lit "lib"; lit "a.txt"] 420;
                WriteBytes [lit "restored"; lit "lib"; lit "a.txt"]
                  (ascii_bytes "hi");
                Mkdir [lit "restored"; lit "lib"];
                Mkdir [lit "restored"]],
               Ok tt).
Proof.
  intros directory.
  destruct (tree_of (lit ".git") directory (lit "")) as [[[h|] objs]|e]
    eqn:Ht; [|vm_compute in Ht; discriminate..].
  assert (Hc : create_tree_from_directory (lit ".git") directory (lit "")
                 empty_store = Ok (Some h, puts objs empty_store)).
  { rewrite create_tree_plan, Ht. reflexivity. }
  exists h, (puts objs empty_store). split; [exact Hc|].
  rewrite (read_tree_restores _ _ _ _ _ _ _ Hc Ht).
  - reflexivity.
  - cbn. repeat split; repeat constructor; decide_vm.
  - vm_compute in Ht. injection Ht as <- <-. intros o1 o2.
    rewrite !elem_of_cons, !elem_of_nil.
    intros [->|[->|[->|[->|[]]]]] [->|[->|[->|[->|[]]]]] H;
      try reflexivity; vm_compute in H; discriminate.
  - intros o _. left. apply lookup_empty.
  - cbn. lia.
Defined.

(** ** Commits: the record of a commit *)

Lemma parse_headers_exact (timestamp : Z) (tree_hash : str)
    (parent_hash : option str) (message : str) :
  parse_headers (header_lines timestamp tree_hash parent_hash)
    {[ lit "message" := strip message ]}
  = Ok (commit_record timestamp tree_hash parent_hash message).
Proof.
  unfold header_lines, commit_record. cbv zeta.
  change (lit "tree " ++ tree_hash) with (lit "tree" ++ 32 :: tree_hash).
  change (lit "parent " ++ default [] parent_hash)
    with (lit "parent" ++ 32 :: default [] parent_hash).
  change (lit "author " ++ ?x) with (lit "author" ++ 32 :: x).
  change (lit "committer " ++ ?x) with (lit "committer" ++ 32 :: x).
  destruct (truthy parent_hash); cbn [app].
  all: rewrite !parse_headers_line by decide_vm; reflexivity.
Qed.

(** What [parse_commit] makes of the text of [create_commit]. *)
Lemma parse_commit_text (st : store) (a : str) (content : bytes)
    (timestamp : Z) (tree_hash : str) (parent_hash : option str)
    (message : str) :
  Forall in_line tree_hash ->
  (forall p, parent_hash = Some p -> Forall in_line p) ->
  encode (commit_text timestamp tree_hash parent_hash message) = Ok content ->
  retrieve_object st a = Ok (lit "commit", content) ->
  parse_commit st a
  = Ok (commit_record timestamp tree_hash parent_hash message).
Proof.
  intros Ht Hp Henc Hretr.
  pose proof (header_lines_in_line timestamp tree_hash parent_hash Ht Hp)
    as Hhl.
  assert (Hne : header_lines timestamp tree_hash parent_hash <> [])
    by (unfold header_lines; discriminate).
  unfold parse_commit. rewrite Hretr. cbn [bind].
  rewrite decide_False by (intros H; now apply H).
  rewrite (decode_encode _ _ Henc). cbn [bind].
  rewrite commit_text_eq. unfold split1_sub.
  rewrite cut_sub_lines.
  - cbn [unpack2 bind]. rewrite split_join; [apply parse_headers_exact|exact Hne|].
    eapply Forall_impl; [exact Hhl|]. intros l [_ Hl].
    now apply in_line_elim.
  - exact Hne.
  - eapply Forall_impl; [exact Hhl|]. intros l [Hl0 Hl].
    split; [exact Hl0|now apply in_line_elim].
Qed.

(** X17. [parse_commit] of a commit that [create_commit] has stored at an
    address that was free gives exactly this record: the message with the
    white space at both ends stripped, the tree, the parent when one was
    given and it is not the empty text, and for author and committer
    alike the fixed name and mail address, the time and the zone +0000;
    there is no other key. The tree and the parent are text without a
    line break, and all that is given is text that UTF-8 can encode. *)
Theorem parse_commit_exact (st st' : store) (timestamp : Z)
    (tree_hash : str) (parent_hash : option str) (message : str) (a : str) :
  Forall scalar tree_hash -> 10 ∉ tree_hash ->
  (forall p, parent_hash = Some p -> Forall scalar p /\ (10 ∉ p)) ->
  create_commit st timestamp tree_hash parent_hash message = Ok (a, st') ->
  files st !! _object_path a = None ->
  parse_commit st' a
  = Ok (commit_record timestamp tree_hash parent_hash message)
  /\ forall key value,
       commit_record timestamp tree_hash parent_hash message !! key
       = Some value ->
       key ∈ [lit "message"; lit "tree"; lit "parent"; lit "author";
              lit "committer"].
Proof.
  intros Ht Htn Hp Hc Hfree. split.
  - unfold create_commit in Hc. apply bind_Ok in Hc as (content & Henc & Hs).
    apply (parse_commit_text st' a content).
    + now apply in_line_intro.
    + intros p E. destruct (Hp p E). now apply in_line_intro.
    + exact Henc.
    + apply (retrieve_stored st st' (lit "commit") a content);
        try assumption; decide_vm.
  - intros key value. unfold commit_record. cbv zeta.
    rewrite !elem_of_cons.
    destruct (decide (key = lit "committer")) as [->|?]; [auto 10|].
    rewrite lookup_insert_ne by congruence.
    destruct (decide (key = lit "author")) as [->|?]; [auto 10|].
    rewrite lookup_insert_ne by congruence.
    destruct (decide (key = lit "parent")) as [->|?]; [auto 10|].
    destruct (decide (key = lit "tree")) as [->|?]; [auto 10|].
    destruct (decide (key = lit "message")) as [->|?]; [auto 10|].
    destruct (truthy parent_hash);
      rewrite ?lookup_insert_ne by congruence;
      rewrite lookup_singleton_ne by congruence; discriminate.
Qed.


Lemma parse_commit_exact_witness :
  let tree_hash := lit "4b825dc642cb6eb9a060e54bf8d69288fbee4904" in
  let record := commit_record 1700000000 tree_hash (Some []) (lit " root ") in
  exists a st',
    create_commit empty_store 1700000000 tree_hash (Some []) (lit " root ")
    = Ok (a, st')
    /\ parse_commit st' a = Ok record
    /\ record !! lit "message" = Some (lit "root")
    /\ record !! lit "parent" = None
    /\ record !! lit "author"
       = Some (lit "Peter Norvig <norvig@google.com> 1700000000 +0000").
Proof.
  intros tree_hash record.
  destruct (encode (commit_text 1700000000 tree_hash (Some []) (lit " root ")))
    as [content|e] eqn:Henc; [|vm_compute in Henc; discriminate].
  destruct (store_object_Ok empty_store (lit "commit") content)
    as (a & st' & Hs); [decide_vm|].
  assert (Hc : create_commit empty_store 1700000000 tree_hash (Some [])
                 (lit " root ") = Ok (a, st')).
  { unfold create_commit. rewrite Henc. exact Hs. }
  exists a, st'. split; [exact Hc|]. split; [|repeat split; by_vm].
  apply (parse_commit_exact empty_store st' 1700000000 tree_hash (Some [])
           (lit " root ") a).
  - decide_vm.
  - decide_vm.
  - intros p [= <-]. split; [constructor|decide_vm].
  - exact Hc.
  - apply lookup_empty.
Defined.

(** ** Commits: the log *)

Lemma str_of_Z_no (z : Z) (c : N) :
  is_digit c = false -> c <> 45 -> c ∉ str_of_Z z.
Proof.
  intros Hc H45. unfold str_of_Z. destruct (z <? 0)%Z.
  - rewrite elem_of_cons. intros [?|Hin]; [congruence|].
    now apply (str_of_N_no _ _ Hc) in Hin.
  - now apply str_of_N_no.
Qed.

Lemma str_of_Z_head (z : Z) :
  exists c m, str_of_Z z = c :: m /\ is_space c = false.
Proof.
  unfold str_of_Z. destruct (z <? 0)%Z; [now exists 45, (str_of_N (Z.to_N (- z)))|].
  pose proof (str_of_N_digits (Z.to_N z)) as Hd.
  pose proof (str_of_N_nonempty (Z.to_N z)) as Hne.
  destruct (str_of_N (Z.to_N z)) as [|c m]; [congruence|].
  exists c, m. split; [reflexivity|].
  apply Forall_cons in Hd as [Hc _]. now apply digit_not_space.
Qed.

(** The date that [log] takes from the committer. *)
Lemma signature_date (timestamp : Z) :
  exists name,
    split 62 (signature timestamp)
    = [name; 32 :: str_of_Z timestamp ++ lit " +0000"]
    /\ strip (32 :: str_of_Z timestamp ++ lit " +0000")
       = str_of_Z timestamp ++ lit " +0000".
Proof.
  exists (lit "Peter Norvig <norvig@google.com"). split.
  - change (signature timestamp)
      with (lit "Peter Norvig <norvig@google.com"
            ++ 62 :: (32 :: str_of_Z timestamp ++ lit " +0000")).
    rewrite split_app by decide_vm. f_equal. apply split_no_sep.
    rewrite elem_of_cons, elem_of_app.
    intros [?|[Hin|Hin]]; [discriminate| |].
    + now apply (str_of_Z_no timestamp 62) in Hin.
    + revert Hin. decide_vm.
  - change (strip (32 :: str_of_Z timestamp ++ lit " +0000"))
      with (strip (str_of_Z timestamp ++ lit " +0000")).
    apply strip_trimmed. destruct (str_of_Z_head timestamp) as (c & m & E & Hc).
    split.
    + exists c, (m ++ lit " +0000"). now rewrite E.
    + rewrite rev_app_distr. eexists _, _. split; reflexivity.
Qed.

Lemma commit_record_lookups (timestamp : Z) (tree_hash : str)
    (parent_hash : option str) (message : str) :
  let d := commit_record timestamp tree_hash parent_hash message in
  d !! lit "author" = Some (signature timestamp)
  /\ d !! lit "committer" = Some (signature timestamp)
  /\ d !! lit "message" = Some (strip message)
  /\ d !! lit "tree" = Some tree_hash
  /\ d !! lit "parent"
     = (if truthy parent_hash then Some (default [] parent_hash) else None).
Proof.
  unfold commit_record. cbv zeta.
  destruct (truthy parent_hash); repeat split.
  all: repeat (rewrite lookup_insert_ne by decide_vm).
  all: rewrite ?lookup_insert_eq, ?lookup_singleton_eq; try reflexivity.
  all: now rewrite lookup_singleton_ne by decide_vm.
Qed.

(** The lines of one commit. *)
Lemma log_entry_record (commit_hash : str) (timestamp : Z) (tree_hash : str)
    (parent_hash : option str) (message : str) (out : list printed) :
  PyGitCommit.log_entry commit_hash
    (commit_record timestamp tree_hash parent_hash message) out
  = (out ++ log_lines (commit_hash, timestamp, tree_hash, message), Ok tt).
Proof.
  destruct (commit_record_lookups timestamp tree_hash parent_hash message)
    as (Ha & Hc & Hm & _ & _).
  destruct (signature_date timestamp) as (name & Hsplit & Hstrip).
  unfold PyGitCommit.log_entry. rewrite Ha, Hc, Hm, Hsplit, Hstrip.
  cbn [log_lines]. now rewrite <- !app_assoc.
Qed.

(** The walk of [log] along a history. *)
Lemma log_loop_history (st : store) (cs : list (str * Z * str * str)) :
  history st cs ->
  forall (fuel : nat) (out : list printed),
    (length cs <= fuel)%nat ->
    PyGitCommit.log_loop st fuel (first_commit cs) out
    = Some (out ++ flat_map log_lines cs).
Proof.
  induction cs as [|[[[commit_hash timestamp] tree_hash] message] older IH];
    intros Hh fuel out Hfuel.
  - cbn. rewrite app_nil_r. now destruct fuel.
  - destruct Hh as (Hne & Hparse & Holder).
    destruct fuel as [|fuel]; [cbn in Hfuel; lia|].
    cbn [first_commit PyGitCommit.log_loop].
    rewrite (truthy_Some _ Hne). cbn [default from_option id].
    rewrite Hparse, log_entry_record.
    destruct (commit_record_lookups timestamp tree_hash (first_commit older)
                message) as (_ & _ & _ & _ & Hp).
    rewrite Hp.
    assert (Hnext : (if truthy (first_commit older)
                     then Some (default [] (first_commit older)) else None)
                    = first_commit older).
    { destruct older as [|[[[a ?] ?] ?] ?]; [reflexivity|].
      destruct Holder as (Ha & _). cbn [first_commit].
      now rewrite (truthy_Some _ Ha). }
    rewrite Hnext, (IH Holder fuel _) by (cbn in Hfuel; lia).
    cbn [flat_map]. now rewrite <- app_assoc.
Qed.

(** X18. Along a history in the store, in which each commit is as
    [create_commit] makes it with the next one as its parent and the last
    one has no parent, [log] prints for each commit, the newest first,
    its address, its author, its date (the time and the zone of the
    committer), its stripped message with every line indented by four
    spaces, and an empty line, and then ends; as many rounds as there are
    commits suffice. When the commit at hand does not parse, the error
    line of the exception is printed instead and the walk ends. From a
    ref, [log] prints the same for the commit that the ref resolves to,
    and an error line when it resolves to nothing. *)
Theorem log_prints_history (st : store) (fuel : nat) :
  (forall (cs : list (str * Z * str * str)) (commit_hash : str),
      history st cs -> first_commit cs = Some commit_hash ->
      (length cs <= fuel)%nat ->
      PyGitCommit.log st fuel commit_hash = Some (flat_map log_lines cs))
  /\ (forall (commit_hash : str) (e : exn),
        commit_hash <> [] -> parse_commit st commit_hash = Raise e ->
        PyGitCommit.log st (S fuel) commit_hash = Some [ErrorLine e])
  /\ (forall (rs : gmap (list N) ref_node) (start_point commit_hash : str)
             (cs : list (str * Z * str * str)),
        GitRefs.resolve_ref fuel rs start_point
        = Some (Ok (Some commit_hash)) ->
        history st cs -> first_commit cs = Some commit_hash ->
        (length cs <= fuel)%nat ->
        PyGitRef.log fuel rs st start_point
        = Some (Ok (flat_map log_lines cs)))
  /\ (forall (rs : gmap (list N) ref_node) (start_point : str),
        GitRefs.resolve_ref fuel rs start_point = Some (Ok None) ->
        PyGitRef.log fuel rs st start_point
        = Some (Ok [Line (lit "Error: Cannot resolve '" ++ start_point
                          ++ lit "' to a commit.")])).
Proof.
  assert (Hlog : forall cs commit_hash,
             history st cs -> first_commit cs = Some commit_hash ->
             (length cs <= fuel)%nat ->
             PyGitCommit.log st fuel commit_hash
             = Some (flat_map log_lines cs)).
  { intros cs commit_hash Hh Hfirst Hfuel. unfold PyGitCommit.log.
    rewrite <- Hfirst. now rewrite (log_loop_history st cs Hh fuel []). }
  split; [exact Hlog|]. split; [|split].
  - intros commit_hash e Hne Hparse. unfold PyGitCommit.log.
    cbn [PyGitCommit.log_loop]. rewrite (truthy_Some _ Hne).
    cbn [default from_option id]. now rewrite Hparse.
  - intros rs start_point commit_hash cs Hres Hh Hfirst Hfuel.
    unfold PyGitRef.log. rewrite Hres.
    assert (Hne : commit_hash <> []).
    { destruct cs as [|[[[a ?] ?] ?] ?]; [discriminate|].
      destruct Hh as (Ha & _). now injection Hfirst as <-. }
    rewrite (truthy_Some _ Hne). cbn [negb default from_option id].
    now rewrite (Hlog cs commit_hash Hh Hfirst Hfuel).
  - intros rs start_point Hres. unfold PyGitRef.log. now rewrite Hres.
Qed.

Lemma log_prints_history_witness :
  let tree_hash := lit "4b825dc642cb6eb9a060e54bf8d69288fbee4904" in
  exists a1 a2 st1 st2,
    create_commit empty_store 1700000000 tree_hash None (lit "first") = Ok (a1, st1)
    /\ create_commit st1 1700000060 tree_hash (Some a1)
         (lit "second" ++ [10] ++ lit "line" ++ [10])
       = Ok (a2, st2)
    /\ PyGitCommit.log st2 2 a2
       = Some [Line (lit "commit " ++ a2);
               Line (lit "Author: Peter Norvig <norvig@google.com> 1700000060 +0000");
               Line (lit "Date:   1700000060 +0000");
               Line ([10] ++ lit "    second" ++ [10] ++ lit "    line");
               Line [];
               Line (lit "commit " ++ a1);
               Line (lit "Author: Peter Norvig <norvig@google.com> 1700000000 +0000");
               Line (lit "Date:   1700000000 +0000");
               Line ([10] ++ lit "    first");
               Line []].
Proof.
  intros tree_hash.
  set (m2 := lit "second" ++ [10] ++ lit "line" ++ [10]).
  destruct (encode (commit_text 1700000000 tree_hash None (lit "first")))
    as [c1|e] eqn:E1; [|vm_compute in E1; discriminate].
  destruct (store_object_Ok empty_store (lit "commit") c1)
    as (a1 & st1 & Hs1); [decide_vm|].
  assert (Ha1 : _hash_content (lit "commit") c1 = Ok a1).
  { rewrite store_object_puts in Hs1.
    destruct (_hash_content (lit "commit") c1); [|discriminate].
    now injection Hs1 as <- _. }
  assert (Hc1 : create_commit empty_store 1700000000 tree_hash None
                  (lit "first") = Ok (a1, st1)).
  { unfold create_commit. rewrite E1. exact Hs1. }
  assert (Hr1 : retrieve_object st1 a1 = Ok (lit "commit", c1)).
  { apply (retrieve_stored empty_store st1 _ a1 c1); try assumption;
      try decide_vm. }
  vm_compute in E1. injection E1 as <-.
  vm_compute in Ha1. injection Ha1 as <-.
  match type of Hr1 with retrieve_object _ ?a = Ok (_, ?c) =>
    set (a1 := a) in *; set (c1 := c) in * end.
  destruct (encode (commit_text 1700000060 tree_hash (Some a1) m2))
    as [c2|e] eqn:E2; [|vm_compute in E2; discriminate].
  destruct (store_object_Ok st1 (lit "commit") c2)
    as (a2 & st2 & Hs2); [decide_vm|].
  assert (Ha2 : _hash_content (lit "commit") c2 = Ok a2).
  { rewrite store_object_puts in Hs2.
    destruct (_hash_content (lit "commit") c2); [|discriminate].
    now injection Hs2 as <- _. }
  assert (Hc2 : create_commit st1 1700000060 tree_hash (Some a1) m2
                = Ok (a2, st2)).
  { unfold create_commit. rewrite E2. exact Hs2. }
  exists a1, a2, st1, st2. split; [exact Hc1|]. split; [exact Hc2|].
  assert (Hfree : files st1 !! _object_path a2 = None).
  { destruct (store_object_cases _ _ _ _ _ Hs1) as [[_ ->]|[_ [f ->]]];
      [apply lookup_empty|].
    cbn [write_bytes files]. rewrite lookup_insert_ne; [apply lookup_empty|].
    vm_compute in E2. injection E2 as <-.
    vm_compute in Ha2. injection Ha2 as <-.
    intros H. vm_compute in H. discriminate H. }
  assert (Hr2 : retrieve_object st2 a2 = Ok (lit "commit", c2)).
  { apply (retrieve_stored st1 st2 _ a2 c2); try assumption; decide_vm. }
  assert (Hne2 : a2 <> []).
  { vm_compute in E2. injection E2 as <-.
    vm_compute in Ha2. injection Ha2 as <-. discriminate. }
  rewrite (proj1 (log_prints_history st2 2)
             [(a2, 1700000060%Z, tree_hash, m2);
              (a1, 1700000000%Z, tree_hash, lit "first")] a2).
  - by_vm.
  - cbn [history first_commit]. repeat split.
    + exact Hne2.
    + apply (parse_commit_text st2 a2 c2); [decide_vm| |exact E2|exact Hr2].
      intros p [= <-]. decide_vm.
    + discriminate.
    + apply (parse_commit_text st2 a1 c1);
        [decide_vm|discriminate|by_vm|].
      apply (retrieve_kept st1 st2); [|exact Hr1].
      exact (store_object_keeps _ _ _ _ _ Hs2).
  - reflexivity.
  - cbn. lia.
Defined.
